(** * The offline effect engine of Audacity (src/effects/Effect.cpp)

    A shallow embedding of [Effect::DoEffect], [Effect::Process],
    [Effect::ProcessPass], [Effect::ProcessTrack], [Effect::CopyInputTracks]
    and [Effect::ReplaceProcessedTracks], and the properties of the
    streaming pipeline proved about them. *)

From Stdlib Require Import ZArith Lia.
From stdpp Require Import base tactics option list numbers.

(** ** Samples, tracks and track lists *)

(** A [float] sample.  The engine only moves samples around and writes
    [0.0]; integers stand for the sample values. *)
Abbreviation sample := Z.

(** [FloatBuffers]: one array per channel. *)
Abbreviation FloatBuffers := (list (list sample)).

Inductive EffectType :=
  | EffectTypeNone | EffectTypeGenerate | EffectTypeProcess | EffectTypeAnalyze.

Inductive ChannelName :=
  | ChannelNameEOL | ChannelNameMono | ChannelNameFrontLeft | ChannelNameFrontRight.

Inductive TrackKind := WaveTrackKind | LabelTrackKind | NoteTrackKind.

Inductive ChannelType := LeftChannel | RightChannel | MonoChannel.

Inductive ProgressResult := Cancelled | Success | Failed | Stopped.

#[global] Instance EffectType_eq_dec : EqDecision EffectType.
Proof. solve_decision. Defined.
#[global] Instance TrackKind_eq_dec : EqDecision TrackKind.
Proof. solve_decision. Defined.
#[global] Instance ChannelType_eq_dec : EqDecision ChannelType.
Proof. solve_decision. Defined.
#[global] Instance ProgressResult_eq_dec : EqDecision ProgressResult.
Proof. solve_decision. Defined.

(** Modelled from the spec: the track objects of Track.h and WaveTrack.h are
    not part of the sources at hand.  A track is its address ([tid], the
    identity the [Track*] comparisons of the engine test), the attributes
    the engine reads, and its samples (the Sample Source/Sink of the spec). *)
Record Track := mkTrack {
  tid : nat;
  GetKind : TrackKind;
  GetSelected : bool;
  IsSyncLockSelected : bool;
  GetLinked : bool;          (* first channel of a stereo pair *)
  GetChannel : ChannelType;
  GetRate : Z;
  GetMaxBlockSize : Z;
  samples : list sample;
}.

Definition with_samples (s : list sample) (t : Track) : Track :=
  mkTrack (tid t) (GetKind t) (GetSelected t) (IsSyncLockSelected t)
          (GetLinked t) (GetChannel t) (GetRate t) (GetMaxBlockSize t) s.

Definition Track_selected (t : Track) : Track :=
  mkTrack (tid t) (GetKind t) true (IsSyncLockSelected t)
          (GetLinked t) (GetChannel t) (GetRate t) (GetMaxBlockSize t) (samples t).

(** Modelled from the spec: [Get(buffer, startSample, count)] of the Sample
    Source; positions past the end of the track read as silence. *)
Definition Track_Get (t : Track) (start count : nat) : list sample :=
  resize count 0%Z (drop start (samples t)).

(** Modelled from the spec: [Set(buffer, startSample, count)] of the Sample
    Sink overwrites existing samples in place. *)
Definition Track_Set (buffer : list sample) (start count : nat) (t : Track) : Track :=
  with_samples (list_inserts start (take count buffer) (samples t)) t.

(** Modelled from the spec: [Append(buffer, count)] on a temporary generator
    track, which is represented by its samples. *)
Definition Track_Append (buffer : list sample) (count : nat) (g : list sample)
  : list sample := g ++ take count buffer.

(** Modelled from the spec: [limitSampleBufferSize(bufferSize, limit)] of
    Types.h, the smaller of a buffer size and a remaining sample count. *)
Definition limitSampleBufferSize (bufferSize limit : nat) : nat :=
  Nat.min bufferSize limit.

(** ** The Effect Unit and the host *)

(** What a call of [ProcessBlock] does: it returns a sample count after
    writing [outs !! i] at the output position of channel [i], or it throws. *)
Inductive BlockResult (U : Type) :=
  | Processed (processed : nat) (outs : list (list sample)) (u : U)
  | ThrowsAudacityException (u : U)
  | ThrowsOther (u : U).
Arguments Processed {U}.
Arguments ThrowsAudacityException {U}.
Arguments ThrowsOther {U}.

(** The virtual interface of an effect (EffectClientInterface and the hooks
    of class Effect) together with the host services the engine calls, over
    a state [U] that holds the effect's own data and the progress dialog. *)
Class EffectClient (U : Type) := {
  GetType : U → EffectType;
  GetAudioInCount : U → nat;
  GetAudioOutCount : U → nat;
  SetSampleRate : Z → U → U;
  SetBlockSize : Z → U → Z * U;
  GetLatency : U → nat * U;
  ProcessInitialize : nat → list ChannelName → U → bool * U;
  ProcessFinalize : U → bool * U;
  (* receives, per input channel, the memory from the input position on *)
  ProcessBlock : list (list sample) → nat → U → BlockResult U;
  Init : U → bool * U;
  InitPass1 : U → bool * U;
  InitPass2 : U → bool * U;
  (* the prompt of DoEffect: false when the user cancels the dialog *)
  ShowInterface : U → bool * U;
  (* GetPath() == NYQUIST_PROMPT_ID *)
  IsNyquistPrompt : U → bool;
  (* End() *)
  EffectEnd : U → U;
  (* mFactory->NewWaveTrack(): the attributes of a new, empty wave track *)
  NewWaveTrack : Track;
  CheckWhetherSkipEffect : U → bool;
  (* mProgress->Update(position, total) with position = index + num/den *)
  ProgressUpdate : nat → nat → nat → nat → U → ProgressResult * U;
  (* GetSamples(track, &start, &len): the selected sample range of a track *)
  GetSamples : Track → nat * nat;
  (* the generator's length for a track: rate * duration, rounded *)
  GeneratorLength : Track → nat;
  (* t->SyncLockAdjust(mT1, mT0 + mDuration): the samples of t afterwards *)
  SyncLockAdjust : Track → list sample;
  (* dest->ClearAndPaste(t0, t1, generated): the samples of dest afterwards *)
  ClearAndPaste : Track → list sample → list sample;
  (* the content of freshly allocated, uninitialised float arrays *)
  uninitialised : nat → nat → sample;
}.

(** What the instrumented engine records: the calls it makes, in order.
    Nothing reads the trace. *)
Inductive Event :=
  | EvProcessPass (pass : Z)
  | EvProcessTrack (count : nat) (left : nat) (right : option nat)
  | EvReinit (numIn numOut : nat) (inSize outSize : Z)
  | EvProcessBlock (ins : list (list sample)) (blockLen : nat)
  | EvAssertFailed.

#[global] Instance Event_eq_dec : EqDecision Event.
Proof. solve_decision. Defined.

(** How a call ends: it returns, or an [AudacityException] leaves it. *)
Inductive Outcome (A : Type) := Returns (a : A) | Propagates.
Arguments Returns {A}.
Arguments Propagates {A}.

Definition returned_true (o : Outcome bool) : bool :=
  match o with Returns true => true | _ => false end.

(** ** [Effect::ProcessTrack]: the block loop *)

(** The buffer set owned by [ProcessPass] and handed to [ProcessTrack] by
    reference.  A position ([float *]) is an offset into its channel's array. *)
Record Buffers := mkBuffers {
  inBuffer : FloatBuffers;
  outBuffer : FloatBuffers;
  inBufPos : list nat;
  outBufPos : list nat;
}.

(** The local variables of the loop. *)
Record Locals := mkLocals {
  inLeftPos : nat;
  inRightPos : nat;
  outLeftPos : nat;
  outRightPos : nat;
  inputRemaining : nat;
  curDelay : nat;
  delayRemaining : nat;
  curBlockSize : nat;
  inputBufferCnt : nat;
  outputBufferCnt : nat;
  cleared : bool;
}.

(** The tracks the loop reads and writes: the working copies [left] and
    [right] of the source, and the temporary generator tracks. *)
Record Sinks := mkSinks {
  leftTrack : Track;
  rightTrack : option Track;
  genLeft : list sample;
  genRight : option (list sample);
}.

(** The state of one run of the loop. *)
Record Run (U : Type) := mkRun {
  loc : Locals;
  buf : Buffers;
  io : Sinks;
  client : U;
  trace : list Event;
}.
Arguments mkRun {U}.
Arguments loc {U}.
Arguments buf {U}.
Arguments io {U}.
Arguments client {U}.
Arguments trace {U}.

(** What the loop reads of the effect object ([mBlockSize], [mBufferSize],
    [mNumChannels], [mNumTracks], [mNumGroups], [mProgress]), of its
    arguments and of the constants computed before the loop. *)
Record Ctx := mkCtx {
  blockSize : nat;           (* mBlockSize *)
  bufferSize : nat;          (* mBufferSize *)
  numChannels : nat;         (* mNumChannels *)
  chans : nat;               (* min(mNumAudioOut, mNumChannels) *)
  isGenerator : bool;
  isProcessor : bool;
  count : nat;
  leftStart : nat;
  len : nat;
  genLength : nat;
  hasProgress : bool;        (* mProgress != NULL *)
  numTracks : nat;           (* mNumTracks *)
  numGroups : nat;           (* mNumGroups *)
}.

(** [for (size_t i = 0; i < n; i++) a[i] = f(i, a[i])]. *)
Definition for_below {A : Type} (n : nat) (f : nat → A → A) (a : list A) : list A :=
  imap (λ i x, if decide (i < n) then f i x else x) a.

(** [for (j = 0; j < cnt; j++) p[j + at] = 0.0]. *)
Definition zero_fill (at_ cnt : nat) (a : list sample) : list sample :=
  list_inserts at_ (replicate cnt 0%Z) a.

(** [memmove(p, p + delay, sizeof(float) * n)] inside the array [a], with
    [p] at offset [pos]. *)
Definition memmove_left (pos delay n : nat) (a : list sample) : list sample :=
  list_inserts pos (take n (drop (pos + delay) a)) a.

(** The position of channel [i]; the arrays of positions hold one pointer
    per declared channel. *)
Definition pos_of (ps : list nat) (i : nat) : nat := default 0 (ps !! i).

(** The array of channel [i] of a buffer set. *)
Definition chan_of (b : FloatBuffers) (i : nat) : list sample := default [] (b !! i).

Definition set_loc {U} (l : Locals) (r : Run U) : Run U :=
  mkRun l (buf r) (io r) (client r) (trace r).
Definition set_buf {U} (b : Buffers) (r : Run U) : Run U :=
  mkRun (loc r) b (io r) (client r) (trace r).
Definition set_io {U} (s : Sinks) (r : Run U) : Run U :=
  mkRun (loc r) (buf r) s (client r) (trace r).
Definition set_client {U} (u : U) (r : Run U) : Run U :=
  mkRun (loc r) (buf r) (io r) u (trace r).
Definition log {U} (e : Event) (r : Run U) : Run U :=
  mkRun (loc r) (buf r) (io r) (client r) (trace r ++ [e]).

Section BlockLoop.
Context {U : Type} `{EffectClient U}.
Variable c : Ctx.

(** "Need to refill the input buffers": lines 1525-1543. *)
Definition refill (r : Run U) : Run U :=
  let l := loc r in
  let b := buf r in
  if decide (inputBufferCnt l = 0) then
    let cnt := limitSampleBufferSize (bufferSize c) (inputRemaining l) in
    let inb := alter (list_inserts 0 (Track_Get (leftTrack (io r)) (inLeftPos l) cnt)) 0
                     (inBuffer b) in
    let inb := match rightTrack (io r) with
               | Some rt => alter (list_inserts 0 (Track_Get rt (inRightPos l) cnt)) 1 inb
               | None => inb
               end in
    let ipos := for_below (numChannels c) (λ _ _, 0) (inBufPos b) in
    set_loc (mkLocals (inLeftPos l) (inRightPos l) (outLeftPos l) (outRightPos l)
               (inputRemaining l) (curDelay l) (delayRemaining l) (curBlockSize l)
               cnt (outputBufferCnt l) (cleared l))
      (set_buf (mkBuffers inb (outBuffer b) ipos (outBufPos b)) r)
  else r.

(** "Calculate the number of samples to process" while input remains:
    lines 1545-1573. *)
Definition input_block (r : Run U) : Run U :=
  let l := loc r in
  let b := buf r in
  if decide (inputRemaining l < blockSize c) then
    (* curBlockSize > inputRemaining: the last block *)
    let cur := inputRemaining l in
    let cnt := blockSize c - cur in
    let inb := for_below (numChannels c)
                 (λ i a, zero_fill (pos_of (inBufPos b) i + cur) cnt a) (inBuffer b) in
    let folded := if decide (delayRemaining l ≠ 0)
                  then limitSampleBufferSize cnt (delayRemaining l) else 0 in
    set_loc (mkLocals (inLeftPos l) (inRightPos l) (outLeftPos l) (outRightPos l)
               0 (curDelay l) (delayRemaining l - folded) (cur + folded)
               (inputBufferCnt l) (outputBufferCnt l) (cleared l))
      (set_buf (mkBuffers inb (outBuffer b) (inBufPos b) (outBufPos b)) r)
  else
    set_loc (mkLocals (inLeftPos l) (inRightPos l) (outLeftPos l) (outRightPos l)
               (inputRemaining l) (curDelay l) (delayRemaining l) (blockSize c)
               (inputBufferCnt l) (outputBufferCnt l) (cleared l)) r.

(** "We've exhausted the input samples and are now working on the delay":
    lines 1576-1598. *)
Definition delay_block (r : Run U) : Run U :=
  let l := loc r in
  let b := buf r in
  let cur := limitSampleBufferSize (blockSize c) (delayRemaining l) in
  let r' := set_loc (mkLocals (inLeftPos l) (inRightPos l) (outLeftPos l) (outRightPos l)
               (inputRemaining l) (curDelay l) (delayRemaining l - cur) cur
               (inputBufferCnt l) (outputBufferCnt l) true) r in
  if cleared l then r'
  else
    set_buf (mkBuffers
               (for_below (numChannels c) (λ _ a, zero_fill 0 (blockSize c) a) (inBuffer b))
               (outBuffer b)
               (for_below (numChannels c) (λ _ _, 0) (inBufPos b))
               (outBufPos b)) r'.

(** The head of an iteration: lines 1521-1598. *)
Definition next_block (r : Run U) : Run U :=
  if decide (inputRemaining (loc r) ≠ 0) then input_block (refill r)
  else if decide (delayRemaining (loc r) ≠ 0) then delay_block r
  else r.

(** What an iteration leads to. *)
Inductive Step :=
  | Continue (r : Run U)
  | Break (r : Run U)          (* rc = false; break *)
  | ReturnFalse (r : Run U)    (* catch (...) { return false; } *)
  | Rethrow (r : Run U).       (* catch (const AudacityException &) { throw; } *)

(** The memory each input pointer of [inBufPos.get()] gives access to. *)
Definition input_views (b : Buffers) : list (list sample) :=
  imap (λ i a, drop (pos_of (inBufPos b) i) a) (inBuffer b).

(** The output arrays after the effect has written [outs] through
    [outBufPos.get()]. *)
Definition write_outputs (outs : list (list sample)) (b : Buffers) : FloatBuffers :=
  imap (λ i a, match outs !! i with
               | Some d => list_inserts (pos_of (outBufPos b) i) d a
               | None => a
               end) (outBuffer b).

(** "Finally call the plugin to process the block": lines 1600-1621.  A
    failed [wxASSERT] is reported and execution goes on. *)
Definition call_block (r : Run U) : Step :=
  let b := buf r in
  let cur := curBlockSize (loc r) in
  let r0 := log (EvProcessBlock (input_views b) cur) r in
  match ProcessBlock (input_views b) cur (client r) with
  | Processed processed outs u =>
      let r1 := set_client u
                  (set_buf (mkBuffers (inBuffer b) (write_outputs outs b)
                                      (inBufPos b) (outBufPos b)) r0) in
      Continue (if decide (processed = cur) then r1 else log EvAssertFailed r1)
  | ThrowsAudacityException u => Rethrow (set_client u r0)
  | ThrowsOther u => ReturnFalse (set_client u r0)
  end.

(** "Bump to next input buffer position": lines 1623-1639. *)
Definition bump_input (r : Run U) : Run U :=
  let l := loc r in
  let b := buf r in
  let cur := curBlockSize l in
  if decide (inputRemaining l ≠ 0) then
    set_loc (mkLocals (inLeftPos l + cur) (inRightPos l + cur) (outLeftPos l) (outRightPos l)
               (inputRemaining l - cur) (curDelay l) (delayRemaining l) cur
               (inputBufferCnt l - cur) (outputBufferCnt l) (cleared l))
      (set_buf (mkBuffers (inBuffer b) (outBuffer b)
                  (for_below (numChannels c) (λ _ p, p + cur) (inBufPos b))
                  (outBufPos b)) r)
  else
    set_loc (mkLocals (inLeftPos l + cur) (inRightPos l + cur) (outLeftPos l) (outRightPos l)
               (inputRemaining l) (curDelay l) (delayRemaining l) cur
               (inputBufferCnt l) (outputBufferCnt l) (cleared l)) r.

(** "Get the current number of delayed samples and accumulate":
    lines 1641-1671. *)
Definition compensate (r : Run U) : Run U :=
  if isProcessor c then
    let l := loc r in
    let b := buf r in
    let '(delay, u) := GetLatency (client r) in
    let cd := curDelay l + delay in
    let dr := delayRemaining l + delay in
    if decide (curBlockSize l ≤ cd) then
      set_client u
        (set_loc (mkLocals (inLeftPos l) (inRightPos l) (outLeftPos l) (outRightPos l)
                    (inputRemaining l) (cd - curBlockSize l) dr 0
                    (inputBufferCnt l) (outputBufferCnt l) (cleared l)) r)
    else if decide (0 < cd) then
      let cur := curBlockSize l - cd in
      set_client u
        (set_loc (mkLocals (inLeftPos l) (inRightPos l) (outLeftPos l) (outRightPos l)
                    (inputRemaining l) 0 dr cur
                    (inputBufferCnt l) (outputBufferCnt l) (cleared l))
           (set_buf (mkBuffers (inBuffer b)
                       (for_below (chans c)
                          (λ i a, memmove_left (pos_of (outBufPos b) i) cd cur a)
                          (outBuffer b))
                       (inBufPos b) (outBufPos b)) r))
    else
      set_client u
        (set_loc (mkLocals (inLeftPos l) (inRightPos l) (outLeftPos l) (outRightPos l)
                    (inputRemaining l) cd dr (curBlockSize l)
                    (inputBufferCnt l) (outputBufferCnt l) (cleared l)) r)
  else r.

(** Writing the output buffers out: [Set] on the working copies for a
    processor, [Append] on the temporary tracks for a generator
    (lines 1688-1711 and 1750-1772). *)
Definition flush (r : Run U) : Sinks :=
  let l := loc r in
  let b := buf r in
  let s := io r in
  let n := outputBufferCnt l in
  if isProcessor c then
    mkSinks (Track_Set (chan_of (outBuffer b) 0) (outLeftPos l) n (leftTrack s))
      (match rightTrack s with
       | Some rt =>
           Some (Track_Set (chan_of (outBuffer b) (if decide (2 ≤ chans c) then 1 else 0))
                           (outRightPos l) n rt)
       | None => None
       end)
      (genLeft s) (genRight s)
  else if isGenerator c then
    mkSinks (leftTrack s) (rightTrack s)
      (Track_Append (chan_of (outBuffer b) 0) n (genLeft s))
      (match genRight s with
       | Some g => Some (Track_Append (chan_of (outBuffer b) 1) n g)
       | None => None
       end)
  else s.

(** "Adjust the number of samples in the output buffers": lines 1673-1723. *)
Definition emit (r : Run U) : Run U :=
  let l := loc r in
  let b := buf r in
  let cur := curBlockSize l in
  let n := outputBufferCnt l + cur in
  let r1 := set_loc (mkLocals (inLeftPos l) (inRightPos l) (outLeftPos l) (outRightPos l)
                       (inputRemaining l) (curDelay l) (delayRemaining l) cur
                       (inputBufferCnt l) n (cleared l)) r in
  if decide (n < bufferSize c) then
    set_buf (mkBuffers (inBuffer b) (outBuffer b) (inBufPos b)
               (for_below (chans c) (λ _ p, p + cur) (outBufPos b))) r1
  else
    set_loc (mkLocals (inLeftPos l) (inRightPos l) (outLeftPos l + n) (outRightPos l + n)
               (inputRemaining l) (curDelay l) (delayRemaining l) cur
               (inputBufferCnt l) 0 (cleared l))
      (set_buf (mkBuffers (inBuffer b) (outBuffer b) (inBufPos b)
                  (for_below (chans c) (λ _ _, 0) (outBufPos b)))
         (set_io (flush r1) r1)).

(** [Effect::TrackProgress] and [Effect::TrackGroupProgress]: true when the
    reporter asks to stop. *)
Definition TrackProgress (whichTrack num den : nat) (u : U) : bool * U :=
  if hasProgress c then
    let '(res, u') := ProgressUpdate whichTrack num den (numTracks c) u in
    (bool_decide (res ≠ Success), u')
  else (false, u).

Definition TrackGroupProgress (whichGroup num den : nat) (u : U) : bool * U :=
  if hasProgress c then
    let '(res, u') := ProgressUpdate whichGroup num den (numGroups c) u in
    (bool_decide (res ≠ Success), u')
  else (false, u).

(** The progress check that ends an iteration: lines 1725-1744. *)
Definition report (r : Run U) : Step :=
  let num := inLeftPos (loc r) - leftStart c in
  let den := if isGenerator c then genLength c else len c in
  let '(stop, u) := if decide (1 < numChannels c)
                    then TrackGroupProgress (count c) num den (client r)
                    else TrackProgress (count c) num den (client r) in
  if stop then Break (set_client u r) else Continue (set_client u r).

(** One iteration of the loop. *)
Definition iteration (r : Run U) : Step :=
  match call_block (next_block r) with
  | Continue r1 => report (emit (compensate (bump_input r1)))
  | s => s
  end.

(** [while (inputRemaining != 0 || delayRemaining != 0)]: [None] when the
    fuel does not suffice; [Continue] when the condition ends the loop. *)
Fixpoint block_loop (fuel : nat) (r : Run U) : option Step :=
  if decide (inputRemaining (loc r) = 0 ∧ delayRemaining (loc r) = 0) then
    Some (Continue r)
  else
    match fuel with
    | 0 => None
    | S fuel' =>
        match iteration r with
        | Continue r' => block_loop fuel' r'
        | s => Some s
        end
    end.

(** "Transfer the data from the temporary tracks to the actual ones":
    lines 1775-1808. *)
Definition paste_generated (s : Sinks) : Sinks :=
  mkSinks (with_samples (ClearAndPaste (leftTrack s) (genLeft s)) (leftTrack s))
    (match genRight s, rightTrack s with
     | Some g, Some rt => Some (with_samples (ClearAndPaste rt g) rt)
     | _, rt => rt
     end)
    (genLeft s) (genRight s).

(** After the loop (lines 1747-1811): the remaining output is put and the
    generated audio pasted when [rc] holds, and the scope-exit cleanup
    calls [ProcessFinalize] on every way out. *)
Definition finish (s : Step) : Run U * Outcome bool :=
  match s with
  | Continue r =>
      let r1 := if decide (outputBufferCnt (loc r) ≠ 0) then set_io (flush r) r else r in
      let r2 := if isGenerator c then set_io (paste_generated (io r1)) r1 else r1 in
      let '(ok, u) := ProcessFinalize (client r2) in
      (set_client u r2, Returns ok)
  | Break r | ReturnFalse r =>
      let '(_, u) := ProcessFinalize (client r) in
      (set_client u r, Returns false)
  | Rethrow r =>
      let '(_, u) := ProcessFinalize (client r) in
      (set_client u r, Propagates)
  end.

End BlockLoop.

(** ** The effect object *)

(** The members of class Effect the engine uses.  Sizes of type [size_t]
    are integers in [0, 2^64); the selection times are left to the host
    functions [GetSamples] and [GeneratorLength]. *)
Record Effect (U : Type) := mkEffect {
  mTracks : list Track;   (* the project's track list *)
  mOutputTracks : option (list Track);   (* the working copies; None is the null pointer *)
  mIMap : list (option nat);   (* originals by address, None for NULL *)
  mOMap : list nat;   (* working copies by address *)
  mNumAudioIn : nat;
  mNumAudioOut : nat;
  mPass : Z;
  mBufferSize : Z;   (* size_t *)
  mBlockSize : Z;   (* size_t *)
  mNumChannels : nat;
  mSampleRate : Z;
  mNumTracks : nat;
  mNumGroups : nat;
  mProgress : bool;   (* a progress dialog is installed *)
  nEffectsDone : nat;
  mClient : U;   (* the effect unit and the host *)
  mTrace : list Event;   (* the calls made so far *)
}.
Arguments mkEffect {U}.
Arguments mTracks {U}.
Arguments mOutputTracks {U}.
Arguments mIMap {U}.
Arguments mOMap {U}.
Arguments mNumAudioIn {U}.
Arguments mNumAudioOut {U}.
Arguments mPass {U}.
Arguments mBufferSize {U}.
Arguments mBlockSize {U}.
Arguments mNumChannels {U}.
Arguments mSampleRate {U}.
Arguments mNumTracks {U}.
Arguments mNumGroups {U}.
Arguments mProgress {U}.
Arguments nEffectsDone {U}.
Arguments mClient {U}.
Arguments mTrace {U}.

Definition set_mTracks {U} (v : list Track) (e : Effect U) : Effect U :=
  mkEffect v (mOutputTracks e) (mIMap e) (mOMap e) (mNumAudioIn e) (mNumAudioOut e) (mPass e) (mBufferSize e) (mBlockSize e) (mNumChannels e) (mSampleRate e) (mNumTracks e) (mNumGroups e) (mProgress e) (nEffectsDone e) (mClient e) (mTrace e).
Definition set_mOutputTracks {U} (v : option (list Track)) (e : Effect U) : Effect U :=
  mkEffect (mTracks e) v (mIMap e) (mOMap e) (mNumAudioIn e) (mNumAudioOut e) (mPass e) (mBufferSize e) (mBlockSize e) (mNumChannels e) (mSampleRate e) (mNumTracks e) (mNumGroups e) (mProgress e) (nEffectsDone e) (mClient e) (mTrace e).
Definition set_mIMap {U} (v : list (option nat)) (e : Effect U) : Effect U :=
  mkEffect (mTracks e) (mOutputTracks e) v (mOMap e) (mNumAudioIn e) (mNumAudioOut e) (mPass e) (mBufferSize e) (mBlockSize e) (mNumChannels e) (mSampleRate e) (mNumTracks e) (mNumGroups e) (mProgress e) (nEffectsDone e) (mClient e) (mTrace e).
Definition set_mOMap {U} (v : list nat) (e : Effect U) : Effect U :=
  mkEffect (mTracks e) (mOutputTracks e) (mIMap e) v (mNumAudioIn e) (mNumAudioOut e) (mPass e) (mBufferSize e) (mBlockSize e) (mNumChannels e) (mSampleRate e) (mNumTracks e) (mNumGroups e) (mProgress e) (nEffectsDone e) (mClient e) (mTrace e).
Definition set_mNumAudioIn {U} (v : nat) (e : Effect U) : Effect U :=
  mkEffect (mTracks e) (mOutputTracks e) (mIMap e) (mOMap e) v (mNumAudioOut e) (mPass e) (mBufferSize e) (mBlockSize e) (mNumChannels e) (mSampleRate e) (mNumTracks e) (mNumGroups e) (mProgress e) (nEffectsDone e) (mClient e) (mTrace e).
Definition set_mNumAudioOut {U} (v : nat) (e : Effect U) : Effect U :=
  mkEffect (mTracks e) (mOutputTracks e) (mIMap e) (mOMap e) (mNumAudioIn e) v (mPass e) (mBufferSize e) (mBlockSize e) (mNumChannels e) (mSampleRate e) (mNumTracks e) (mNumGroups e) (mProgress e) (nEffectsDone e) (mClient e) (mTrace e).
Definition set_mPass {U} (v : Z) (e : Effect U) : Effect U :=
  mkEffect (mTracks e) (mOutputTracks e) (mIMap e) (mOMap e) (mNumAudioIn e) (mNumAudioOut e) v (mBufferSize e) (mBlockSize e) (mNumChannels e) (mSampleRate e) (mNumTracks e) (mNumGroups e) (mProgress e) (nEffectsDone e) (mClient e) (mTrace e).
Definition set_mBufferSize {U} (v : Z) (e : Effect U) : Effect U :=
  mkEffect (mTracks e) (mOutputTracks e) (mIMap e) (mOMap e) (mNumAudioIn e) (mNumAudioOut e) (mPass e) v (mBlockSize e) (mNumChannels e) (mSampleRate e) (mNumTracks e) (mNumGroups e) (mProgress e) (nEffectsDone e) (mClient e) (mTrace e).
Definition set_mBlockSize {U} (v : Z) (e : Effect U) : Effect U :=
  mkEffect (mTracks e) (mOutputTracks e) (mIMap e) (mOMap e) (mNumAudioIn e) (mNumAudioOut e) (mPass e) (mBufferSize e) v (mNumChannels e) (mSampleRate e) (mNumTracks e) (mNumGroups e) (mProgress e) (nEffectsDone e) (mClient e) (mTrace e).
Definition set_mNumChannels {U} (v : nat) (e : Effect U) : Effect U :=
  mkEffect (mTracks e) (mOutputTracks e) (mIMap e) (mOMap e) (mNumAudioIn e) (mNumAudioOut e) (mPass e) (mBufferSize e) (mBlockSize e) v (mSampleRate e) (mNumTracks e) (mNumGroups e) (mProgress e) (nEffectsDone e) (mClient e) (mTrace e).
Definition set_mSampleRate {U} (v : Z) (e : Effect U) : Effect U :=
  mkEffect (mTracks e) (mOutputTracks e) (mIMap e) (mOMap e) (mNumAudioIn e) (mNumAudioOut e) (mPass e) (mBufferSize e) (mBlockSize e) (mNumChannels e) v (mNumTracks e) (mNumGroups e) (mProgress e) (nEffectsDone e) (mClient e) (mTrace e).
Definition set_mNumTracks {U} (v : nat) (e : Effect U) : Effect U :=
  mkEffect (mTracks e) (mOutputTracks e) (mIMap e) (mOMap e) (mNumAudioIn e) (mNumAudioOut e) (mPass e) (mBufferSize e) (mBlockSize e) (mNumChannels e) (mSampleRate e) v (mNumGroups e) (mProgress e) (nEffectsDone e) (mClient e) (mTrace e).
Definition set_mNumGroups {U} (v : nat) (e : Effect U) : Effect U :=
  mkEffect (mTracks e) (mOutputTracks e) (mIMap e) (mOMap e) (mNumAudioIn e) (mNumAudioOut e) (mPass e) (mBufferSize e) (mBlockSize e) (mNumChannels e) (mSampleRate e) (mNumTracks e) v (mProgress e) (nEffectsDone e) (mClient e) (mTrace e).
Definition set_mProgress {U} (v : bool) (e : Effect U) : Effect U :=
  mkEffect (mTracks e) (mOutputTracks e) (mIMap e) (mOMap e) (mNumAudioIn e) (mNumAudioOut e) (mPass e) (mBufferSize e) (mBlockSize e) (mNumChannels e) (mSampleRate e) (mNumTracks e) (mNumGroups e) v (nEffectsDone e) (mClient e) (mTrace e).
Definition set_nEffectsDone {U} (v : nat) (e : Effect U) : Effect U :=
  mkEffect (mTracks e) (mOutputTracks e) (mIMap e) (mOMap e) (mNumAudioIn e) (mNumAudioOut e) (mPass e) (mBufferSize e) (mBlockSize e) (mNumChannels e) (mSampleRate e) (mNumTracks e) (mNumGroups e) (mProgress e) v (mClient e) (mTrace e).
Definition set_mClient {U} (v : U) (e : Effect U) : Effect U :=
  mkEffect (mTracks e) (mOutputTracks e) (mIMap e) (mOMap e) (mNumAudioIn e) (mNumAudioOut e) (mPass e) (mBufferSize e) (mBlockSize e) (mNumChannels e) (mSampleRate e) (mNumTracks e) (mNumGroups e) (mProgress e) (nEffectsDone e) v (mTrace e).
Definition set_mTrace {U} (v : list Event) (e : Effect U) : Effect U :=
  mkEffect (mTracks e) (mOutputTracks e) (mIMap e) (mOMap e) (mNumAudioIn e) (mNumAudioOut e) (mPass e) (mBufferSize e) (mBlockSize e) (mNumChannels e) (mSampleRate e) (mNumTracks e) (mNumGroups e) (mProgress e) (nEffectsDone e) (mClient e) v.

Definition log_event {U} (ev : Event) (e : Effect U) : Effect U :=
  set_mTrace (mTrace e ++ [ev]) e.

(** Arithmetic on [size_t]. *)
Definition size_t (z : Z) : Z := z mod 2 ^ 64.

(** ** Track lists *)

(** Modelled from the spec: [TrackList::Remove], [TrackList::Add] and
    [TrackList::Replace] of Track.cpp, on the node of the track at the
    address given: removal, appending at the end, and replacement in place. *)
Fixpoint TrackList_Remove (a : nat) (l : list Track) : list Track :=
  match l with
  | [] => []
  | t :: l' => if decide (tid t = a) then l' else t :: TrackList_Remove a l'
  end.

Definition TrackList_Add (t : Track) (l : list Track) : list Track := l ++ [t].

Fixpoint TrackList_Replace (a : nat) (o : Track) (l : list Track) : list Track :=
  match l with
  | [] => []
  | t :: l' => if decide (tid t = a) then o :: l' else t :: TrackList_Replace a o l'
  end.

(** Modelled from the spec: [TrackList::Leaders].  A track leads its
    channel group unless it is the second channel of a linked pair. *)
Definition is_leader (l : list Track) (i : nat) : bool :=
  match i with
  | 0 => true
  | S j => match l !! j with
           | Some p => negb (GetLinked p)
           | None => true
           end
  end.

Definition Leaders (l : list Track) : list nat :=
  filter (λ i, is_leader l i = true) (seq 0 (length l)).

Definition Any (l : list Track) : list nat := seq 0 (length l).

(** Modelled from the spec: [Track::Duplicate], a copy at a new address. *)
Definition Duplicate (addr : nat) (t : Track) : Track :=
  mkTrack addr (GetKind t) (GetSelected t) (IsSyncLockSelected t)
          (GetLinked t) (GetChannel t) (GetRate t) (GetMaxBlockSize t) (samples t).

(** An address no track of the list has. *)
Definition fresh_address (l : list Track) : nat := S (max_list (tid <$> l)).

Section Engine.
Context {U : Type} `{EffectClient U}.

(** The constants of a run of the loop: lines 1489-1509. *)
Definition track_ctx (e : Effect U) (u : U) (count : nat) (leftT : Track)
    (leftStart len : nat) : Ctx :=
  let isGen := bool_decide (GetType u = EffectTypeGenerate) in
  mkCtx (Z.to_nat (mBlockSize e)) (Z.to_nat (mBufferSize e)) (mNumChannels e)
        (Nat.min (mNumAudioOut e) (mNumChannels e))
        isGen (bool_decide (GetType u = EffectTypeProcess)) count leftStart len
        (if isGen then GeneratorLength leftT else 0)
        (mProgress e) (mNumTracks e) (mNumGroups e).

(** The state in which the loop is entered: lines 1476-1516. *)
Definition initial_run (c : Ctx) (u : U) (t : list Event) (leftT : Track)
    (rightT : option Track) (rightStart : nat) (b : Buffers) : Run U :=
  mkRun (mkLocals (leftStart c) rightStart (leftStart c) rightStart (len c) 0
                  (if isGenerator c then genLength c else 0) 0 0 0 (isGenerator c))
        b
        (mkSinks leftT rightT []
                 (if isGenerator c then (λ _, []) <$> rightT else None))
        u t.

(** [Effect::ProcessTrack]: lines 1433-1812. *)
Definition ProcessTrack (fuel : nat) (e : Effect U) (count : nat)
    (map : list ChannelName) (leftT : Track) (rightT : option Track)
    (leftStart rightStart len : nat) (b : Buffers) : option (Run U * Outcome bool) :=
  let '(ok, u) := ProcessInitialize len map (mClient e) in
  let c := track_ctx e u count leftT leftStart len in
  let r0 := initial_run c u (mTrace e) leftT rightT rightStart b in
  if ok then
    match block_loop c fuel r0 with
    | Some st => Some (finish c st)
    | None => None
    end
  else Some (r0, Returns false).

(** The state of the visit of [ProcessPass]: the effect object and the
    locals [inBuffer], [outBuffer], [inBufPos], [outBufPos], [clear] and
    [count]. *)
Record PassState := mkPass {
  pEffect : Effect U;
  pBuffers : Buffers;
  pClear : bool;
  pCount : nat;
}.

Definition channel_name (t : Track) : ChannelName :=
  match GetChannel t with
  | LeftChannel => ChannelNameFrontLeft
  | RightChannel => ChannelNameFrontRight
  | MonoChannel => ChannelNameMono
  end.

(** [inBuffer.reinit(mNumAudioIn, mBufferSize)] and the clearing of the
    arrays past the first two: lines 1368-1378. *)
Definition new_inBuffer (numIn size : nat) : FloatBuffers :=
  (λ i, if decide (2 ≤ i) then replicate size 0%Z
        else (λ j, uninitialised i j) <$> seq 0 size) <$> seq 0 numIn.

(** [outBuffer.reinit(mNumAudioOut, mBufferSize + mBlockSize)]: line 1385. *)
Definition new_outBuffer (numIn numOut size : nat) : FloatBuffers :=
  (λ i, (λ j, uninitialised (numIn + i) j) <$> seq 0 size) <$> seq 0 numOut.

(** The Buffer Manager, lines 1351-1408: the block size is agreed with the
    effect, the buffer size computed, the buffers reallocated when it has
    changed, the positions reset and the unused second input cleared.
    ([x / 0] is undefined in the source and [0] here.) *)
Definition buffer_manager (leftT : Track) (hasRight : bool) (st : PassState) : PassState :=
  let e := pEffect st in
  let clear := pClear st in
  let u1 := SetSampleRate (GetRate leftT) (mClient e) in
  let max := size_t (GetMaxBlockSize leftT * 2) in
  let '(bs, u2) := SetBlockSize max u1 in
  let prevBufferSize := mBufferSize e in
  let bsz := size_t (size_t (size_t (max + size_t (bs - 1)) / bs) * bs) in
  let e1 := set_mBufferSize bsz (set_mBlockSize bs
              (set_mSampleRate (GetRate leftT) (set_mClient u2 e))) in
  let b := pBuffers st in
  let numIn := mNumAudioIn e in
  let numOut := mNumAudioOut e in
  let realloc := bool_decide (prevBufferSize ≠ bsz) in
  let b1 := if realloc
            then mkBuffers (new_inBuffer numIn (Z.to_nat bsz))
                           (new_outBuffer numIn numOut (Z.to_nat (size_t (bsz + bs))))
                           (replicate numIn 0) (replicate numOut 0)
            else b in
  let e2 := if realloc then log_event (EvReinit numIn numOut bsz (size_t (bsz + bs))) e1
            else e1 in
  let b2 := mkBuffers (inBuffer b1) (outBuffer b1)
                      (for_below numIn (λ _ _, 0) (inBufPos b1))
                      (for_below numOut (λ _ _, 0) (outBufPos b1)) in
  let unused := negb hasRight && negb clear && bool_decide (1 < numIn) in
  let b3 := if unused
            then mkBuffers (alter (zero_fill 0 (Z.to_nat bsz)) 1 (inBuffer b2))
                           (outBuffer b2) (inBufPos b2) (outBufPos b2)
            else b2 in
  mkPass e2 b3 (if unused then true else clear) (pCount st).

(** The body of the visit for a selected wave track [leftT] at index [i]
    of the working list: lines 1302-1417. *)
Definition process_group (fuel : nat) (multichannel isGen : bool) (i : nat)
    (leftT : Track) (st : PassState) : option (PassState * Outcome bool) :=
  let e := pEffect st in
  let tracks := default [] (mOutputTracks e) in
  let '(leftStart, len) := if isGen then (0, 0) else GetSamples leftT in
  (* the channels of the group, starting with leftT *)
  let rightT := if multichannel && GetLinked leftT then tracks !! (S i) else None in
  let map := match rightT with
             | Some rt => [channel_name leftT; channel_name rt; ChannelNameEOL]
             | None => [channel_name leftT; ChannelNameEOL]
             end in
  let numChan := match rightT with Some _ => 2 | None => 1 end in
  let clear := match rightT with Some _ => false | None => pClear st end in
  let '(rightStart, len) := match rightT with
                            | Some rt => if isGen then (0, len) else GetSamples rt
                            | None => (0, len)
                            end in
  let st1 := buffer_manager leftT (bool_decide (is_Some rightT))
               (mkPass (set_mNumChannels numChan e) (pBuffers st) clear (pCount st)) in
  let e3 := log_event (EvProcessTrack (pCount st) (tid leftT) (tid <$> rightT))
              (pEffect st1) in
  match ProcessTrack fuel e3 (pCount st) map leftT rightT leftStart rightStart len
          (pBuffers st1) with
  | None => None
  | Some (r, res) =>
      let tracks1 := <[i := leftTrack (io r)]> tracks in
      let tracks2 := match rightTrack (io r) with
                     | Some rt => <[S i := rt]> tracks1
                     | None => tracks1
                     end in
      let e4 := set_mOutputTracks (Some tracks2)
                  (set_mTrace (trace r) (set_mClient (client r) e3)) in
      Some (mkPass e4 (buf r) (pClear st1)
                   (if returned_true res then S (pCount st) else pCount st),
            res)
  end.

(** The second visitor of [ProcessPass]: lines 1419-1422. *)
Definition sync_lock_adjust (i : nat) (t : Track) (st : PassState) : PassState :=
  if IsSyncLockSelected t then
    let e := pEffect st in
    mkPass (set_mOutputTracks
              (Some (<[i := with_samples (SyncLockAdjust t) t]>
                       (default [] (mOutputTracks e)))) e)
           (pBuffers st) (pClear st) (pCount st)
  else st.

(** The visit of the track at index [i]: a wave track goes to the first
    visitor, which falls through to the second when the track is not
    selected; any other track goes to the second. *)
Definition visit (fuel : nat) (multichannel isGen : bool) (i : nat) (st : PassState)
  : option (PassState * Outcome bool) :=
  match default [] (mOutputTracks (pEffect st)) !! i with
  | Some t =>
      if bool_decide (GetKind t = WaveTrackKind) && GetSelected t
      then process_group fuel multichannel isGen i t st
      else Some (sync_lock_adjust i t st, Returns true)
  | None => Some (st, Returns true)
  end.

(** [range.VisitWhile(bGoodResult, ...)]: the visit stops at the first
    group that fails. *)
Fixpoint VisitWhile (fuel : nat) (multichannel isGen : bool) (range : list nat)
    (st : PassState) : option (PassState * Outcome bool) :=
  match range with
  | [] => Some (st, Returns true)
  | i :: rest =>
      match visit fuel multichannel isGen i st with
      | Some (st', Returns true) => VisitWhile fuel multichannel isGen rest st'
      | other => other
      end
  end.

(** The visit of [ProcessPass], lines 1279-1423, with the locals as the
    visit leaves them. *)
Definition ProcessPass_visit (fuel : nat) (e : Effect U)
  : option (PassState * Outcome bool) :=
  let e0 := log_event (EvProcessPass (mPass e)) e in
  let isGen := bool_decide (GetType (mClient e0) = EffectTypeGenerate) in
  let e1 := set_mBlockSize 0%Z (set_mBufferSize 0%Z e0) in
  let multichannel := bool_decide (1 < mNumAudioIn e1) in
  let tracks := default [] (mOutputTracks e1) in
  let range := if multichannel then Leaders tracks else Any tracks in
  VisitWhile fuel multichannel isGen range (mkPass e1 (mkBuffers [] [] [] []) false 0).

(** [Effect::ProcessPass]: lines 1277-1431. *)
Definition ProcessPass (fuel : nat) (e : Effect U) : option (Effect U * Outcome bool) :=
  match ProcessPass_visit fuel e with
  | Some (st, res) => Some (pEffect st, res)
  | None => None
  end.

(** [Effect::CopyInputTracks]: lines 1984-2007. *)
Definition CopyInputTracks (allSyncLockSelected : bool) (e : Effect U) : Effect U :=
  let eligible :=
    filter (λ t, (if allSyncLockSelected
                  then GetSelected t || IsSyncLockSelected t
                  else bool_decide (GetKind t = WaveTrackKind) && GetSelected t) = true)
           (mTracks e) in
  let copies := imap (λ k t, Duplicate (fresh_address (mTracks e) + k) t) eligible in
  set_mOMap (tid <$> copies)
    (set_mIMap ((λ t, Some (tid t)) <$> eligible)
       (set_mOutputTracks (Some copies) e)).

(** [Effect::AddToOutputTracks]: lines 2009-2014. *)
Definition AddToOutputTracks (t : Track) (e : Effect U) : Effect U :=
  set_mOutputTracks (Some (TrackList_Add t (default [] (mOutputTracks e))))
    (set_mOMap (mOMap e ++ [tid t]) (set_mIMap (mIMap e ++ [None]) e)).

(** [if (t) mTracks->Remove(t)] for the original [t] of a map entry. *)
Definition remove_original (t : option nat) (tracks : list Track) : list Track :=
  match t with
  | Some a => TrackList_Remove a tracks
  | None => tracks
  end.

(** [while (i < cnt && mOMap[i] != o.get())]: lines 2134-2140.  The lists
    [im] and [om] are the entries of [mIMap] and [mOMap] from index [i] on. *)
Fixpoint skip_removed (o : nat) (im : list (option nat)) (om : list nat)
    (tracks : list Track) : list (option nat) * list nat * list Track :=
  match im, om with
  | t :: im', o' :: om' =>
      if decide (o' = o) then (im, om, tracks)
      else skip_removed o im' om' (remove_original t tracks)
  | _, _ => (im, om, tracks)
  end.

(** The loop over the working list (lines 2130-2166) followed by the
    removal of the originals left in the map (lines 2170-2176).  [None]
    stands for the read of [mIMap[i]] with [i] past the end, after the
    assertion "This should never happen" has failed. *)
Fixpoint replace_loop (outs : list Track) (im : list (option nat)) (om : list nat)
    (tracks : list Track) : option (list Track) :=
  match outs with
  | [] => Some (foldl (λ l t, remove_original t l) tracks im)
  | o :: outs' =>
      match skip_removed (tid o) im om tracks with
      | (t :: im', _ :: om', tracks') =>
          replace_loop outs' im' om'
            (match t with
             | None => TrackList_Add o tracks'
             | Some a => TrackList_Replace a o tracks'
             end)
      | _ => None
      end
  end.

(** [Effect::ReplaceProcessedTracks]: lines 2104-2188. *)
Definition ReplaceProcessedTracks (bGoodResult : bool) (e : Effect U)
  : option (Effect U) :=
  if negb bGoodResult then
    Some (set_mOMap [] (set_mIMap []
            (set_mOutputTracks ((λ _, []) <$> mOutputTracks e) e)))
  else
    match replace_loop (default [] (mOutputTracks e)) (mIMap e) (mOMap e) (mTracks e) with
    | Some tracks =>
        Some (set_nEffectsDone (S (nEffectsDone e))
                (set_mOutputTracks None
                   (set_mOMap [] (set_mIMap [] (set_mTracks tracks e)))))
    | None => None
    end.

(** The head of [Effect::Process], up to the call of [InitPass1]:
    lines 1253-1261. *)
Definition Process_prepare (e : Effect U) : Effect U :=
  let e := CopyInputTracks true e in
  set_mPass 1%Z
    (set_mNumAudioOut (GetAudioOutCount (mClient e))
       (set_mNumAudioIn (GetAudioInCount (mClient e)) e)).

(** [ReplaceProcessedTracks(bGoodResult); return bGoodResult;] *)
Definition Process_commit (bGoodResult : bool) (e : Effect U)
  : option (Effect U * Outcome bool) :=
  match ReplaceProcessedTracks bGoodResult e with
  | Some e' => Some (e', Returns bGoodResult)
  | None => None
  end.

(** [Effect::Process]: lines 1251-1275.  An exception that leaves
    [ProcessPass] leaves [Process] before [ReplaceProcessedTracks]. *)
Definition Process (fuel : nat) (e : Effect U) : option (Effect U * Outcome bool) :=
  let e := Process_prepare e in
  let '(ok1, u1) := InitPass1 (mClient e) in
  let e := set_mClient u1 e in
  if ok1 then
    match ProcessPass fuel e with
    | None => None
    | Some (e, Propagates) => Some (e, Propagates)
    | Some (e, Returns good1) =>
        let e := set_mPass 2%Z e in
        if good1 then
          let '(ok2, u2) := InitPass2 (mClient e) in
          let e := set_mClient u2 e in
          if ok2 then
            match ProcessPass fuel e with
            | None => None
            | Some (e, Propagates) => Some (e, Propagates)
            | Some (e, Returns good2) => Process_commit good2 e
            end
          else Process_commit true e
        else Process_commit false e
    end
  else Process_commit true e.

(** [Effect::CountWaveTracks]: lines 2195-2199. *)
Definition CountWaveTracks (e : Effect U) : Effect U :=
  let l := mTracks e in
  let wanted (t : Track) := bool_decide (GetKind t = WaveTrackKind) && GetSelected t in
  set_mNumGroups
    (length (filter (λ i, is_leader l i && from_option wanted false (l !! i) = true)
                    (seq 0 (length l))))
    (set_mNumTracks (length (filter (λ t, wanted t = true) l)) e).

(** The head of [Effect::DoEffect], lines 1107-1147 and 1178: the working
    list is reset, the tracks are counted, and a generator that finds no
    selected track adds one.  The result holds the track that was added. *)
Definition DoEffect_enter (e : Effect U) : Effect U * option Track :=
  let e := CountWaveTracks (set_mOutputTracks None e) in
  let needsTrack := (bool_decide (GetType (mClient e) = EffectTypeGenerate)
                     || IsNyquistPrompt (mClient e))
                    && bool_decide (mNumTracks e = 0) in
  if needsTrack then
    let t := Track_selected (Duplicate (fresh_address (mTracks e)) NewWaveTrack) in
    (CountWaveTracks (set_mTracks (TrackList_Add t (mTracks e)) e), Some t)
  else (CountWaveTracks e, None).

(** The scope-exit [cleanup] of [DoEffect]: lines 1129-1140. *)
Definition DoEffect_cleanup (newTrack : option Track) (success : bool) (e : Effect U)
  : option (Effect U) :=
  let e := if success then e
           else match newTrack with
                | Some t => set_mTracks (TrackList_Remove (tid t) (mTracks e)) e
                | None => e
                end in
  ReplaceProcessedTracks false (set_mClient (EffectEnd (mClient e)) e).

(** Leaving [DoEffect] with the outcome [res]: [success] holds when
    [returnVal] was assigned true, and the cleanup runs. *)
Definition DoEffect_leave (newTrack : option Track) (res : Outcome bool) (e : Effect U)
  : option (Effect U * Outcome bool) :=
  match DoEffect_cleanup newTrack (returned_true res) e with
  | Some e' => Some (e', res)
  | None => None
  end.

(** [Effect::DoEffect]: lines 1098-1218, without the selection times and
    the duration. *)
Definition DoEffect (fuel : nat) (e : Effect U) : option (Effect U * Outcome bool) :=
  let '(e, newTrack) := DoEffect_enter e in
  let '(okInit, u) := Init (mClient e) in
  let e := set_mClient u e in
  if okInit then
    let '(okShow, u) := ShowInterface (mClient e) in
    let e := set_mClient u e in
    if okShow then
      if CheckWhetherSkipEffect (mClient e) then DoEffect_leave newTrack (Returns true) e
      else
        let saved := mProgress e in
        match Process fuel (set_mProgress true e) with
        | Some (e', res) => DoEffect_leave newTrack res (set_mProgress saved e')
        | None => None
        end
    else DoEffect_leave newTrack (Returns false) e
  else DoEffect_leave newTrack (Returns false) e.

End Engine.

(** ** A synthetic Effect Unit: the delay line *)

(** The parameters of the synthetic unit of the spec's testable properties:
    a unit with [dcChannels] inputs and outputs that applies [dcGain] to
    every sample and delays its output by [dcLatency] samples. *)
Record DelayConfig := mkDelayConfig {
  dcType : EffectType;
  dcChannels : nat;
  dcLatency : nat;
  dcEveryCall : bool;        (* GetLatency reports the latency on every call,
                                or only on the first call after ProcessInitialize *)
  dcBlock : Z → Z;           (* the block size the unit prefers at a sample rate *)
  dcGain : sample → sample;
  dcSelection : Track → nat * nat;
  dcCancelAt : option nat;   (* the progress update that answers Cancelled *)
  dcThrowAt : option (nat * bool);   (* the ProcessBlock call that throws, and
                                        whether it throws an AudacityException *)
  dcMiscount : bool;         (* ProcessBlock returns blockLen + 1 *)
  dcInitPass1 : bool;
  dcInitPass2 : bool;
  dcMemory : nat → nat → sample;
}.

Record DelayState := mkDelayState {
  dsQueue : list (list sample);   (* per channel, the samples not yet given out *)
  dsReported : bool;
  dsUpdates : nat;                (* progress updates so far *)
  dsBlocks : nat;                 (* ProcessBlock calls so far *)
  dsRate : Z;                     (* the rate given by SetSampleRate *)
}.

(** One channel of the delay line: the gained input enters the queue and
    [n] samples leave it. *)
Definition delay_channel (g : sample → sample) (n : nat) (q x : list sample)
  : list sample := q ++ (g <$> resize n 0%Z x).

Definition delay_ProcessBlock (cfg : DelayConfig) (ins : list (list sample)) (n : nat)
    (u : DelayState) : BlockResult DelayState :=
  let u' := mkDelayState
              (imap (λ i q, drop n (delay_channel (dcGain cfg) n q (chan_of ins i))) (dsQueue u))
              (dsReported u) (dsUpdates u) (S (dsBlocks u)) (dsRate u) in
  match dcThrowAt cfg with
  | Some (k, fatal) =>
      if decide (dsBlocks u = k) then
        if fatal then ThrowsAudacityException u' else ThrowsOther u'
      else
        Processed (if dcMiscount cfg then S n else n)
          (imap (λ i q, take n (delay_channel (dcGain cfg) n q (chan_of ins i))) (dsQueue u))
          u'
  | None =>
      Processed (if dcMiscount cfg then S n else n)
        (imap (λ i q, take n (delay_channel (dcGain cfg) n q (chan_of ins i))) (dsQueue u))
        u'
  end.

Definition delay_client (cfg : DelayConfig) : EffectClient DelayState := {|
  GetType := λ _, dcType cfg;
  GetAudioInCount := λ _, dcChannels cfg;
  GetAudioOutCount := λ _, dcChannels cfg;
  SetSampleRate := λ rate u,
    mkDelayState (dsQueue u) (dsReported u) (dsUpdates u) (dsBlocks u) rate;
  SetBlockSize := λ max u, (Z.min max (dcBlock cfg (dsRate u)), u);
  GetLatency := λ u,
    if dcEveryCall cfg then (dcLatency cfg, u)
    else if dsReported u then (0, u)
    else (dcLatency cfg,
          mkDelayState (dsQueue u) true (dsUpdates u) (dsBlocks u) (dsRate u));
  ProcessInitialize := λ _ _ u,
    (true, mkDelayState (replicate (dcChannels cfg) (replicate (dcLatency cfg) 0%Z))
                        false (dsUpdates u) (dsBlocks u) (dsRate u));
  ProcessFinalize := λ u, (true, u);
  ProcessBlock := delay_ProcessBlock cfg;
  Init := λ u, (true, u);
  InitPass1 := λ u, (dcInitPass1 cfg, u);
  InitPass2 := λ u, (dcInitPass2 cfg, u);
  ShowInterface := λ u, (true, u);
  IsNyquistPrompt := λ _, false;
  EffectEnd := λ u, u;
  NewWaveTrack := mkTrack 0 WaveTrackKind false false false MonoChannel 44100 8 [];
  CheckWhetherSkipEffect := λ _, false;
  ProgressUpdate := λ _ _ _ _ u,
    (if decide (dcCancelAt cfg = Some (dsUpdates u)) then Cancelled else Success,
     mkDelayState (dsQueue u) (dsReported u) (S (dsUpdates u)) (dsBlocks u) (dsRate u));
  GetSamples := dcSelection cfg;
  GeneratorLength := λ _, 0;
  SyncLockAdjust := λ t, samples t;
  ClearAndPaste := λ t g, g;
  uninitialised := dcMemory cfg;
|}.


(** ** Reading the trace *)

(** The values of [GetPass()] at the calls of [ProcessPass]. *)
Definition passes_of (t : list Event) : list Z :=
  omap (λ ev, match ev with EvProcessPass p => Some p | _ => None end) t.

(** The calls of [ProcessTrack]: the group index and the addresses of the
    left and right tracks. *)
Definition track_calls_of (t : list Event) : list (nat * nat * option nat) :=
  omap (λ ev, match ev with EvProcessTrack k l r => Some (k, l, r) | _ => None end) t.

(** The (re)allocations of the buffer set: the sizes of the input and of
    the output arrays. *)
Definition reinits_of (t : list Event) : list (Z * Z) :=
  omap (λ ev, match ev with EvReinit _ _ i o => Some (i, o) | _ => None end) t.

(** The calls of [ProcessBlock]. *)
Definition block_calls_of (t : list Event) : list (list (list sample) * nat) :=
  omap (λ ev, match ev with EvProcessBlock ins n => Some (ins, n) | _ => None end) t.

(** The failed assertions. *)
Definition assertions_of (t : list Event) : nat :=
  length (filter (λ ev, ev = EvAssertFailed) t).

(** An event of the block loop. *)
Definition block_event (ev : Event) : Prop :=
  match ev with
  | EvProcessBlock _ _ | EvAssertFailed => True
  | _ => False
  end.

(** An event of a pass below the call of [ProcessPass] itself. *)
Definition group_event (ev : Event) : Prop :=
  match ev with
  | EvProcessPass _ => False
  | _ => True
  end.

(** The state a step ends in. *)
Definition step_run {U} (s : Step (U := U)) : Run U :=
  match s with
  | Continue r | Break r | ReturnFalse r | Rethrow r => r
  end.

(** ** What a pass leaves alone *)

(** The addresses of the tracks a run of the loop works on. *)
Definition sinks_tids (s : Sinks) : nat * option nat :=
  (tid (leftTrack s), tid <$> rightTrack s).

(** [project_frame e e']: from [e] to [e'] the project's track list, the
    maps, the channel counts, the pass number and the progress settings are
    unchanged, the working list holds the same tracks in the same order
    (their contents may differ), and the trace has grown by events that are
    not calls of [ProcessPass]. *)
Definition project_frame {U} (e e' : Effect U) : Prop :=
  mTracks e' = mTracks e ∧ mIMap e' = mIMap e ∧ mOMap e' = mOMap e ∧
  mNumAudioIn e' = mNumAudioIn e ∧ mNumAudioOut e' = mNumAudioOut e ∧
  mPass e' = mPass e ∧ mNumTracks e' = mNumTracks e ∧ mNumGroups e' = mNumGroups e ∧
  mProgress e' = mProgress e ∧ nEffectsDone e' = nEffectsDone e ∧
  is_Some (mOutputTracks e') ∧
  tid <$> default [] (mOutputTracks e') = tid <$> default [] (mOutputTracks e) ∧
  ∃ evs, mTrace e' = mTrace e ++ evs ∧ Forall group_event evs.

(** ** The commit, as the spec words it *)








(** ** Scenarios for the synthetic unit *)

Definition whole_track (t : Track) : nat * nat := (0, length (samples t)).

(** A mono wave track at address [a] holding the samples [1 .. n], with a
    native block size of 4 samples. *)
Definition ramp_track (a n : nat) (selected : bool) : Track :=
  mkTrack a WaveTrackKind selected false false MonoChannel 44100 4 (Z.of_nat <$> seq 1 n).

(** The effect object before [DoEffect], for a project with the tracks [l]. *)
Definition fresh_effect (l : list Track) : Effect DelayState :=
  mkEffect l None [] [] 0 0 0 0 0 0 0 0 0 false 0 (mkDelayState [] false 0 0 0) [].

(** A processor with one input and one output that adds 100 to every
    sample, prefers blocks of 4 samples and delays its output by [L]
    samples; [GetLatency] reports [L] once, or on every call. *)
Definition plain_delay (L : nat) (everyCall : bool) : DelayConfig :=
  mkDelayConfig EffectTypeProcess 1 L everyCall (λ _, 4%Z) (λ x, (x + 100)%Z) whole_track
    None None false true false (λ _ _, (-7)%Z).

(** The same unit when the user cancels at the progress update [k]. *)
Definition cancelled_delay (L k : nat) : DelayConfig :=
  mkDelayConfig EffectTypeProcess 1 L false (λ _, 4%Z) (λ x, (x + 100)%Z) whole_track
    (Some k) None false true false (λ _ _, (-7)%Z).

(** The same unit when its call [k] of [ProcessBlock] throws. *)
Definition throwing_delay (L k : nat) (fatal : bool) : DelayConfig :=
  mkDelayConfig EffectTypeProcess 1 L false (λ _, 4%Z) (λ x, (x + 100)%Z) whole_track
    None (Some (k, fatal)) false true false (λ _ _, (-7)%Z).

(** The same unit with the answers [p1] and [p2] of [InitPass1] and
    [InitPass2]. *)
Definition two_pass_delay (p1 p2 : bool) : DelayConfig :=
  mkDelayConfig EffectTypeProcess 1 0 false (λ _, 4%Z) (λ x, (x + 100)%Z) whole_track
    None None false p1 p2 (λ _ _, (-7)%Z).



(** The projects of the scenarios. *)
Definition cancelled_project : Effect DelayState :=
  fresh_effect [ramp_track 1 10 true; ramp_track 2 6 false].

Definition two_pass_project : Effect DelayState := fresh_effect [ramp_track 1 10 true].

Definition exception_project : Effect DelayState :=
  fresh_effect [ramp_track 1 10 true; ramp_track 2 6 false].


(** ** Effects that return wrong counts, and states of the loop *)

(** The effect [H] with [g] applied to the count [ProcessBlock] returns. *)
Definition miscounting {U : Type} (g : nat → nat) (H : EffectClient U) : EffectClient U := {|
  GetType := GetType;
  GetAudioInCount := GetAudioInCount;
  GetAudioOutCount := GetAudioOutCount;
  SetSampleRate := SetSampleRate;
  SetBlockSize := SetBlockSize;
  GetLatency := GetLatency;
  ProcessInitialize := ProcessInitialize;
  ProcessFinalize := ProcessFinalize;
  ProcessBlock := λ ins n u,
    match ProcessBlock ins n u with
    | Processed p outs u' => Processed (g p) outs u'
    | other => other
    end;
  Init := Init;
  InitPass1 := InitPass1;
  InitPass2 := InitPass2;
  ShowInterface := ShowInterface;
  IsNyquistPrompt := IsNyquistPrompt;
  EffectEnd := EffectEnd;
  NewWaveTrack := NewWaveTrack;
  CheckWhetherSkipEffect := CheckWhetherSkipEffect;
  ProgressUpdate := ProgressUpdate;
  GetSamples := GetSamples;
  GeneratorLength := GeneratorLength;
  SyncLockAdjust := SyncLockAdjust;
  ClearAndPaste := ClearAndPaste;
  uninitialised := uninitialised;
|}.

(** The trace without the reports of failed assertions. *)
Definition without_assertions (t : list Event) : list Event :=
  filter (λ ev, ev ≠ EvAssertFailed) t.

(** Two states of the loop that differ at most in the reports of failed
    assertions. *)
Definition same_run {U : Type} (r r' : Run U) : Prop :=
  loc r = loc r' ∧ buf r = buf r' ∧ io r = io r' ∧ client r = client r' ∧
  without_assertions (trace r) = without_assertions (trace r').

Definition same_step {U : Type} (s s' : Step (U := U)) : Prop :=
  match s, s' with
  | Continue r, Continue r' | Break r, Break r'
  | ReturnFalse r, ReturnFalse r' | Rethrow r, Rethrow r' => same_run r r'
  | _, _ => False
  end.

(** The state [r] with the trace [t]. *)
Definition retrace {U : Type} (t : list Event) (r : Run U) : Run U :=
  mkRun (loc r) (buf r) (io r) (client r) t.


(** A state of the loop of a mono processor with blocks of 4 samples: a
    block of 4 samples has just been processed, with the output
    [10, 20, 30, 40] at the output position. *)
Definition shift_ctx : Ctx := mkCtx 4 8 1 1 false true 0 0 10 0 false 0 0.

Definition shift_run : Run DelayState :=
  mkRun (mkLocals 4 4 0 0 6 0 0 4 4 0 false)
        (mkBuffers [[1; 2; 3; 4; 5; 6; 7; 8]%Z]
                   [[10; 20; 30; 40; 0; 0; 0; 0; 0; 0; 0; 0]%Z] [4] [0])
        (mkSinks (ramp_track 1 10 true) None [] None)
        (mkDelayState [[]] false 0 1 44100) [].

(** A state of the same loop at the head of an iteration, with 2 input
    samples left in the buffer and 3 delay samples owed. *)
Definition partial_run : Run DelayState :=
  mkRun (mkLocals 8 8 0 0 2 0 3 4 2 7 false)
        (mkBuffers [[1; 2; 3; 4; 5; 6; 7; 8]%Z]
                   [[10; 20; 30; 40; 50; 60; 70; 0; 0; 0; 0; 0]%Z] [4] [7])
        (mkSinks (ramp_track 1 10 true) None [] None)
        (mkDelayState [[9]%Z] true 0 2 44100) [].


(** ** Scenarios for the Buffer Manager *)

(** The ceiling of [a / b], and the buffer size in the words of the spec:
    [ceil(requested / effectBlockSize) * effectBlockSize]. *)
Definition ceil_div (a b : Z) : Z := (- ((- a) / b))%Z.

Definition spec_bufferSize (requested effectBlockSize : Z) : Z :=
  (ceil_div requested effectBlockSize * effectBlockSize)%Z.








(** ** The invariants of the block loop *)

(** Block [k] of a stream cut into blocks of [B] samples, and followed
    by silence. *)
Definition block_of (B k : nat) (x : list sample) : list sample :=
  resize B 0%Z (drop (k * B) x).

(** The track behind channel [i] of a group. *)
Definition track_of (s : Sinks) (i : nat) : option Track :=
  match i with
  | 0 => Some (leftTrack s)
  | 1 => rightTrack s
  | _ => None
  end.

(** Where channel [i] of a group starts: [leftStart] or [rightStart]. *)
Definition start_of (c : Ctx) (rightStart i : nat) : nat :=
  match i with 0 => leftStart c | _ => rightStart end.

(** Two states of the loop with the same input side. *)
Definition same_input {U : Type} (r r' : Run U) : Prop :=
  inBuffer (buf r') = inBuffer (buf r) ∧ inBufPos (buf r') = inBufPos (buf r) ∧
  inLeftPos (loc r') = inLeftPos (loc r) ∧ inRightPos (loc r') = inRightPos (loc r) ∧
  inputRemaining (loc r') = inputRemaining (loc r) ∧
  inputBufferCnt (loc r') = inputBufferCnt (loc r) ∧
  cleared (loc r') = cleared (loc r).

(** Two states of the loop with the same output positions and tracks. *)
Definition same_output {U : Type} (r r' : Run U) : Prop :=
  outLeftPos (loc r') = outLeftPos (loc r) ∧ outRightPos (loc r') = outRightPos (loc r) ∧
  outputBufferCnt (loc r') = outputBufferCnt (loc r) ∧ io r' = io r.

Section LoopInvariants.
Context {U : Type}.
Variable c : Ctx.
(** The tracks of the group as [ProcessTrack] receives them, and
    [rightStart]. *)
Variable s0 : Sinks.
Variable rightStart : nat.

(** The stream of channel [i]: the selection of its track. *)
Definition stream (i : nat) (t : Track) : list sample :=
  Track_Get t (start_of c rightStart i) (len c).

(** The output side after [p] samples were processed and [q] written to
    the tracks: what is written and what waits in the output buffers is
    behind what was processed, and the tracks are as they were from
    there on. *)
Record out_inv (p q : nat) (r : Run U) : Prop := {
  oi_left : outLeftPos (loc r) = leftStart c + q;
  oi_right : outRightPos (loc r) = rightStart + q;
  oi_behind : q + outputBufferCnt (loc r) ≤ p;
  oi_tails : ∀ i t0, track_of s0 i = Some t0 →
    ∃ t, track_of (io r) i = Some t ∧
         drop (start_of c rightStart i + q) (samples t)
         = drop (start_of c rightStart i + q) (samples t0);
}.

(** The input buffers hold, from the common position on, the next
    [inputBufferCnt] samples of every channel. *)
Definition filled (p : nat) (r : Run U) : Prop :=
  ∃ P, (∀ i, i < numChannels c → pos_of (inBufPos (buf r)) i = P) ∧
       (∃ m, P = m * blockSize c) ∧
       P + inputBufferCnt (loc r) ≤ bufferSize c ∧
       inputBufferCnt (loc r) ≤ inputRemaining (loc r) ∧
       (inputBufferCnt (loc r) = inputRemaining (loc r) ∨
        ∃ m, inputBufferCnt (loc r) = m * blockSize c) ∧
       ∀ i t0, track_of s0 i = Some t0 →
         take (inputBufferCnt (loc r)) (drop P (chan_of (inBuffer (buf r)) i))
         = resize (inputBufferCnt (loc r)) 0%Z
             (drop (start_of c rightStart i + p) (samples t0)).

(** The input side at the head of iteration [k], after [p] samples were
    processed. *)
Record in_inv (k p : nat) (r : Run U) : Prop := {
  ii_rows : Forall (λ a, length a = bufferSize c) (inBuffer (buf r));
  ii_chans : numChannels c ≤ length (inBuffer (buf r));
  ii_poss : numChannels c ≤ length (inBufPos (buf r));
  ii_left : inLeftPos (loc r) = leftStart c + p;
  ii_right : inRightPos (loc r) = rightStart + p;
  ii_more : inputRemaining (loc r) ≠ 0 →
    p = k * blockSize c ∧ p + inputRemaining (loc r) = len c ∧
    cleared (loc r) = false ∧ (inputBufferCnt (loc r) ≠ 0 → filled p r);
  ii_done : inputRemaining (loc r) = 0 →
    len c ≤ k * blockSize c ∧
    (cleared (loc r) = true →
       ∀ i, i < numChannels c →
         pos_of (inBufPos (buf r)) i = 0 ∧
         take (blockSize c) (chan_of (inBuffer (buf r)) i) = replicate (blockSize c) 0%Z);
}.
End LoopInvariants.

(** ** Scenarios for a stereo pair *)

(** A unit with two inputs and two outputs that adds 100 to every sample
    and prefers blocks of 4 samples. *)
Definition stereo_delay : DelayConfig :=
  mkDelayConfig EffectTypeProcess 2 0 false (λ _, 4%Z) (λ x, (x + 100)%Z) whole_track
    None None false true false (λ _ _, (-7)%Z).

(** A stereo pair: the left channel, linked to the right channel that
    follows it. *)
Definition stereo_pair : list Track :=
  [mkTrack 1 WaveTrackKind true false true LeftChannel 44100 4 [1; 2; 3; 4; 5; 6]%Z;
   mkTrack 2 WaveTrackKind true false false RightChannel 44100 4 [11; 12; 13; 14; 15; 16]%Z].


Definition mono_project : Effect DelayState :=
  Process_prepare (H := delay_client (plain_delay 0 false)) (fresh_effect stereo_pair).


(** An effect whose [ProcessBlock] always returns. *)
Definition never_throws (U : Type) `{EffectClient U} : Prop :=
  ∀ ins n (u : U), ∃ p outs u', ProcessBlock ins n u = Processed p outs u'.

(** A progress dialog that is never cancelled or stopped. *)
Definition never_stops (U : Type) `{EffectClient U} : Prop :=
  ∀ a b c d (u : U), (ProgressUpdate a b c d u).1 = Success.



(** The content of a track: the track at the address 0. *)
Definition content (t : Track) : Track := Duplicate 0 t.

(** A wave track that is selected: what [Selected< const WaveTrack >]
    ranges over. *)
Definition selected_wave (t : Track) : bool :=
  bool_decide (GetKind t = WaveTrackKind) && GetSelected t.

(** The effect [H] with the answers [init] of [Init], [show] of the
    dialog and [skip] of [CheckWhetherSkipEffect]. *)
Definition answering {U : Type} (init show skip : bool) (H : EffectClient U)
  : EffectClient U := {|
  GetType := GetType;
  GetAudioInCount := GetAudioInCount;
  GetAudioOutCount := GetAudioOutCount;
  SetSampleRate := SetSampleRate;
  SetBlockSize := SetBlockSize;
  GetLatency := GetLatency;
  ProcessInitialize := ProcessInitialize;
  ProcessFinalize := ProcessFinalize;
  ProcessBlock := ProcessBlock;
  Init := λ u, (init, u);
  InitPass1 := InitPass1;
  InitPass2 := InitPass2;
  ShowInterface := λ u, (show, u);
  IsNyquistPrompt := IsNyquistPrompt;
  EffectEnd := EffectEnd;
  NewWaveTrack := NewWaveTrack;
  CheckWhetherSkipEffect := λ _, skip;
  ProgressUpdate := ProgressUpdate;
  GetSamples := GetSamples;
  GeneratorLength := GeneratorLength;
  SyncLockAdjust := SyncLockAdjust;
  ClearAndPaste := ClearAndPaste;
  uninitialised := uninitialised;
|}.

(** A generator of the synthetic kind. *)
Definition tone_generator : DelayConfig :=
  mkDelayConfig EffectTypeGenerate 1 0 false (λ _, 4%Z) (λ x, (x + 100)%Z) whole_track
    None None false true false (λ _, λ _, (-7)%Z).


(** An effect unit of one channel that computes the causal transform [T]
    of its input and gives it out [L] samples late, after the content [Q0]
    of its delay line; it reports the latency [L] at the first call of
    [GetLatency] after [ProcessInitialize] and 0 afterwards.  [R u h rep]
    holds of the states [u] the unit is in after the input [h], with
    [rep] telling whether the latency was reported. *)
Record delay_line_unit {U : Type} `{EffectClient U} (L : nat) (Q0 : list sample)
    (T : list sample → list sample) (R : U → list sample → bool → Prop) : Prop := {
  dl_queue : length Q0 = L;
  dl_length : ∀ a, length (T a) = length a;
  dl_causal : ∀ a b, take (length a) (T (a ++ b)) = T a;
  dl_type : ∀ u : U, GetType u = EffectTypeProcess;
  dl_init : ∀ n map (u : U), ∃ u', ProcessInitialize n map u = (true, u') ∧ R u' [] false;
  dl_block : ∀ ins n u h rep, R u h rep → n ≤ length (chan_of ins 0) →
    ∃ p outs u', ProcessBlock ins n u = Processed p outs u' ∧
      outs !! 0 = Some (take n (drop (length h) (Q0 ++ T (h ++ take n (chan_of ins 0))))) ∧
      R u' (h ++ take n (chan_of ins 0)) rep;
  dl_latency : ∀ u h rep, R u h rep →
    ∃ u', GetLatency u = ((if rep then 0 else L), u') ∧ R u' h true;
  dl_progress : ∀ a b c d u h rep, R u h rep →
    (ProgressUpdate a b c d u).1 = Success ∧ R (ProgressUpdate a b c d u).2 h rep;
  dl_finalize : ∀ u : U, (ProcessFinalize u).1 = true;
}.

(** The state of the block loop for a mono track, under a unit with
    latency, at the head of iteration [k]: [N] samples were given to the
    unit, [q] samples were written to the track, [X] is the selection
    followed by silence and [Y] what the unit makes of it. *)
Record align_inv {U : Type} (c : Ctx) (leftT : Track) (rs L : nat) (X Y : list sample)
    (R : U → list sample → bool → Prop) (k N q : nat) (rep : bool) (r : Run U) : Prop := {
  ai_in : in_inv c (mkSinks leftT None [] None) rs k N r;
  ai_outl : outLeftPos (loc r) = leftStart c + q;
  ai_outr : outRightPos (loc r) = rs + q;
  ai_emitted : q + outputBufferCnt (loc r) = N - Nat.min N L;
  ai_fresh : rep = false → N = 0;
  ai_delay : curDelay (loc r) = if rep then L - Nat.min N L else 0;
  ai_owed : delayRemaining (loc r) ≤ if rep then L else 0;
  ai_total : N + inputRemaining (loc r) + delayRemaining (loc r) + (if rep then 0 else L)
             = len c + L;
  ai_unit : R (client r) (take N X) rep;
  ai_room : outputBufferCnt (loc r) < bufferSize c;
  ai_pos : outBufPos (buf r) !! 0 = Some (outputBufferCnt (loc r));
  ai_buf : ∃ a, outBuffer (buf r) !! 0 = Some a ∧
                bufferSize c + blockSize c ≤ length a ∧
                take (outputBufferCnt (loc r)) a
                = take (outputBufferCnt (loc r)) (drop q Y);
  ai_io : io r = mkSinks (Track_Set Y (leftStart c) q leftT) None [] None;
}.

(** The buffers of a pass, as a mono group needs them: input arrays of
    [size] samples, an output array with room for one more block, and the
    positions. *)
Definition mono_buffers (size block : nat) (b : Buffers) : Prop :=
  Forall (λ a, length a = size) (inBuffer b) ∧
  1 ≤ length (inBuffer b) ∧ 1 ≤ length (inBufPos b) ∧
  is_Some (outBufPos b !! 0) ∧
  size + block ≤ length (chan_of (outBuffer b) 0).


(** What a pass of a mono effect with the transform [T] makes of a track
    of the working list: the selection of a selected wave track is
    transformed, another track is adjusted when it is sync-lock selected. *)
Definition processed_track {U : Type} `{EffectClient U} (T : list sample → list sample)
    (t : Track) : Track :=
  if selected_wave t
  then Track_Set (T (Track_Get t (GetSamples t).1 (GetSamples t).2))
                 (GetSamples t).1 (GetSamples t).2 t
  else if IsSyncLockSelected t then with_samples (SyncLockAdjust t) t
  else t.

(** The sizes and the buffers a mono group finds or leaves: [bs] is the
    block size and [bsz] the buffer size of the pass. *)
Definition mono_state {U : Type} (bs bsz : Z) (st : PassState (U := U)) : Prop :=
  mNumAudioIn (pEffect st) = 1 ∧ 1 ≤ mNumAudioOut (pEffect st) ∧
  (mBufferSize (pEffect st) = 0%Z ∨
   (mBufferSize (pEffect st) = bsz ∧
    mono_buffers (Z.to_nat bsz) (Z.to_nat bs) (pBuffers st))).


(** A generator of one channel that gives out the samples [G 0], [G 1],
    ... whatever it is given.  [S u p] holds of the states [u] the unit
    is in after [p] samples. *)
Record generator_unit {U : Type} `{EffectClient U} (G : nat → sample)
    (S : U → nat → Prop) : Prop := {
  gu_type : ∀ u : U, GetType u = EffectTypeGenerate;
  gu_init : ∀ n map (u : U), ∃ u', ProcessInitialize n map u = (true, u') ∧ S u' 0;
  gu_block : ∀ ins n u p, S u p →
    ∃ q outs u', ProcessBlock ins n u = Processed q outs u' ∧
      outs !! 0 = Some (G <$> seq p n) ∧ S u' (p + n);
  gu_progress : ∀ a b c d u p, S u p →
    (ProgressUpdate a b c d u).1 = Success ∧ S (ProgressUpdate a b c d u).2 p;
  gu_finalize : ∀ u : U, (ProcessFinalize u).1 = true;
}.

(** The state of the block loop of a mono generator after [N] samples,
    [q] of them appended to the temporary track. *)
Record gen_inv {U : Type} (c : Ctx) (leftT : Track) (G : nat → sample)
    (S : U → nat → Prop) (N q : nat) (r : Run U) : Prop := {
  gi_input : inputRemaining (loc r) = 0;
  gi_total : N + delayRemaining (loc r) = genLength c;
  gi_emitted : q + outputBufferCnt (loc r) = N;
  gi_cleared : cleared (loc r) = true;
  gi_unit : S (client r) N;
  gi_room : outputBufferCnt (loc r) < bufferSize c;
  gi_pos : outBufPos (buf r) !! 0 = Some (outputBufferCnt (loc r));
  gi_buf : ∃ a, outBuffer (buf r) !! 0 = Some a ∧
                bufferSize c + blockSize c ≤ length a ∧
                take (outputBufferCnt (loc r)) a = G <$> seq q (outputBufferCnt (loc r));
  gi_io : io r = mkSinks leftT None (G <$> seq 0 q) None;
}.

(** The output buffers of a pass, as a mono generator needs them. *)
Definition gen_buffers (size block : nat) (b : Buffers) : Prop :=
  is_Some (outBufPos b !! 0) ∧ size + block ≤ length (chan_of (outBuffer b) 0).

(** What a pass of a mono generator makes of a track of the working
    list: a selected wave track receives the generated samples, another
    track is adjusted when it is sync-lock selected. *)
Definition generated_track {U : Type} `{EffectClient U} (G : nat → sample)
    (t : Track) : Track :=
  if selected_wave t
  then with_samples (ClearAndPaste t (G <$> seq 0 (GeneratorLength t))) t
  else if IsSyncLockSelected t then with_samples (SyncLockAdjust t) t
  else t.

(** A synthetic generator: it gives out the samples 0, 1, 2, ..., [n]
    of them for every track, and what it generates replaces the track. *)
Definition ramp_generator (n : nat) : EffectClient nat := {|
  GetType := λ _, EffectTypeGenerate;
  GetAudioInCount := λ _, 0;
  GetAudioOutCount := λ _, 1;
  SetSampleRate := λ _ u, u;
  SetBlockSize := λ max u, (Z.min max 4, u);
  GetLatency := λ u, (0, u);
  ProcessInitialize := λ _ _ _, (true, 0);
  ProcessFinalize := λ u, (true, u);
  ProcessBlock := λ _ k p, Processed k [Z.of_nat <$> seq p k] (p + k);
  Init := λ u, (true, u);
  InitPass1 := λ u, (true, u);
  InitPass2 := λ u, (false, u);
  ShowInterface := λ u, (true, u);
  IsNyquistPrompt := λ _, false;
  EffectEnd := λ u, u;
  NewWaveTrack := mkTrack 0 WaveTrackKind false false false MonoChannel 44100 4 [];
  CheckWhetherSkipEffect := λ _, false;
  ProgressUpdate := λ _ _ _ _ u, (Success, u);
  GetSamples := whole_track;
  GeneratorLength := λ _, n;
  SyncLockAdjust := λ t, samples t;
  ClearAndPaste := λ t g, g;
  uninitialised := λ _ _, 0%Z;
|}.

(** The effect object of the synthetic generator, for a project with the
    tracks [l]. *)
Definition generator_effect (l : list Track) : Effect nat :=
  mkEffect l None [] [] 0 0 0 0 0 0 0 0 0 false 0 0 [].


(** The sizes and the output buffers a group of a mono generator finds
    or leaves. *)
Definition gen_state {U : Type} (bs bsz : Z) (st : PassState (U := U)) : Prop :=
  mNumAudioIn (pEffect st) ≤ 1 ∧ 1 ≤ mNumAudioOut (pEffect st) ∧
  (mBufferSize (pEffect st) = 0%Z ∨
   (mBufferSize (pEffect st) = bsz ∧
    gen_buffers (Z.to_nat bsz) (Z.to_nat bs) (pBuffers st))).


(** Two mono tracks with native block sizes of 4 and 6 samples, as the
    working copies of a pass of the unit with two inputs, and the state in
    which the pass visits the first. *)
Definition two_sizes_tracks : list Track :=
  [mkTrack 3 WaveTrackKind true false false MonoChannel 44100 4 [1; 2; 3]%Z;
   mkTrack 4 WaveTrackKind true false false MonoChannel 44100 6 [4; 5; 6]%Z].

Definition two_sizes_state : PassState (U := DelayState) :=
  mkPass (set_mNumAudioOut 2 (set_mNumAudioIn 2
            (set_mOutputTracks (Some two_sizes_tracks) (fresh_effect []))))
         (mkBuffers [] [] [] []) false 0.


(** * Properties of the engine *)

(** ** Frame properties: what the loop and a pass leave unchanged *)

Section Frame.
Context {U : Type} `{EffectClient U}.

Lemma trace_refill c (r : Run U) : trace (refill c r) = trace r.
Proof. unfold refill. case_decide; done. Qed.

Lemma trace_next_block c (r : Run U) : trace (next_block c r) = trace r.
Proof.
  unfold next_block, input_block, delay_block.
  repeat case_decide; try done; simpl; try apply trace_refill.
  destruct (cleared (loc r)); done.
Qed.

Lemma trace_compensate c (r : Run U) : trace (compensate c r) = trace r.
Proof.
  unfold compensate. destruct (isProcessor c); [|done].
  destruct (GetLatency (client r)). repeat case_decide; done.
Qed.

Lemma trace_emit c (r : Run U) : trace (emit c r) = trace r.
Proof. unfold emit. case_decide; done. Qed.

Lemma trace_bump_input c (r : Run U) : trace (bump_input c r) = trace r.
Proof. unfold bump_input. case_decide; done. Qed.

Lemma trace_report c (r : Run U) : trace (step_run (report c r)) = trace r.
Proof.
  unfold report, TrackGroupProgress, TrackProgress.
  repeat case_match; simplify_eq; done.
Qed.

Lemma trace_call_block (r : Run U) :
  ∃ evs, trace (step_run (call_block r)) = trace r ++ evs ∧ Forall block_event evs.
Proof.
  unfold call_block.
  destruct (ProcessBlock _ _ _) as [n outs u|u|u]; simpl.
  - case_decide; simpl.
    + eexists [_]. split; [done|]. repeat constructor.
    + eexists [_; _]. rewrite <- app_assoc. split; [done|]. repeat constructor.
  - eexists [_]. split; [done|]. repeat constructor.
  - eexists [_]. split; [done|]. repeat constructor.
Qed.

Lemma trace_iteration c (r : Run U) :
  ∃ evs, trace (step_run (iteration c r)) = trace r ++ evs ∧ Forall block_event evs.
Proof.
  unfold iteration.
  destruct (trace_call_block (next_block c r)) as (evs & Ht & Hev).
  rewrite trace_next_block in Ht.
  destruct (call_block (next_block c r)) as [r1| | |]; eauto.
  exists evs. split; [|done].
  rewrite trace_report, trace_emit, trace_compensate, trace_bump_input. done.
Qed.

Lemma trace_block_loop c fuel (r : Run U) s :
  block_loop c fuel r = Some s →
  ∃ evs, trace (step_run s) = trace r ++ evs ∧ Forall block_event evs.
Proof.
  revert r. induction fuel as [|fuel IH]; intros r; simpl.
  - case_decide; [|done]. intros [= <-]. exists []. by rewrite app_nil_r.
  - case_decide.
    { intros [= <-]. exists []. by rewrite app_nil_r. }
    destruct (trace_iteration c r) as (evs & Ht & Hev).
    destruct (iteration c r) as [r1| | |] eqn:Hit; simpl in *.
    + intros Hl. destruct (IH _ Hl) as (evs' & Ht' & Hev').
      exists (evs ++ evs'). rewrite Ht', Ht, app_assoc. split; [done|].
      by apply Forall_app.
    + intros [= <-]. eauto.
    + intros [= <-]. eauto.
    + intros [= <-]. eauto.
Qed.

Lemma trace_finish c (s : Step (U := U)) : trace (finish c s).1 = trace (step_run s).
Proof.
  destruct s as [r|r|r|r]; simpl.
  - destruct (ProcessFinalize _) eqn:E; simpl.
    repeat case_match; done.
  - by destruct (ProcessFinalize _).
  - by destruct (ProcessFinalize _).
  - by destruct (ProcessFinalize _).
Qed.


Lemma tids_flush c (r : Run U) : sinks_tids (flush c r) = sinks_tids (io r).
Proof.
  unfold flush, sinks_tids. destruct (isProcessor c); simpl.
  - by destruct (rightTrack (io r)).
  - by destruct (isGenerator c).
Qed.

Lemma io_refill c (r : Run U) : io (refill c r) = io r.
Proof. unfold refill. case_decide; done. Qed.

Lemma io_next_block c (r : Run U) : io (next_block c r) = io r.
Proof.
  unfold next_block, input_block, delay_block.
  repeat case_decide; try done; simpl; try apply io_refill.
  destruct (cleared (loc r)); done.
Qed.

Lemma io_call_block (r : Run U) : io (step_run (call_block r)) = io r.
Proof.
  unfold call_block. destruct (ProcessBlock _ _ _); simpl; try done.
  case_decide; done.
Qed.

Lemma io_bump_input c (r : Run U) : io (bump_input c r) = io r.
Proof. unfold bump_input. case_decide; done. Qed.

Lemma io_compensate c (r : Run U) : io (compensate c r) = io r.
Proof.
  unfold compensate. destruct (isProcessor c); [|done].
  destruct (GetLatency (client r)). repeat case_decide; done.
Qed.

Lemma io_report c (r : Run U) : io (step_run (report c r)) = io r.
Proof.
  unfold report, TrackGroupProgress, TrackProgress.
  repeat case_match; simplify_eq; done.
Qed.

Lemma tids_emit c (r : Run U) : sinks_tids (io (emit c r)) = sinks_tids (io r).
Proof. unfold emit. case_decide; simpl; [done|]. by rewrite tids_flush. Qed.

Lemma tids_iteration c (r : Run U) :
  sinks_tids (io (step_run (iteration c r))) = sinks_tids (io r).
Proof.
  unfold iteration.
  pose proof (io_call_block (next_block c r)) as Hc. rewrite io_next_block in Hc.
  destruct (call_block (next_block c r)) as [r1| | |]; simpl in *; try by rewrite Hc.
  by rewrite io_report, tids_emit, io_compensate, io_bump_input, Hc.
Qed.

Lemma tids_block_loop c fuel (r : Run U) s :
  block_loop c fuel r = Some s → sinks_tids (io (step_run s)) = sinks_tids (io r).
Proof.
  revert r. induction fuel as [|fuel IH]; intros r; simpl.
  - case_decide; [|done]. by intros [= <-].
  - case_decide; [by intros [= <-]|].
    pose proof (tids_iteration c r) as Hi.
    destruct (iteration c r) as [r1| | |]; simpl in *.
    + intros Hl. by rewrite (IH _ Hl).
    + by intros [= <-].
    + by intros [= <-].
    + by intros [= <-].
Qed.

Lemma tids_finish c (s : Step (U := U)) :
  sinks_tids (io (finish c s).1) = sinks_tids (io (step_run s)).
Proof.
  destruct s as [r|r|r|r]; simpl; try by destruct (ProcessFinalize _).
  destruct (ProcessFinalize _) eqn:E; simpl.
  assert (sinks_tids (io (if decide (outputBufferCnt (loc r) ≠ 0)
                          then set_io (flush c r) r else r)) = sinks_tids (io r)) as Hf.
  { case_decide; [|done]. simpl. apply tids_flush. }
  destruct (isGenerator c); simpl; [|done].
  rewrite <- Hf. unfold paste_generated, sinks_tids. simpl.
  by repeat case_match.
Qed.

Lemma tids_ProcessTrack fuel (e : Effect U) k map lt rt ls rs n b r res :
  ProcessTrack fuel e k map lt rt ls rs n b = Some (r, res) →
  tid (leftTrack (io r)) = tid lt ∧ tid <$> rightTrack (io r) = tid <$> rt.
Proof.
  unfold ProcessTrack. destruct (ProcessInitialize _ _ _) as [ok u].
  destruct ok.
  - destruct (block_loop _ _ _) as [s|] eqn:Hl; [|done].
    intros Hf. apply tids_block_loop in Hl.
    pose proof (tids_finish (track_ctx e u k lt ls n) s) as Hfin.
    injection Hf as Hf. rewrite Hf in Hfin. simpl in Hfin.
    rewrite Hl in Hfin. unfold sinks_tids in Hfin. simpl in Hfin. by simplify_eq.
  - by intros [= <- <-].
Qed.

Lemma trace_ProcessTrack fuel (e : Effect U) k map lt rt ls rs n b r res :
  ProcessTrack fuel e k map lt rt ls rs n b = Some (r, res) →
  ∃ evs, trace r = mTrace e ++ evs ∧ Forall block_event evs.
Proof.
  unfold ProcessTrack. destruct (ProcessInitialize _ _ _) as [ok u].
  destruct ok.
  - destruct (block_loop _ _ _) as [s|] eqn:Hl; [|done].
    intros Hf. apply trace_block_loop in Hl as (evs & Ht & Hev).
    exists evs. split; [|done].
    pose proof (trace_finish (track_ctx e u k lt ls n) s) as Hfin.
    injection Hf as Hf. rewrite Hf in Hfin. simpl in Hfin. by rewrite Hfin, Ht.
  - intros [= <- <-]. exists []. by rewrite app_nil_r.
Qed.

Lemma block_event_group ev : block_event ev → group_event ev.
Proof. by destruct ev. Qed.

Lemma project_frame_refl (e : Effect U) : is_Some (mOutputTracks e) → project_frame e e.
Proof. intros. repeat split; try done. exists []. by rewrite app_nil_r. Qed.

Lemma project_frame_trans (e1 e2 e3 : Effect U) :
  project_frame e1 e2 → project_frame e2 e3 → project_frame e1 e3.
Proof.
  unfold project_frame. intros (?&?&?&?&?&?&?&?&?&?&?&?&evs&?&?) (?&?&?&?&?&?&?&?&?&?&?&?&evs'&?&?).
  repeat split; try congruence.
  exists (evs ++ evs'). split; [|by apply Forall_app].
  rewrite app_assoc. congruence.
Qed.

Lemma buffer_manager_frame lt hr (st : PassState) :
  mTracks (pEffect (buffer_manager lt hr st)) = mTracks (pEffect st) ∧
  mOutputTracks (pEffect (buffer_manager lt hr st)) = mOutputTracks (pEffect st) ∧
  mIMap (pEffect (buffer_manager lt hr st)) = mIMap (pEffect st) ∧
  mOMap (pEffect (buffer_manager lt hr st)) = mOMap (pEffect st) ∧
  mNumAudioIn (pEffect (buffer_manager lt hr st)) = mNumAudioIn (pEffect st) ∧
  mNumAudioOut (pEffect (buffer_manager lt hr st)) = mNumAudioOut (pEffect st) ∧
  mPass (pEffect (buffer_manager lt hr st)) = mPass (pEffect st) ∧
  mNumTracks (pEffect (buffer_manager lt hr st)) = mNumTracks (pEffect st) ∧
  mNumGroups (pEffect (buffer_manager lt hr st)) = mNumGroups (pEffect st) ∧
  mProgress (pEffect (buffer_manager lt hr st)) = mProgress (pEffect st) ∧
  nEffectsDone (pEffect (buffer_manager lt hr st)) = nEffectsDone (pEffect st) ∧
  mNumChannels (pEffect (buffer_manager lt hr st)) = mNumChannels (pEffect st) ∧
  ∃ evs, mTrace (pEffect (buffer_manager lt hr st)) = mTrace (pEffect st) ++ evs
         ∧ Forall group_event evs.
Proof.
  unfold buffer_manager. destruct (SetBlockSize _ _) as [bs u2].
  case_bool_decide; simpl; repeat split; try done.
  - eexists [_]. split; [done|]. repeat constructor.
  - exists []. by rewrite app_nil_r.
Qed.

Lemma process_group_frame fuel mc g i lt (st st' : PassState) res :
  default [] (mOutputTracks (pEffect st)) !! i = Some lt →
  process_group fuel mc g i lt st = Some (st', res) →
  project_frame (pEffect st) (pEffect st').
Proof.
  intros Hlt. unfold process_group.
  destruct (if g then _ else _) as [ls n].
  set (rt := if mc && GetLinked lt then _ else _).
  destruct (match rt with Some _ => _ | None => _ end) as [rs n'] eqn:Hrs.
  set (st0 := mkPass _ _ _ _).
  destruct (buffer_manager_frame lt (bool_decide (is_Some rt)) st0)
    as (?&?&?&?&?&?&?&?&?&?&?&?&evs&Ht&Hev).
  destruct (ProcessTrack _ _ _ _ _ _ _ _ _ _) as [[r res']|] eqn:HPT; [|done].
  intros [= <- <-]. simpl.
  pose proof (tids_ProcessTrack _ _ _ _ _ _ _ _ _ _ _ _ HPT) as [Htl Htr].
  apply trace_ProcessTrack in HPT as (evs' & Ht' & Hev'). simpl in Ht'.
  unfold project_frame. simpl. subst st0. simpl in *.
  split_and!; try congruence; [by eexists| |].
  { set (tracks := default [] (mOutputTracks (pEffect st))) in *.
    assert (tid <$> <[i:=leftTrack (io r)]> tracks = tid <$> tracks) as E1.
    { rewrite list_fmap_insert. apply list_insert_id.
      by rewrite list_lookup_fmap, Hlt, Htl. }
    destruct (rightTrack (io r)) as [rt'|] eqn:Hr; [|done].
    rewrite list_fmap_insert, E1. apply list_insert_id.
    rewrite list_lookup_fmap. simpl in Htr.
    destruct rt as [rt0|] eqn:Hrt; [|done]. simpl in Htr.
    subst rt. destruct (mc && GetLinked lt); [|done].
    rewrite Hrt. simpl. congruence. }
  exists (evs ++ [EvProcessTrack (pCount st) (tid lt) (tid <$> rt)] ++ evs').
  split.
  - rewrite Ht', Ht. simpl. by rewrite <- !app_assoc.
  - apply Forall_app; split; [done|]. constructor; [done|].
    eapply Forall_impl; [|exact Hev']. apply block_event_group.
Qed.

Lemma visit_frame fuel mc g i (st st' : PassState) res :
  is_Some (mOutputTracks (pEffect st)) →
  visit fuel mc g i st = Some (st', res) →
  project_frame (pEffect st) (pEffect st').
Proof.
  intros Hs. unfold visit. case_match; [|by intros [= <- <-]; apply project_frame_refl].
  case_match.
  - by apply process_group_frame.
  - intros [= <- <-]. unfold sync_lock_adjust. case_match; [|by apply project_frame_refl].
    unfold project_frame; simpl. split_and!; try done.
    + rewrite list_fmap_insert. apply list_insert_id. by rewrite list_lookup_fmap, H0.
    + exists []. by rewrite app_nil_r.
Qed.

Lemma VisitWhile_frame fuel mc g range (st st' : PassState) res :
  is_Some (mOutputTracks (pEffect st)) →
  VisitWhile fuel mc g range st = Some (st', res) →
  project_frame (pEffect st) (pEffect st').
Proof.
  revert st. induction range as [|i range IH]; intros st Hs; simpl.
  - intros [= <- <-]. by apply project_frame_refl.
  - destruct (visit fuel mc g i st) as [[st1 [[]|]]|] eqn:Hv; try done.
    + intros HV. apply visit_frame in Hv; [|done].
      eapply project_frame_trans; [done|]. apply IH; [|done].
      by destruct Hv as (?&?&?&?&?&?&?&?&?&?&?&?&?).
    + intros [= <- <-]. by apply visit_frame in Hv.
    + intros [= <- <-]. by apply visit_frame in Hv.
Qed.
End Frame.

(** ** Passes, commits and exceptions *)

Section PassLevel.
Context {U : Type} `{EffectClient U}.

Lemma passes_of_group evs : Forall group_event evs → passes_of evs = [].
Proof.
  induction 1 as [|ev evs Hev _ IH]; [done|].
  destruct ev; try done; simpl in *; exact IH.
Qed.

Lemma passes_of_app t1 t2 : passes_of (t1 ++ t2) = passes_of t1 ++ passes_of t2.
Proof. apply omap_app. Qed.

Lemma project_frame_passes (e e' : Effect U) :
  project_frame e e' → passes_of (mTrace e') = passes_of (mTrace e).
Proof.
  intros (_&_&_&_&_&_&_&_&_&_&_&_&evs&->&Hev).
  by rewrite passes_of_app, (passes_of_group evs Hev), app_nil_r.
Qed.

(** A pass logs its call and otherwise keeps the frame. *)
Lemma ProcessPass_frame fuel (e e' : Effect U) res :
  is_Some (mOutputTracks e) →
  ProcessPass fuel e = Some (e', res) →
  project_frame (log_event (EvProcessPass (mPass e)) e) e'.
Proof.
  intros Hs. unfold ProcessPass, ProcessPass_visit.
  destruct (VisitWhile _ _ _ _ _) as [[st r]|] eqn:HV; [|done].
  intros [= <- <-]. apply VisitWhile_frame in HV; [|done].
  destruct HV as (?&?&?&?&?&?&?&?&?&?&?&?&evs&?&?).
  unfold project_frame. simpl in *. split_and!; try done. by exists evs.
Qed.

Lemma ProcessPass_passes fuel (e e' : Effect U) res :
  is_Some (mOutputTracks e) →
  ProcessPass fuel e = Some (e', res) →
  passes_of (mTrace e') = passes_of (mTrace e) ++ [mPass e].
Proof.
  intros Hs HP. apply ProcessPass_frame in HP; [|done].
  apply project_frame_passes in HP. rewrite HP. simpl.
  by rewrite passes_of_app.
Qed.


Lemma ReplaceProcessedTracks_trace b (e e' : Effect U) :
  ReplaceProcessedTracks b e = Some e' → mTrace e' = mTrace e.
Proof.
  unfold ReplaceProcessedTracks. destruct b; simpl.
  - destruct (replace_loop _ _ _ _); [|done]. by intros [= <-].
  - by intros [= <-].
Qed.

Lemma Process_commit_trace b (e e' : Effect U) res :
  Process_commit b e = Some (e', res) → mTrace e' = mTrace e ∧ res = Returns b.
Proof.
  unfold Process_commit. destruct (ReplaceProcessedTracks b e) eqn:E; [|done].
  intros [= <- <-]. split; [|done]. by eapply ReplaceProcessedTracks_trace.
Qed.

Lemma Process_prepare_outputs (e : Effect U) : is_Some (mOutputTracks (Process_prepare e)).
Proof. by eexists. Qed.

Theorem Process_pass_gating fuel (e e' : Effect U) res :
  Process fuel e = Some (e', res) →
  let e0 := Process_prepare e in
  passes_of (mTrace e') = passes_of (mTrace e) ++
    (if (InitPass1 (mClient e0)).1 then
       match ProcessPass fuel (set_mClient (InitPass1 (mClient e0)).2 e0) with
       | Some (e1, Returns true) => if (InitPass2 (mClient e1)).1 then [1; 2] else [1]
       | _ => [1]
       end
     else [])%Z.
Proof.
  intros HP. cbv zeta. unfold Process in HP. set (e0 := Process_prepare e) in *.
  destruct (InitPass1 (mClient e0)) as [ok1 u1]. simpl.
  destruct ok1.
  - destruct (ProcessPass fuel (set_mClient u1 e0)) as [[e1 r1]|] eqn:HP1; [|done].
    assert (is_Some (mOutputTracks (set_mClient u1 e0))) as Hs by (by eexists).
    pose proof (ProcessPass_passes _ _ _ _ Hs HP1) as Hp1.
    pose proof (ProcessPass_frame _ _ _ _ Hs HP1) as Hf1.
    simpl in Hp1.
    destruct r1 as [good1|].
    + destruct good1.
      * simpl in HP. destruct (InitPass2 (mClient e1)) as [ok2 u2]. simpl.
        destruct ok2.
        -- destruct (ProcessPass fuel (set_mClient u2 (set_mPass 2 e1)))
             as [[e2 r2]|] eqn:HP2; [|done].
           assert (is_Some (mOutputTracks (set_mClient u2 (set_mPass 2 e1)))) as Hs2.
           { by destruct Hf1 as (?&?&?&?&?&?&?&?&?&?&?&?). }
           apply (ProcessPass_passes _ _ _ _ Hs2) in HP2.
           simpl in HP2. rewrite Hp1 in HP2.
           destruct r2 as [good2|].
           ++ apply Process_commit_trace in HP as [-> _].
              by rewrite HP2, <- app_assoc.
           ++ injection HP as <- <-. by rewrite HP2, <- app_assoc.
        -- apply Process_commit_trace in HP as [-> _]. done.
      * apply Process_commit_trace in HP as [-> _]. done.
    + injection HP as <- <-. done.
  - apply Process_commit_trace in HP as [-> _]. simpl. by rewrite app_nil_r.
Qed.

Lemma fresh_address_fresh (l : list Track) : fresh_address l ∉ tid <$> l.
Proof.
  intros Hin. apply max_list_elem_of_le in Hin. unfold fresh_address in Hin. lia.
Qed.

Lemma TrackList_Remove_add (l : list Track) (t : Track) :
  tid t ∉ tid <$> l → TrackList_Remove (tid t) (TrackList_Add t l) = l.
Proof.
  unfold TrackList_Add. induction l as [|x l IH]; simpl; intros Hn.
  - by rewrite decide_True.
  - rewrite not_elem_of_cons in Hn. destruct Hn as [Hx Hl].
    rewrite decide_False by done. by rewrite IH.
Qed.

(** What [Process] leaves of the project when it does not return true. *)
Lemma Process_not_committed fuel (e e' : Effect U) res :
  Process fuel e = Some (e', res) →
  res ≠ Returns true →
  mTracks e' = mTracks e ∧ mProgress e' = mProgress e ∧
  (res = Returns false → mOutputTracks e' = Some [] ∧ mIMap e' = [] ∧ mOMap e' = []) ∧
  (res = Propagates → is_Some (mOutputTracks e')).
Proof.
  intros HP Hres. unfold Process in HP. set (e0 := Process_prepare e) in *.
  assert (mTracks e0 = mTracks e ∧ mProgress e0 = mProgress e) as [Ht0 Hp0] by done.
  assert (∀ e1, is_Some (mOutputTracks e1) → mTracks e1 = mTracks e →
            mProgress e1 = mProgress e →
            Process_commit false e1 = Some (e', res) →
            mTracks e' = mTracks e ∧ mProgress e' = mProgress e ∧
            (res = Returns false →
               mOutputTracks e' = Some [] ∧ mIMap e' = [] ∧ mOMap e' = []) ∧
            (res = Propagates → is_Some (mOutputTracks e'))) as Hfalse.
  { intros e1 [o Ho] Ht Hp [= <- <-]. simpl. rewrite Ho. done. }
  assert (∀ e1, Process_commit true e1 = Some (e', res) → False) as Htrue.
  { intros e1. unfold Process_commit.
    destruct (ReplaceProcessedTracks true e1); [|done]. by intros [= <- <-]. }
  destruct (InitPass1 (mClient e0)) as [ok1 u1]. destruct ok1; [|by destruct (Htrue _ HP)].
  destruct (ProcessPass fuel (set_mClient u1 e0)) as [[e1 r1]|] eqn:HP1; [|done].
  assert (is_Some (mOutputTracks (set_mClient u1 e0))) as Hs by (by eexists).
  pose proof (ProcessPass_frame _ _ _ _ Hs HP1) as (Ht1&_&_&_&_&_&_&_&Hp1&_&Hs1&_).
  simpl in Ht1, Hp1.
  destruct r1 as [[|]|].
  - simpl in HP. destruct (InitPass2 (mClient e1)) as [ok2 u2].
    destruct ok2; [|by destruct (Htrue _ HP)].
    destruct (ProcessPass fuel (set_mClient u2 (set_mPass 2 e1)))
      as [[e2 r2]|] eqn:HP2; [|done].
    assert (is_Some (mOutputTracks (set_mClient u2 (set_mPass 2 e1)))) as Hs' by done.
    pose proof (ProcessPass_frame _ _ _ _ Hs' HP2) as (Ht2&_&_&_&_&_&_&_&Hp2&_&Hs2&_).
    simpl in Ht2, Hp2.
    destruct r2 as [[|]|].
    + by destruct (Htrue _ HP).
    + apply (Hfalse e2); [done|congruence|congruence|done].
    + injection HP as <- <-. split_and!; [congruence|congruence|done|done].
  - apply (Hfalse (set_mPass 2 e1)); [done|simpl; congruence|simpl; congruence|done].
  - injection HP as <- <-. split_and!; [congruence|congruence|done|done].
Qed.

Lemma CountWaveTracks_mTracks (e : Effect U) : mTracks (CountWaveTracks e) = mTracks e.
Proof. done. Qed.

Lemma DoEffect_enter_undo (e e1 : Effect U) :
  mTracks e1 = mTracks (DoEffect_enter e).1 →
  mTracks (match (DoEffect_enter e).2 with
           | Some t => set_mTracks (TrackList_Remove (tid t) (mTracks e1)) e1
           | None => e1
           end) = mTracks e.
Proof.
  unfold DoEffect_enter. intros Ht. case_match; simpl in *; [|done].
  rewrite Ht.
  apply (TrackList_Remove_add _
           (Track_selected (Duplicate (fresh_address (mTracks e)) NewWaveTrack))).
  simpl. apply fresh_address_fresh.
Qed.

Lemma DoEffect_leave_failed nt (e e' : Effect U) res :
  DoEffect_leave nt res e = Some (e', res) →
  res ≠ Returns true →
  mTracks e' = mTracks (match nt with
                        | Some t => set_mTracks (TrackList_Remove (tid t) (mTracks e)) e
                        | None => e
                        end) ∧
  mIMap e' = [] ∧ mOMap e' = [] ∧
  mOutputTracks e' = (λ _, []) <$> mOutputTracks e.
Proof.
  unfold DoEffect_leave, DoEffect_cleanup. intros HD Hres.
  assert (returned_true res = false) as Hr by (by destruct res as [[|]|]).
  rewrite Hr in HD. simpl in HD. injection HD as <-. simpl. by destruct nt.
Qed.

(** [DoEffect] restores the project whenever it does not return true: the
    scope-exit cleanup discards the working copies and the track it added. *)
Lemma DoEffect_not_committed fuel (e e' : Effect U) res :
  DoEffect fuel e = Some (e', res) →
  res ≠ Returns true →
  mTracks e' = mTracks e ∧ mIMap e' = [] ∧ mOMap e' = [] ∧
  (mOutputTracks e' = None ∨ mOutputTracks e' = Some []) ∧
  (res = Propagates → mOutputTracks e' = Some []).
Proof.
  unfold DoEffect. intros HD Hres.
  pose proof (DoEffect_enter_undo e) as Hundo.
  assert (mOutputTracks (DoEffect_enter e).1 = None) as Hnone.
  { unfold DoEffect_enter. cbv zeta. by destruct (_ && _). }
  destruct (DoEffect_enter e) as [eb nt]. simpl in *.
  destruct (Init (mClient eb)) as [okInit u]. destruct okInit.
  - destruct (ShowInterface _) as [okShow u']. destruct okShow.
    + destruct (CheckWhetherSkipEffect _).
      * unfold DoEffect_leave in HD. destruct (DoEffect_cleanup _ _ _); by simplify_eq.
      * destruct (Process fuel _) as [[e1 r1]|] eqn:HP; [|done].
        assert (r1 = res) as ->.
        { unfold DoEffect_leave in HD. destruct (DoEffect_cleanup _ _ _); by simplify_eq. }
        apply Process_not_committed in HP as (Ht&Hp&Hc&Hpr); [|done]. simpl in Ht.
        apply DoEffect_leave_failed in HD as (HT&?&?&HO); [|done]. simpl in HT, HO.
        rewrite <- (Hundo (set_mProgress (mProgress eb) e1)) by done.
        split_and!; try done.
        -- destruct res as [[|]|]; try done.
           ++ destruct (Hc eq_refl) as (Ho&_). rewrite Ho in HO. by right.
           ++ destruct (Hpr eq_refl) as [o Ho]. rewrite Ho in HO. by right.
        -- intros ->. destruct (Hpr eq_refl) as [o Ho]. by rewrite Ho in HO.
    + assert (res = Returns false) as ->.
      { unfold DoEffect_leave in HD. destruct (DoEffect_cleanup _ _ _); by simplify_eq. }
      apply DoEffect_leave_failed in HD as (HT&?&?&HO); [|done]. simpl in HT, HO.
      rewrite <- (Hundo (set_mClient u' (set_mClient u eb))) by done.
      rewrite Hnone in HO. split_and!; try done. by left.
  - assert (res = Returns false) as ->.
    { unfold DoEffect_leave in HD. destruct (DoEffect_cleanup _ _ _); by simplify_eq. }
    apply DoEffect_leave_failed in HD as (HT&?&?&HO); [|done]. simpl in HT, HO.
    rewrite <- (Hundo (set_mClient u eb)) by done.
    rewrite Hnone in HO. split_and!; try done. by left.
Qed.

(** *** Exceptions *)

Lemma iteration_fatal c (r : Run U) u :
  ProcessBlock (input_views (buf (next_block c r))) (curBlockSize (loc (next_block c r)))
               (client (next_block c r)) = ThrowsAudacityException u →
  ∃ r', iteration c r = Rethrow r' ∧ client r' = u.
Proof.
  intros HB. unfold iteration, call_block. rewrite HB. by eexists.
Qed.

Lemma iteration_other c (r : Run U) u :
  ProcessBlock (input_views (buf (next_block c r))) (curBlockSize (loc (next_block c r)))
               (client (next_block c r)) = ThrowsOther u →
  ∃ r', iteration c r = ReturnFalse r' ∧ client r' = u.
Proof.
  intros HB. unfold iteration, call_block. rewrite HB. by eexists.
Qed.

Lemma block_loop_step c fuel (r : Run U) :
  ¬ (inputRemaining (loc r) = 0 ∧ delayRemaining (loc r) = 0) →
  block_loop c (S fuel) r =
    match iteration c r with
    | Continue r' => block_loop c fuel r'
    | s => Some s
    end.
Proof. intros Hc. simpl. by rewrite decide_False. Qed.

Lemma report_not_thrown c (r : Run U) r' :
  report c r ≠ Rethrow r' ∧ report c r ≠ ReturnFalse r'.
Proof.
  unfold report. destruct (if decide _ then _ else _) as [stop u]. by destruct stop.
Qed.

Section NeverFatal.
Hypothesis never_fatal :
  ∀ ins n (u u' : U), ProcessBlock ins n u ≠ ThrowsAudacityException u'.

Lemma iteration_not_rethrow c (r r' : Run U) : iteration c r ≠ Rethrow r'.
Proof.
  unfold iteration, call_block.
  destruct (ProcessBlock _ _ _) as [n outs u|u|u] eqn:HB; simpl; try done.
  - apply report_not_thrown.
  - by apply never_fatal in HB.
Qed.

Lemma block_loop_not_rethrow c fuel (r r' : Run U) :
  block_loop c fuel r ≠ Some (Rethrow r').
Proof.
  revert r. induction fuel as [|fuel IH]; intros r; simpl.
  - by case_decide.
  - case_decide; [done|].
    pose proof (iteration_not_rethrow c r) as Hi.
    destruct (iteration c r); try done. intros [= ->]. by eapply Hi.
Qed.

Lemma finish_propagates c (s : Step (U := U)) :
  (finish c s).2 = Propagates → ∃ r, s = Rethrow r.
Proof.
  destruct s as [r|r|r|r]; simpl; try (by destruct (ProcessFinalize _)); by eauto.
Qed.

Lemma ProcessTrack_not_propagates fuel (e : Effect U) k map lt rt ls rs n b r :
  ProcessTrack fuel e k map lt rt ls rs n b ≠ Some (r, Propagates).
Proof.
  unfold ProcessTrack. destruct (ProcessInitialize _ _ _) as [[|] u]; [|done].
  destruct (block_loop _ _ _) as [s|] eqn:Hl; [|done].
  intros [= Hf]. assert ((finish (track_ctx e u k lt ls n) s).2 = Propagates) as Hp.
  { by rewrite Hf. }
  apply finish_propagates in Hp as [r' ->]. by apply block_loop_not_rethrow in Hl.
Qed.

Lemma process_group_not_propagates fuel mc g i lt (st st' : PassState) :
  process_group fuel mc g i lt st ≠ Some (st', Propagates).
Proof.
  unfold process_group.
  destruct (if g then _ else _) as [ls n].
  destruct (match (if mc && GetLinked lt then _ else _) with
            | Some _ => _ | None => _ end) as [rs n'].
  destruct (ProcessTrack _ _ _ _ _ _ _ _ _ _) as [[r res]|] eqn:HPT; [|done].
  intros [= _ ->]. by apply ProcessTrack_not_propagates in HPT.
Qed.

Lemma VisitWhile_not_propagates fuel mc g range (st st' : PassState) :
  VisitWhile fuel mc g range st ≠ Some (st', Propagates).
Proof.
  revert st. induction range as [|i range IH]; intros st; simpl; [done|].
  destruct (visit fuel mc g i st) as [[st1 [[|]|]]|] eqn:Hv; try done.
  unfold visit in Hv. intros [= <-].
  destruct (_ !! i); [|done]. destruct (_ && _); [|done].
  by apply process_group_not_propagates in Hv.
Qed.

Lemma ProcessPass_not_propagates fuel (e e' : Effect U) :
  ProcessPass fuel e ≠ Some (e', Propagates).
Proof.
  unfold ProcessPass, ProcessPass_visit.
  destruct (VisitWhile _ _ _ _ _) as [[st [|]]|] eqn:HV; try done.
  by apply VisitWhile_not_propagates in HV.
Qed.

Lemma Process_not_propagates fuel (e e' : Effect U) :
  Process fuel e ≠ Some (e', Propagates).
Proof.
  unfold Process, Process_commit.
  repeat (case_match; simplify_eq; try done);
    intros ?; simplify_eq; eapply ProcessPass_not_propagates; eauto.
Qed.

Lemma DoEffect_not_propagates fuel (e e' : Effect U) :
  DoEffect fuel e ≠ Some (e', Propagates).
Proof.
  unfold DoEffect, DoEffect_leave.
  repeat (case_match; simplify_eq; try done);
    intros ?; simplify_eq; eapply Process_not_propagates; eauto.
Qed.
End NeverFatal.

(** An exception that leaves a pass leaves [Process] at once, and
    [DoEffect] after its cleanup. *)
Lemma Process_propagates fuel (e e1 : Effect U) :
  let e0 := Process_prepare e in
  (InitPass1 (mClient e0)).1 = true →
  ProcessPass fuel (set_mClient (InitPass1 (mClient e0)).2 e0) = Some (e1, Propagates) →
  Process fuel e = Some (e1, Propagates).
Proof.
  intros e0 Hok HP. unfold Process. fold e0.
  destruct (InitPass1 (mClient e0)) as [ok u]. simpl in *. subst ok. by rewrite HP.
Qed.
End PassLevel.

(** ** The commit loop *)

Section Commit.

Lemma replace_loop_nil im om tracks :
  replace_loop [] im om tracks = Some (foldl (λ l t, remove_original t l) tracks im).
Proof. done. Qed.

Lemma replace_loop_cons o outs t im oa om tracks :
  replace_loop (o :: outs) (t :: im) (oa :: om) tracks =
    if decide (oa = tid o)
    then replace_loop outs im om
           (match t with
            | None => TrackList_Add o tracks
            | Some a => TrackList_Replace a o tracks
            end)
    else replace_loop (o :: outs) im om (remove_original t tracks).
Proof. simpl. by case_decide. Qed.





Lemma filter_ext_in {A} (P Q : A → Prop) `{!∀ x, Decision (P x), !∀ x, Decision (Q x)}
    (l : list A) :
  (∀ x, x ∈ l → P x ↔ Q x) → filter P l = filter Q l.
Proof.
  induction l as [|x l IH]; [done|]. intros HPQ.
  rewrite !filter_cons. rewrite IH by (intros y Hy; apply HPQ; by right).
  destruct (HPQ x) as [H1 H2]; [left|].
  repeat case_decide; tauto || done.
Qed.





Lemma tids_Replace a o tracks x :
  x ∈ tid <$> TrackList_Replace a o tracks → x = tid o ∨ x ∈ tid <$> tracks.
Proof.
  induction tracks as [|t tracks IH]; simpl; [by right|].
  case_decide; simpl; rewrite !elem_of_cons; naive_solver.
Qed.

Lemma NoDup_Replace a o tracks :
  NoDup (tid <$> tracks) → tid o ∉ tid <$> tracks →
  NoDup (tid <$> TrackList_Replace a o tracks).
Proof.
  induction tracks as [|t tracks IH]; simpl; [done|].
  rewrite list.NoDup_cons, not_elem_of_cons. intros [Hn Hnd] [Hne Ho].
  case_decide; simpl; rewrite list.NoDup_cons.
  - done.
  - split; [|auto]. intros Hin. apply tids_Replace in Hin as [?|?]; [congruence|done].
Qed.






Lemma foldl_remove_nil im : foldl (λ l t, remove_original t l) [] im = [].
Proof. induction im as [|[a|] im IH]; simpl; done. Qed.

End Commit.

(** ** The commit of [Process] *)

Ltac effect_simpl :=
  cbn [mTracks mOutputTracks mIMap mOMap mNumAudioIn mNumAudioOut mPass mBufferSize
       mBlockSize mNumChannels mSampleRate mNumTracks mNumGroups mProgress nEffectsDone
       mClient mTrace
       set_mTracks set_mOutputTracks set_mIMap set_mOMap set_mNumAudioIn
       set_mNumAudioOut set_mPass set_mBufferSize set_mBlockSize set_mNumChannels
       set_mSampleRate set_mNumTracks set_mNumGroups set_mProgress set_nEffectsDone
       set_mClient set_mTrace log_event].

Section CommitLevel.
Context {U : Type} `{EffectClient U}.






End CommitLevel.

(** ** Cancellation, commit and exceptions: the claims *)

Section Cancel.
Context {U : Type} `{EffectClient U}.

(** A reporter that does not answer [Success] ends the iteration with
    [rc = false; break]. *)
Lemma report_cancelled c (r : Run U) :
  hasProgress c = true →
  (∀ total, (ProgressUpdate (count c) (inLeftPos (loc r) - leftStart c)
               (if isGenerator c then genLength c else len c) total (client r)).1 ≠ Success) →
  ∃ r', report c r = Break r'.
Proof.
  intros Hp Hstop. unfold report, TrackGroupProgress, TrackProgress. rewrite Hp.
  case_decide.
  - specialize (Hstop (numGroups c)). destruct (ProgressUpdate _ _ _ _ _) as [res u].
    simpl in *. rewrite bool_decide_eq_true_2 by done. by eexists.
  - specialize (Hstop (numTracks c)). destruct (ProgressUpdate _ _ _ _ _) as [res u].
    simpl in *. rewrite bool_decide_eq_true_2 by done. by eexists.
Qed.

End Cancel.



(** C6 (amended): [Process] runs [ProcessPass] not at all when [InitPass1]
    returns false; otherwise it runs it once, with [GetPass()] = 1, and a
    second time, with [GetPass()] = 2, exactly when the first pass returns
    true and [InitPass2] returns true.  [GetPass()] does not change during
    a pass. *)
Theorem two_pass_gating {U : Type} `{EffectClient U} fuel (e e' : Effect U) res :
  Process fuel e = Some (e', res) →
  let e0 := Process_prepare e in
  passes_of (mTrace e') = passes_of (mTrace e) ++
    (if (InitPass1 (mClient e0)).1 then
       match ProcessPass fuel (set_mClient (InitPass1 (mClient e0)).2 e0) with
       | Some (e1, Returns true) => if (InitPass2 (mClient e1)).1 then [1; 2] else [1]
       | _ => [1]
       end
     else [])%Z ∧
  (∀ e1 e2 r, is_Some (mOutputTracks e1) →
              ProcessPass fuel e1 = Some (e2, r) → mPass e2 = mPass e1).
Proof.
  intros HP e0. split; [exact (Process_pass_gating fuel e e' res HP)|].
  intros e1 e2 r Hs HP'. by apply ProcessPass_frame in HP' as (_&_&_&_&_&?&_).
Qed.

(** With [InitPass1] and [InitPass2] returning true there are two passes. *)
Lemma two_pass_gating_witness :
  ∃ e', Process (H := delay_client (two_pass_delay true true)) 100 two_pass_project
        = Some (e', Returns true) ∧
        passes_of (mTrace e') = [1; 2]%Z.
Proof.
  destruct (Process (H := delay_client (two_pass_delay true true)) 100 two_pass_project)
    as [[e' res]|] eqn:E; [|vm_compute in E; discriminate E].
  assert (res = Returns true) as ->.
  { pose proof E as E'. vm_compute in E'. by injection E' as _ <-. }
  exists e'. split; [reflexivity|].
  destruct (two_pass_gating (H := delay_client (two_pass_delay true true)) _ _ _ _ E)
    as [-> _].
  vm_compute; reflexivity.
Defined.

(** An effect whose [InitPass2] returns false, and whose [InitPass1]
    returns false too, runs no pass at all. *)
Lemma two_pass_gating_counterexample :
  ∃ e', Process (H := delay_client (two_pass_delay false false)) 100 two_pass_project
        = Some (e', Returns true) ∧
        (InitPass2 (EffectClient := delay_client (two_pass_delay false false))
                   (mClient e')).1 = false ∧
        length (passes_of (mTrace e')) ≠ 1.
Proof.
  destruct (Process (H := delay_client (two_pass_delay false false)) 100 two_pass_project)
    as [[e' res]|] eqn:E; [|vm_compute in E; discriminate E].
  vm_compute in E. injection E as <- <-.
  eexists. split; [reflexivity|]. split; [reflexivity|]. vm_compute. lia.
Qed.

(** C7: an [AudacityException] thrown by [ProcessBlock] leaves the block
    loop, [ProcessTrack] and [Process] (which does not commit), and
    [DoEffect] lets it out after its cleanup has discarded the working
    copies, the project's tracks being what they were; any other exception
    ends the group with the result false, and nothing propagates unless
    [ProcessBlock] throws an [AudacityException]. *)
Theorem exceptions_of_ProcessBlock {U : Type} `{EffectClient U} :
  (∀ c (r : Run U) u fuel,
      ¬ (inputRemaining (loc r) = 0 ∧ delayRemaining (loc r) = 0) →
      ProcessBlock (input_views (buf (next_block c r)))
                   (curBlockSize (loc (next_block c r))) (client (next_block c r))
        = ThrowsAudacityException u →
      ∃ r', block_loop c (S fuel) r = Some (Rethrow r') ∧
            (finish c (Rethrow r')).2 = Propagates) ∧
  (∀ c (r : Run U) u fuel,
      ¬ (inputRemaining (loc r) = 0 ∧ delayRemaining (loc r) = 0) →
      ProcessBlock (input_views (buf (next_block c r)))
                   (curBlockSize (loc (next_block c r))) (client (next_block c r))
        = ThrowsOther u →
      ∃ r', block_loop c (S fuel) r = Some (ReturnFalse r') ∧
            (finish c (ReturnFalse r')).2 = Returns false) ∧
  (∀ fuel (e e1 : Effect U),
      (InitPass1 (mClient (Process_prepare e))).1 = true →
      ProcessPass fuel (set_mClient (InitPass1 (mClient (Process_prepare e))).2
                                    (Process_prepare e)) = Some (e1, Propagates) →
      Process fuel e = Some (e1, Propagates)) ∧
  (∀ fuel (e e' : Effect U),
      DoEffect fuel e = Some (e', Propagates) →
      mTracks e' = mTracks e ∧ mOutputTracks e' = Some [] ∧
      mIMap e' = [] ∧ mOMap e' = []) ∧
  ((∀ ins n (u u' : U), ProcessBlock ins n u ≠ ThrowsAudacityException u') →
   ∀ fuel (e e' : Effect U), DoEffect fuel e ≠ Some (e', Propagates)).
Proof.
  split_and!.
  - intros c r u fuel Hc HB. rewrite block_loop_step by done.
    apply iteration_fatal in HB as (r' & -> & _). exists r'. split; [done|].
    simpl. by destruct (ProcessFinalize _).
  - intros c r u fuel Hc HB. rewrite block_loop_step by done.
    apply iteration_other in HB as (r' & -> & _). exists r'. split; [done|].
    simpl. by destruct (ProcessFinalize _).
  - intros fuel e e1. apply Process_propagates.
  - intros fuel e e' HD.
    apply DoEffect_not_committed in HD as (?&?&?&_&Ho); [|done].
    by rewrite Ho.
  - intros Hnf fuel e e'. by apply DoEffect_not_propagates.
Qed.

(** An [AudacityException] from the second call of [ProcessBlock] leaves
    [DoEffect], with the working copies discarded and the project as it was. *)
Lemma exceptions_of_ProcessBlock_witness :
  ∃ e', DoEffect (H := delay_client (throwing_delay 1 1 true)) 100 exception_project
        = Some (e', Propagates) ∧
        mTracks e' = mTracks exception_project ∧ mOutputTracks e' = Some [] ∧
        mIMap e' = [] ∧ mOMap e' = [].
Proof.
  destruct (DoEffect (H := delay_client (throwing_delay 1 1 true)) 100 exception_project)
    as [[e' res]|] eqn:E; [|vm_compute in E; discriminate E].
  assert (res = Propagates) as ->.
  { pose proof E as E'. vm_compute in E'. by injection E' as _ <-. }
  exists e'. split; [reflexivity|].
  destruct (exceptions_of_ProcessBlock (H := delay_client (throwing_delay 1 1 true)))
    as (_&_&_&Hd&_).
  exact (Hd _ _ _ E).
Defined.

(** ** Arrays *)

Section Arrays.
Context {A : Type}.
Implicit Types l k : list A.

Lemma list_inserts_split i k l :
  i + length k ≤ length l →
  list_inserts i k l = take i l ++ k ++ drop (i + length k) l.
Proof.
  intros Hlen. apply list_eq. intros j.
  destruct (decide (j < i)) as [Hj|Hj].
  - rewrite list_lookup_inserts_lt by done.
    rewrite lookup_app_l by (rewrite length_take; lia).
    by rewrite lookup_take_lt.
  - destruct (decide (j < i + length k)) as [Hj'|Hj'].
    + rewrite list_lookup_inserts by lia.
      rewrite lookup_app_r by (rewrite length_take; lia).
      rewrite length_take, Nat.min_l by lia.
      by rewrite lookup_app_l by lia.
    + rewrite list_lookup_inserts_ge by lia.
      rewrite lookup_app_r by (rewrite length_take; lia).
      rewrite length_take, Nat.min_l by lia.
      rewrite lookup_app_r by lia.
      rewrite lookup_drop. f_equal. lia.
Qed.

Lemma drop_list_inserts i k l :
  i + length k ≤ length l →
  drop i (list_inserts i k l) = k ++ drop (i + length k) l.
Proof.
  intros Hlen. rewrite list_inserts_split by done.
  rewrite drop_app_length'; [done|]. rewrite length_take. lia.
Qed.

Lemma take_list_inserts i k l : take i (list_inserts i k l) = take i l.
Proof.
  apply list_eq. intros j. destruct (decide (j < i)).
  - rewrite !lookup_take_lt by done. by rewrite list_lookup_inserts_lt.
  - by rewrite !lookup_take_ge by lia.
Qed.

Lemma take_list_inserts_le i j k l : j ≤ i → take j (list_inserts i k l) = take j l.
Proof.
  intros Hj. apply list_eq. intros n. destruct (decide (n < j)).
  - rewrite !lookup_take_lt by done. by rewrite list_lookup_inserts_lt by lia.
  - by rewrite !lookup_take_ge by lia.
Qed.

Lemma drop_list_inserts_ge i j k l :
  i + length k ≤ j → drop j (list_inserts i k l) = drop j l.
Proof.
  intros Hj. apply list_eq. intros n.
  rewrite !lookup_drop. by rewrite list_lookup_inserts_ge by lia.
Qed.
End Arrays.

Lemma memmove_left_spec pos delay n (a : list sample) :
  pos + delay + n ≤ length a →
  take n (drop pos (memmove_left pos delay n a)) = take n (drop (pos + delay) a).
Proof.
  intros Hlen. unfold memmove_left.
  assert (length (take n (drop (pos + delay) a)) = n) as Hl.
  { rewrite length_take, length_drop. lia. }
  rewrite drop_list_inserts by lia.
  rewrite take_app_length'; done.
Qed.

Lemma lookup_for_below {A} n (f : nat → A → A) (a : list A) i :
  for_below n f a !! i = (if decide (i < n) then f i else id) <$> a !! i.
Proof.
  unfold for_below. rewrite list_lookup_imap.
  destruct (a !! i); simpl; [|done]. by case_decide.
Qed.

Lemma length_for_below {A} n (f : nat → A → A) (a : list A) :
  length (for_below n f a) = length a.
Proof. apply length_imap. Qed.

Lemma chan_of_for_below n (f : nat → list sample → list sample) b i :
  i < length b →
  chan_of (for_below n f b) i = if decide (i < n) then f i (chan_of b i) else chan_of b i.
Proof.
  intros Hi. unfold chan_of. rewrite lookup_for_below.
  destruct (lookup_lt_is_Some_2 b i Hi) as [x ->]. simpl. by case_decide.
Qed.

Section Compensation.
Context {U : Type} `{EffectClient U}.

Lemma compensate_not_processor c (r : Run U) :
  isProcessor c = false → compensate c r = r.
Proof. unfold compensate. by intros ->. Qed.

Lemma isProcessor_track_ctx (e : Effect U) u k lt ls n :
  isProcessor (track_ctx e u k lt ls n) = bool_decide (GetType u = EffectTypeProcess).
Proof. done. Qed.

Lemma iteration_after_call c (r r1 : Run U) :
  call_block (next_block c r) = Continue r1 →
  iteration c r = report c (emit c (compensate c (bump_input c r1))).
Proof. unfold iteration. by intros ->. Qed.

(** C3: in the block loop, after every call of [ProcessBlock] that
    returns, a processor-type effect has [curDelay] and [delayRemaining]
    increased by [GetLatency()]; then a block no longer than [curDelay] is
    dropped whole ([curBlockSize] becomes 0 and [curDelay] decreases by the
    old [curBlockSize]); otherwise, when [curDelay] is positive, the first
    [curDelay] output samples of each channel are removed by a left shift,
    [curBlockSize] shrinks by [curDelay], and [curDelay] becomes 0.  An
    effect of another type (generator, analyzer) is not compensated. *)
Theorem delay_compensation (c : Ctx) (r : Run U) :
  let delay := (GetLatency (client r)).1 in
  let r' := compensate c r in
  let n := curBlockSize (loc r) in
  let cd := curDelay (loc r) + delay in
  (∀ r0 r1, call_block (next_block c r0) = Continue r1 →
            iteration c r0 = report c (emit c (compensate c (bump_input c r1)))) ∧
  (isProcessor c = true →
     delayRemaining (loc r') = delayRemaining (loc r) + delay ∧
     (n ≤ cd →
        curBlockSize (loc r') = 0 ∧ curDelay (loc r') = cd - n ∧ buf r' = buf r) ∧
     (cd < n → 0 < cd →
        curBlockSize (loc r') = n - cd ∧ curDelay (loc r') = 0 ∧
        outBufPos (buf r') = outBufPos (buf r) ∧
        ∀ i, i < chans c → i < length (outBuffer (buf r)) →
             let pos := pos_of (outBufPos (buf r)) i in
             pos + n ≤ length (chan_of (outBuffer (buf r)) i) →
             take (n - cd) (drop pos (chan_of (outBuffer (buf r')) i))
             = take (n - cd) (drop (pos + cd) (chan_of (outBuffer (buf r)) i))) ∧
     (cd = 0 → 0 < n →
        curBlockSize (loc r') = n ∧ curDelay (loc r') = 0 ∧ buf r' = buf r)) ∧
  (isProcessor c = false → r' = r) ∧
  (∀ (e : Effect U) u k lt ls m,
     GetType u ≠ EffectTypeProcess → isProcessor (track_ctx e u k lt ls m) = false).
Proof.
  cbv zeta. split_and!.
  - intros r0 r1. apply iteration_after_call.
  - intros Hp. unfold compensate. rewrite Hp.
    destruct (GetLatency (client r)) as [delay u]. simpl.
    split_and!.
    + repeat case_decide; done.
    + intros Hle. rewrite decide_True by done. done.
    + intros Hlt Hpos. rewrite decide_False by lia. rewrite decide_True by done.
      simpl. split_and!; try done.
      intros i Hi Hlen Hfit. rewrite chan_of_for_below by done.
      rewrite decide_True by done. apply memmove_left_spec. lia.
    + intros H0 Hn. rewrite decide_False by lia. rewrite decide_False by lia.
      simpl. split_and!; [done|lia|by destruct (buf r)].
  - apply compensate_not_processor.
  - intros e u k lt ls m Hty. rewrite isProcessor_track_ctx.
    by apply bool_decide_eq_false_2.
Qed.
End Compensation.

(** ** The block size of an iteration *)

Lemma zero_fill_view pos base B (a : list sample) :
  base ≤ B → pos + B ≤ length a →
  take B (drop pos (zero_fill (pos + base) (B - base) a))
  = take base (drop pos a) ++ replicate (B - base) 0%Z.
Proof.
  intros Hb Hlen. unfold zero_fill.
  rewrite list_inserts_split by (rewrite length_replicate; lia).
  rewrite length_replicate.
  rewrite drop_app_le by (rewrite length_take; lia).
  rewrite skipn_firstn_comm. replace (pos + base - pos) with base by lia.
  rewrite take_app_ge by (rewrite length_take, length_drop; lia).
  rewrite length_take, length_drop, Nat.min_l by lia.
  f_equal. rewrite take_app_ge by (rewrite length_replicate; lia).
  rewrite length_replicate. replace (B - base - (B - base)) with 0 by lia.
  by rewrite take_0, app_nil_r.
Qed.

Lemma chan_of_input_views b i :
  chan_of (input_views b) i = drop (pos_of (inBufPos b) i) (chan_of (inBuffer b) i).
Proof.
  unfold chan_of, input_views. rewrite list_lookup_imap.
  destruct (inBuffer b !! i); simpl; [done|]. by rewrite drop_nil.
Qed.

Section BlockSize.
Context {U : Type} `{EffectClient U}.

Lemma loc_refill c (r : Run U) :
  loc (refill c r) =
    if decide (inputBufferCnt (loc r) = 0)
    then mkLocals (inLeftPos (loc r)) (inRightPos (loc r)) (outLeftPos (loc r))
                  (outRightPos (loc r)) (inputRemaining (loc r)) (curDelay (loc r))
                  (delayRemaining (loc r)) (curBlockSize (loc r))
                  (limitSampleBufferSize (bufferSize c) (inputRemaining (loc r)))
                  (outputBufferCnt (loc r)) (cleared (loc r))
    else loc r.
Proof. unfold refill. by case_decide. Qed.

Lemma loc_call_block (r : Run U) : loc (step_run (call_block r)) = loc r.
Proof.
  unfold call_block. destruct (ProcessBlock _ _ _); simpl; try done. by case_decide.
Qed.

Lemma loc_input_block c (r : Run U) :
  loc (input_block c r) =
    if decide (inputRemaining (loc r) < blockSize c) then
      let cnt := blockSize c - inputRemaining (loc r) in
      let folded := if decide (delayRemaining (loc r) ≠ 0)
                    then limitSampleBufferSize cnt (delayRemaining (loc r)) else 0 in
      mkLocals (inLeftPos (loc r)) (inRightPos (loc r)) (outLeftPos (loc r))
               (outRightPos (loc r)) 0 (curDelay (loc r))
               (delayRemaining (loc r) - folded) (inputRemaining (loc r) + folded)
               (inputBufferCnt (loc r)) (outputBufferCnt (loc r)) (cleared (loc r))
    else
      mkLocals (inLeftPos (loc r)) (inRightPos (loc r)) (outLeftPos (loc r))
               (outRightPos (loc r)) (inputRemaining (loc r)) (curDelay (loc r))
               (delayRemaining (loc r)) (blockSize c)
               (inputBufferCnt (loc r)) (outputBufferCnt (loc r)) (cleared (loc r)).
Proof. unfold input_block. by case_decide. Qed.

Lemma buf_input_block c (r : Run U) :
  inBuffer (buf (input_block c r)) =
    (if decide (inputRemaining (loc r) < blockSize c)
     then for_below (numChannels c)
            (λ i a, zero_fill (pos_of (inBufPos (buf r)) i + inputRemaining (loc r))
                              (blockSize c - inputRemaining (loc r)) a)
            (inBuffer (buf r))
     else inBuffer (buf r)) ∧
  inBufPos (buf (input_block c r)) = inBufPos (buf r).
Proof. unfold input_block. by case_decide. Qed.

(** C4: on an iteration with input left, [curBlockSize] is the smaller of
    the effect's block size and [inputRemaining]; when that is the last,
    partial block, the rest of the block is zero-filled up to the block
    size and, of the delay owed, as many samples as fit in the block are
    folded into the call: [delayRemaining] decreases and [curBlockSize]
    increases by that count.  Over the iteration the samples given to the
    effect are exactly the input samples and the delay samples taken off
    the two counters. *)
Theorem block_size_selection (c : Ctx) (r : Run U) :
  inputRemaining (loc r) ≠ 0 →
  let r' := next_block c r in
  let base := Nat.min (blockSize c) (inputRemaining (loc r)) in
  let folded := curBlockSize (loc r') - base in
  base ≤ curBlockSize (loc r') ∧ curBlockSize (loc r') ≤ blockSize c ∧
  (blockSize c ≤ inputRemaining (loc r) →
     folded = 0 ∧ inputRemaining (loc r') = inputRemaining (loc r) ∧
     delayRemaining (loc r') = delayRemaining (loc r)) ∧
  (inputRemaining (loc r) < blockSize c →
     inputRemaining (loc r') = 0 ∧
     folded = Nat.min (blockSize c - base) (delayRemaining (loc r)) ∧
     delayRemaining (loc r') = delayRemaining (loc r) - folded ∧
     folded ≤ delayRemaining (loc r) ∧
     ∀ i, i < numChannels c → i < length (inBuffer (buf r')) →
          pos_of (inBufPos (buf r')) i + blockSize c
            ≤ length (chan_of (inBuffer (buf r')) i) →
          drop base (take (blockSize c) (chan_of (input_views (buf r')) i))
          = replicate (blockSize c - base) 0%Z) ∧
  (∀ r1, call_block r' = Continue r1 →
     let l2 := loc (bump_input c r1) in
     inputRemaining (loc r) - inputRemaining l2 = base ∧
     delayRemaining (loc r) - delayRemaining l2 = folded ∧
     inputRemaining l2 + delayRemaining l2 + curBlockSize (loc r')
       = inputRemaining (loc r) + delayRemaining (loc r) ∧
     inLeftPos l2 = inLeftPos (loc r) + curBlockSize (loc r')).
Proof.
  intros Hin. cbv zeta.
  assert (inputRemaining (loc (refill c r)) = inputRemaining (loc r) ∧
          delayRemaining (loc (refill c r)) = delayRemaining (loc r) ∧
          inLeftPos (loc (refill c r)) = inLeftPos (loc r)) as (Hri & Hrd & Hrp).
  { rewrite loc_refill. by case_decide. }
  assert (next_block c r = input_block c (refill c r)) as Hnb.
  { unfold next_block. by rewrite decide_True. }
  set (r' := next_block c r) in *.
  assert (∀ r1, call_block r' = Continue r1 → loc r1 = loc r') as Hcall.
  { intros r1 Hc. pose proof (loc_call_block r') as Hl. by rewrite Hc in Hl. }
  pose proof (loc_input_block c (refill c r)) as Hloc.
  pose proof (buf_input_block c (refill c r)) as Hbuf.
  rewrite <- Hnb in Hloc, Hbuf. rewrite Hri, Hrd in Hloc. rewrite Hri in Hbuf.
  unfold limitSampleBufferSize in Hloc.
  clearbody r'. clear Hnb.
  destruct (decide (inputRemaining (loc r) < blockSize c)) as [Hlast|Hfull].
  - (* the last, partial block *)
    rewrite Hloc. cbn [curBlockSize inputRemaining delayRemaining].
    rewrite (Nat.min_r (blockSize c)) by lia.
    split_and!.
    + lia.
    + case_decide; lia.
    + lia.
    + intros _. split_and!; try done; try (case_decide; lia).
      intros i Hi Hlen Hfit. destruct Hbuf as (Hib & Hip).
      rewrite chan_of_input_views. rewrite Hip.
      rewrite Hib, length_for_below in Hlen.
      rewrite Hib, Hip in Hfit.
      rewrite Hib. rewrite chan_of_for_below in Hfit |- * by done.
      rewrite decide_True in Hfit |- * by done.
      unfold zero_fill in Hfit. rewrite length_inserts in Hfit.
      rewrite zero_fill_view by lia.
      rewrite drop_app_length'; [done|].
      rewrite length_take, length_drop. lia.
    + intros r1 Hc. unfold bump_input. rewrite (Hcall r1 Hc), Hloc.
      cbn [curBlockSize inputRemaining delayRemaining inLeftPos].
      rewrite decide_False by lia. cbn [loc set_loc inputRemaining delayRemaining inLeftPos].
      rewrite Hrp. case_decide; lia.
  - (* a full block *)
    rewrite Hloc. cbn [curBlockSize inputRemaining delayRemaining].
    split_and!; try lia.
    intros r1 Hc. unfold bump_input. rewrite (Hcall r1 Hc), Hloc.
    cbn [curBlockSize inputRemaining delayRemaining inLeftPos].
    rewrite decide_True by done. cbn [loc set_loc inputRemaining delayRemaining inLeftPos].
    rewrite Hrp. lia.
Qed.
End BlockSize.

(** ** Wrong counts from [ProcessBlock] *)

Section Miscount.
Context {U : Type} (H : EffectClient U) (g : nat → nat).
Let H' := miscounting g H.

Lemma same_run_retrace (r r' : Run U) :
  same_run r r' →
  r' = retrace (trace r') r ∧ without_assertions (trace r) = without_assertions (trace r').
Proof.
  intros (Hl&Hb&Hi&Hc&Ht). split; [|done].
  destruct r, r'; simpl in *. unfold retrace. simpl. congruence.
Qed.

Lemma same_run_intro (r : Run U) t :
  without_assertions (trace r) = without_assertions t → same_run r (retrace t r).
Proof. by intros Ht. Qed.

Lemma retrace_trace (r : Run U) : retrace (trace r) r = r.
Proof. by destruct r. Qed.

Lemma next_block_retrace c t (r : Run U) :
  next_block c (retrace t r) = retrace t (next_block c r).
Proof.
  unfold next_block, input_block, refill, delay_block. simpl.
  repeat case_decide; try done. by destruct (cleared (loc r)).
Qed.

Lemma bump_input_retrace c t (r : Run U) :
  bump_input c (retrace t r) = retrace t (bump_input c r).
Proof. unfold bump_input. simpl. by case_decide. Qed.

Lemma compensate_retrace c t (r : Run U) :
  compensate (H := H') c (retrace t r) = retrace t (compensate (H := H) c r).
Proof.
  unfold compensate. simpl. destruct (isProcessor c); [|done].
  destruct (GetLatency (client r)). by repeat case_decide.
Qed.

Lemma emit_retrace c t (r : Run U) :
  emit c (retrace t r) = retrace t (emit c r).
Proof. unfold emit. simpl. by case_decide. Qed.

Lemma report_retrace c t (r : Run U) :
  same_step (report (H := H) c r) (report (H := H') c (retrace t r)) ↔
  without_assertions (trace r) = without_assertions t.
Proof.
  unfold report, TrackGroupProgress, TrackProgress. simpl.
  destruct (hasProgress c); simpl.
  - case_decide; destruct (ProgressUpdate _ _ _ _ _) as [res u]; simpl;
      case_bool_decide; simpl; unfold same_run; simpl; naive_solver.
  - case_decide; simpl; unfold same_run; simpl; naive_solver.
Qed.

Lemma without_assertions_app t1 t2 :
  without_assertions (t1 ++ t2) = without_assertions t1 ++ without_assertions t2.
Proof. apply list.filter_app. Qed.

Lemma without_assertions_failed t :
  without_assertions (t ++ [EvAssertFailed]) = without_assertions t.
Proof. rewrite without_assertions_app. apply app_nil_r. Qed.

Lemma without_assertions_log (r : Run U) ev t :
  without_assertions (trace r) = without_assertions t →
  without_assertions (trace r ++ [ev]) = without_assertions (t ++ [ev]).
Proof. intros Ht. by rewrite !without_assertions_app, Ht. Qed.

Lemma call_block_miscounting (r r' : Run U) :
  same_run r r' →
  same_step (call_block (H := H) r) (call_block (H := H') r').
Proof.
  intros Hs. apply same_run_retrace in Hs as [-> Ht].
  unfold call_block. simpl.
  destruct (ProcessBlock (input_views (buf r)) (curBlockSize (loc r)) (client r))
    as [p outs u|u|u]; simpl.
  - unfold same_run. repeat case_decide; simpl; split_and!; try done;
      rewrite ?without_assertions_failed; by apply without_assertions_log.
  - unfold same_run. simpl. split_and!; try done. by apply without_assertions_log.
  - unfold same_run. simpl. split_and!; try done. by apply without_assertions_log.
Qed.

Lemma iteration_miscounting c (r r' : Run U) :
  same_run r r' →
  same_step (iteration (H := H) c r) (iteration (H := H') c r').
Proof.
  intros Hs. apply same_run_retrace in Hs as [-> Ht].
  unfold iteration. rewrite next_block_retrace.
  pose proof (call_block_miscounting (next_block c r)
                (retrace (trace r') (next_block c r))) as Hc.
  destruct (call_block (H := H) (next_block c r)) as [r1|r1|r1|r1];
    destruct (call_block (H := H') _) as [r1'|r1'|r1'|r1']; simpl in Hc;
    try (by apply Hc, same_run_intro; rewrite trace_next_block);
    try (by exfalso; apply Hc, same_run_intro; rewrite trace_next_block).
  assert (same_run r1 r1') as Hs1.
  { apply Hc, same_run_intro. by rewrite trace_next_block. }
  apply same_run_retrace in Hs1 as [-> Ht1].
  rewrite bump_input_retrace, compensate_retrace, emit_retrace.
  apply report_retrace.
  by rewrite trace_emit, trace_compensate, trace_bump_input.
Qed.

Lemma block_loop_miscounting c fuel (r r' : Run U) :
  same_run r r' →
  match block_loop (H := H) c fuel r, block_loop (H := H') c fuel r' with
  | Some s, Some s' => same_step s s'
  | None, None => True
  | _, _ => False
  end.
Proof.
  revert r r'. induction fuel as [|fuel IH]; intros r r' Hs; simpl.
  - destruct Hs as (Hl&?). rewrite <- Hl. case_decide; [|done]. simpl. by split.
  - pose proof Hs as (Hl&?). rewrite <- Hl. case_decide; [done|].
    pose proof (iteration_miscounting c r r' Hs) as Hi.
    destruct (iteration (H := H) c r); destruct (iteration (H := H') c r');
      simpl in Hi; try done.
    by apply IH.
Qed.

Lemma finish_miscounting c (s s' : Step (U := U)) :
  same_step s s' →
  same_run (finish (H := H) c s).1 (finish (H := H') c s').1 ∧
  (finish (H := H) c s).2 = (finish (H := H') c s').2.
Proof.
  destruct s as [r|r|r|r]; destruct s' as [r'|r'|r'|r']; simpl; try done;
    intros Hs; apply same_run_retrace in Hs as [-> Ht]; simpl.
  - destruct (decide (outputBufferCnt (loc r) ≠ 0)); destruct (isGenerator c); simpl;
      destruct (ProcessFinalize _); simpl; done.
  - destruct (ProcessFinalize _); done.
  - destruct (ProcessFinalize _); done.
  - destruct (ProcessFinalize _); done.
Qed.

Lemma ProcessTrack_miscounting fuel (e : Effect U) k map lt rt ls rs n b :
  match ProcessTrack (H := H) fuel e k map lt rt ls rs n b,
        ProcessTrack (H := H') fuel e k map lt rt ls rs n b with
  | Some (r, res), Some (r', res') => same_run r r' ∧ res = res'
  | None, None => True
  | _, _ => False
  end.
Proof.
  unfold ProcessTrack. simpl.
  destruct (ProcessInitialize n map (mClient e)) as [ok u].
  change (track_ctx (H := H') e u k lt ls n) with (track_ctx (H := H) e u k lt ls n).
  set (c := track_ctx e u k lt ls n).
  destruct ok; [|by split].
  pose proof (block_loop_miscounting c fuel
                (initial_run c u (mTrace e) lt rt rs b)
                (initial_run c u (mTrace e) lt rt rs b)) as Hl.
  assert (same_run (initial_run c u (mTrace e) lt rt rs b)
                   (initial_run c u (mTrace e) lt rt rs b)) as Hrefl by done.
  specialize (Hl Hrefl).
  destruct (block_loop (H := H) c fuel _) as [s|];
    destruct (block_loop (H := H') c fuel _) as [s'|]; try done.
  apply (finish_miscounting c) in Hl as [Hr Hres].
  destruct (finish (H := H) c s), (finish (H := H') c s'). done.
Qed.
End Miscount.

(** With a latency of 1 reported after a block of 4 samples, 3 samples
    remain, shifted left by one. *)
Lemma delay_compensation_witness :
  let r' := compensate (H := delay_client (plain_delay 1 false)) shift_ctx shift_run in
  curBlockSize (loc r') = 3 ∧ curDelay (loc r') = 0 ∧
  take 3 (chan_of (outBuffer (buf r')) 0) = [20; 30; 40]%Z.
Proof.
  destruct (delay_compensation (H := delay_client (plain_delay 1 false))
              shift_ctx shift_run) as (_ & Hp & _).
  destruct (Hp eq_refl) as (_ & _ & Hs & _).
  destruct Hs as (H1 & H2 & _ & H4); [vm_compute; lia..|].
  split; [exact H1|]. split; [exact H2|].
  specialize (H4 0). cbv zeta in H4.
  etransitivity; [apply H4; vm_compute; lia|]. reflexivity.
Defined.

(** With 2 input samples left and 3 delay samples owed, the last block
    takes the 2 input samples and 2 delay samples. *)
Lemma block_size_selection_witness :
  let r' := next_block shift_ctx partial_run in
  curBlockSize (loc r') = 4 ∧ inputRemaining (loc r') = 0 ∧ delayRemaining (loc r') = 1.
Proof.
  assert (inputRemaining (loc partial_run) ≠ 0) as Hin by (vm_compute; lia).
  destruct (block_size_selection (H := delay_client (plain_delay 1 false))
              shift_ctx partial_run Hin) as (_ & _ & _ & Hlast & _).
  destruct Hlast as (H1 & _ & H3 & _); [vm_compute; lia|].
  split; [reflexivity|]. split; [exact H1|]. rewrite H3. reflexivity.
Defined.

(** C8: when [ProcessBlock] returns a count other than [curBlockSize], the
    call goes on as a call that returns: the outputs are taken, the state
    of the loop is what it would be with the right count, and only the
    failed assertion is reported; a group processed by an effect that
    returns wrong counts ends with the same tracks, buffers, effect state
    and result as with the right counts. *)
Theorem miscount_tolerated {U : Type} (H : EffectClient U) (g : nat → nat) :
  (∀ (r : Run U) p outs u,
     ProcessBlock (input_views (buf r)) (curBlockSize (loc r)) (client r)
       = Processed p outs u →
     ∃ r1, call_block r = Continue r1 ∧
           loc r1 = loc r ∧ io r1 = io r ∧ client r1 = u ∧
           buf r1 = mkBuffers (inBuffer (buf r)) (write_outputs outs (buf r))
                              (inBufPos (buf r)) (outBufPos (buf r)) ∧
           trace r1 = trace r
                      ++ EvProcessBlock (input_views (buf r)) (curBlockSize (loc r))
                         :: (if decide (p = curBlockSize (loc r)) then []
                             else [EvAssertFailed])) ∧
  (∀ fuel (e : Effect U) k map lt rt ls rs n b,
     match ProcessTrack (H := H) fuel e k map lt rt ls rs n b,
           ProcessTrack (H := miscounting g H) fuel e k map lt rt ls rs n b with
     | Some (r, res), Some (r', res') => same_run r r' ∧ res = res'
     | None, None => True
     | _, _ => False
     end).
Proof.
  split.
  - intros r p outs u HB. unfold call_block. rewrite HB.
    eexists. split; [done|]. case_decide; simpl; split_and!; try done.
    by rewrite <- app_assoc.
  - intros. apply ProcessTrack_miscounting.
Qed.

(** A call that returns 5 for a block of 4 samples goes on, with one
    failed assertion reported. *)
Lemma miscount_tolerated_witness :
  ∃ r1, call_block (H := miscounting S (delay_client (plain_delay 1 false))) shift_run
        = Continue r1 ∧
        loc r1 = loc shift_run ∧ assertions_of (trace r1) = 1.
Proof.
  destruct (ProcessBlock (EffectClient := miscounting S (delay_client (plain_delay 1 false)))
              (input_views (buf shift_run)) (curBlockSize (loc shift_run))
              (client shift_run)) as [p outs u|u|u] eqn:E;
    [|vm_compute in E; discriminate E..].
  assert (p = 5) as -> by (vm_compute in E; by injection E as <- _ _).
  destruct (miscount_tolerated (miscounting S (delay_client (plain_delay 1 false))) S)
    as [Hcall _].
  destruct (Hcall shift_run 5 outs u E) as (r1 & Hc & Hl & _ & _ & _ & Ht).
  exists r1. split; [exact Hc|]. split; [exact Hl|].
  rewrite Ht. reflexivity.
Defined.

(** ** The Buffer Manager *)

Lemma ceil_div_spec a b :
  (0 < b → 0 ≤ a → (a + (b - 1)) / b = ceil_div a b)%Z.
Proof.
  intros Hb Ha. unfold ceil_div.
  assert (a + (b - 1) = (a - 1) + 1 * b)%Z as -> by lia.
  rewrite Z.div_add by lia.
  assert (- a = (- a + b) + (- 1) * b)%Z as -> by lia.
  rewrite Z.div_add by lia.
  assert (- a + b = b - a)%Z as -> by lia.
  (* (a - 1) / b + 1 = - ((b - a) / b - 1) *)
  pose proof (Z.div_mod (a - 1) b ltac:(lia)) as H1.
  pose proof (Z.mod_pos_bound (a - 1) b Hb) as H2.
  pose proof (Z.div_mod (b - a) b ltac:(lia)) as H3.
  pose proof (Z.mod_pos_bound (b - a) b Hb) as H4.
  nia.
Qed.

Lemma ceil_div_bounds a b :
  (0 < b → 0 ≤ a → a ≤ ceil_div a b * b < a + b)%Z.
Proof.
  intros Hb Ha. rewrite <- ceil_div_spec by done.
  pose proof (Z.div_mod (a + (b - 1)) b ltac:(lia)) as H1.
  pose proof (Z.mod_pos_bound (a + (b - 1)) b Hb) as H2.
  nia.
Qed.

Lemma size_t_small z : (0 ≤ z < 2 ^ 64)%Z → size_t z = z.
Proof. intros. unfold size_t. by apply Z.mod_small. Qed.

Section BufferManager.
Context {U : Type} `{EffectClient U}.

Lemma length_new_inBuffer numIn size :
  length (new_inBuffer numIn size) = numIn ∧
  Forall (λ a, length a = size) (new_inBuffer numIn size).
Proof.
  unfold new_inBuffer. split; [by rewrite length_fmap, length_seq|].
  apply Forall_fmap, list.Forall_forall. intros i _. simpl.
  case_decide; [by rewrite length_replicate|by rewrite length_fmap, length_seq].
Qed.

Lemma length_new_outBuffer numIn numOut size :
  length (new_outBuffer numIn numOut size) = numOut ∧
  Forall (λ a, length a = size) (new_outBuffer numIn numOut size).
Proof.
  unfold new_outBuffer. split; [by rewrite length_fmap, length_seq|].
  apply Forall_fmap, list.Forall_forall. intros i _. simpl.
  by rewrite length_fmap, length_seq.
Qed.

Lemma Forall_alter_length (f : list sample → list sample) i n (b : FloatBuffers) :
  (∀ a, length (f a) = length a) →
  Forall (λ a, length a = n) b → Forall (λ a, length a = n) (alter f i b).
Proof.
  intros Hf Hb. apply Forall_lookup_2. intros j a Hj.
  destruct (decide (i = j)) as [->|Hne].
  - rewrite list_lookup_alter_eq in Hj.
    destruct (b !! j) as [a0|] eqn:Hb0; simplify_eq/=.
    rewrite Hf. eapply (Forall_lookup_1 _ _ _ _ Hb Hb0).
  - rewrite list_lookup_alter_ne in Hj by done.
    eapply (Forall_lookup_1 _ _ _ _ Hb Hj).
Qed.

(** What the Buffer Manager computes, whatever the sizes are. *)
Lemma buffer_manager_sizes leftT hasRight (st : PassState) :
  let e := pEffect st in
  let max := size_t (GetMaxBlockSize leftT * 2) in
  let bs := (SetBlockSize max (SetSampleRate (GetRate leftT) (mClient e))).1 in
  let bsz := size_t (size_t (size_t (max + size_t (bs - 1)) / bs) * bs) in
  let st' := buffer_manager leftT hasRight st in
  mBlockSize (pEffect st') = bs ∧ mBufferSize (pEffect st') = bsz ∧
  mTrace (pEffect st') =
    mTrace e ++ (if decide (mBufferSize e = bsz) then []
                 else [EvReinit (mNumAudioIn e) (mNumAudioOut e) bsz (size_t (bsz + bs))]) ∧
  (mBufferSize e ≠ bsz →
     length (inBuffer (pBuffers st')) = mNumAudioIn e ∧
     Forall (λ a, length a = Z.to_nat bsz) (inBuffer (pBuffers st')) ∧
     length (outBuffer (pBuffers st')) = mNumAudioOut e ∧
     Forall (λ a, length a = Z.to_nat (size_t (bsz + bs))) (outBuffer (pBuffers st'))) ∧
  (mBufferSize e = bsz →
     outBuffer (pBuffers st') = outBuffer (pBuffers st) ∧
     inBuffer (pBuffers st') =
       (if negb hasRight && negb (pClear st) && bool_decide (1 < mNumAudioIn e)
        then alter (zero_fill 0 (Z.to_nat bsz)) 1 (inBuffer (pBuffers st))
        else inBuffer (pBuffers st)) ∧
     inBufPos (pBuffers st') = for_below (mNumAudioIn e) (λ _ _, 0) (inBufPos (pBuffers st)) ∧
     outBufPos (pBuffers st')
       = for_below (mNumAudioOut e) (λ _ _, 0) (outBufPos (pBuffers st))).
Proof.
  cbv zeta. unfold buffer_manager.
  destruct (SetBlockSize _ _) as [bs u2]. cbn [fst].
  set (max := size_t (GetMaxBlockSize leftT * 2)).
  set (bsz := size_t (size_t (size_t (max + size_t (bs - 1)) / bs) * bs)).
  split_and!.
  - by case_bool_decide.
  - by case_bool_decide.
  - case_bool_decide; [by rewrite decide_False|rewrite decide_True by done].
    simpl. by rewrite app_nil_r.
  - intros Hne. rewrite bool_decide_eq_true_2 by done.
    destruct (length_new_inBuffer (mNumAudioIn (pEffect st)) (Z.to_nat bsz)) as [Hi1 Hi2].
    destruct (length_new_outBuffer (mNumAudioIn (pEffect st)) (mNumAudioOut (pEffect st))
                (Z.to_nat (size_t (bsz + bs)))) as [Ho1 Ho2].
    destruct (negb hasRight && negb (pClear st) && _); simpl; split_and!; try done.
    + by rewrite length_alter.
    + apply Forall_alter_length; [|done]. intros a. unfold zero_fill.
      apply length_inserts.
  - intros Heq. rewrite bool_decide_eq_false_2 by (by intros ?).
    destruct (negb hasRight && negb (pClear st) && _); simpl; done.
Qed.
End BufferManager.

Lemma reinits_of_block evs : Forall block_event evs → reinits_of evs = [].
Proof.
  induction 1 as [|ev evs Hev _ IH]; [done|]. by destruct ev.
Qed.

Lemma reinits_of_app t1 t2 : reinits_of (t1 ++ t2) = reinits_of t1 ++ reinits_of t2.
Proof. apply omap_app. Qed.

Section Groups.
Context {U : Type} `{EffectClient U}.

(** What a group leaves in the effect object: the sizes its Buffer Manager
    computed, and one more allocation in the trace when the buffer size
    is not the one the group found. *)
Lemma process_group_sizes fuel mc g i lt (st st' : PassState) res :
  process_group fuel mc g i lt st = Some (st', res) →
  let max := size_t (GetMaxBlockSize lt * 2) in
  let bs := (SetBlockSize max (SetSampleRate (GetRate lt) (mClient (pEffect st)))).1 in
  let bsz := size_t (size_t (size_t (max + size_t (bs - 1)) / bs) * bs) in
  mBlockSize (pEffect st') = bs ∧ mBufferSize (pEffect st') = bsz ∧
  reinits_of (mTrace (pEffect st')) =
    reinits_of (mTrace (pEffect st)) ++
    (if decide (mBufferSize (pEffect st) = bsz) then [] else [(bsz, size_t (bsz + bs))]).
Proof.
  unfold process_group.
  destruct (if g then _ else _) as [ls n].
  set (rt := if mc && GetLinked lt then _ else _).
  destruct (match rt with Some _ => _ | None => _ end) as [rs n'] eqn:Hrs.
  set (st0 := mkPass _ _ _ _).
  pose proof (buffer_manager_sizes lt (bool_decide (is_Some rt)) st0) as Hsz.
  cbv zeta in Hsz. destruct Hsz as (Hbs & Hbsz & Htr & _).
  destruct (ProcessTrack _ _ _ _ _ _ _ _ _ _) as [[r res']|] eqn:HPT; [|done].
  intros [= <- <-]. cbv zeta. cbn [pEffect].
  apply trace_ProcessTrack in HPT as (evs' & Ht' & Hev').
  subst st0. cbn [pEffect] in *. revert Hbs Hbsz Htr Ht'. effect_simpl.
  intros Hbs Hbsz Htr Ht'. split; [exact Hbs|]. split; [exact Hbsz|].
  rewrite Ht', Htr, !reinits_of_app, (reinits_of_block evs'), !app_nil_r by done.
  rewrite <- ?app_assoc. f_equal. case_decide; reflexivity.
Qed.
End Groups.

Lemma pos_of_for_below n ps i : i < n → pos_of (for_below n (λ _ _, 0) ps) i = 0.
Proof.
  intros Hi. unfold pos_of. rewrite lookup_for_below, decide_True by done.
  by destruct (ps !! i).
Qed.

Section Reallocation.
Context {U : Type} `{EffectClient U}.

(** The Buffer Manager leaves every position at the start of its array. *)
Lemma buffer_manager_positions leftT hasRight (st : PassState) :
  let st' := buffer_manager leftT hasRight st in
  (∀ i, i < mNumAudioIn (pEffect st) → pos_of (inBufPos (pBuffers st')) i = 0) ∧
  (∀ i, i < mNumAudioOut (pEffect st) → pos_of (outBufPos (pBuffers st')) i = 0).
Proof.
  cbv zeta. unfold buffer_manager. destruct (SetBlockSize _ _) as [bs u2].
  destruct (negb hasRight && negb (pClear st) && _); simpl;
    split; intros i Hi; by apply pos_of_for_below.
Qed.

Lemma size_t_buffer_size requested bs :
  (0 ≤ requested → 0 < bs → requested + 2 * bs ≤ 2 ^ 64 →
   size_t (size_t (size_t (requested + size_t (bs - 1)) / bs) * bs)
     = spec_bufferSize requested bs ∧
   size_t (spec_bufferSize requested bs + bs) = spec_bufferSize requested bs + bs)%Z.
Proof.
  intros Hr Hb Hmax. unfold spec_bufferSize.
  pose proof (ceil_div_bounds requested bs Hb Hr) as Hc.
  rewrite <- ceil_div_spec in Hc |- * by done.
  rewrite (size_t_small (bs - 1)) by lia.
  rewrite (size_t_small (requested + (bs - 1))) by lia.
  assert (0 ≤ (requested + (bs - 1)) / bs ≤ requested + (bs - 1))%Z as Hq.
  { split; [apply Z.div_pos; lia|]. apply Z.div_le_upper_bound; nia. }
  rewrite (size_t_small ((requested + (bs - 1)) / bs)) by lia.
  split; apply size_t_small; lia.
Qed.
End Reallocation.







(** ** The input side of the block loop *)

Lemma resize_drop {A} (x : A) n p (l : list A) :
  drop p (resize n x l) = resize (n - p) x (drop p l).
Proof.
  revert n l. induction p as [|p IH]; intros n l.
  - by rewrite Nat.sub_0_r.
  - destruct n as [|n]; [by rewrite !resize_0|].
    destruct l as [|a l]; simpl; [|apply IH].
    by rewrite drop_replicate, resize_nil.
Qed.

Lemma take_resize_self {A} (x : A) n m (l : list A) :
  n ≤ m → take n (resize m x l) = resize n x l.
Proof. intros Hle. by rewrite take_resize, Nat.min_l. Qed.

Lemma block_of_window B k len (s : list sample) :
  k * B + B ≤ len →
  block_of B k (resize len 0%Z s) = resize B 0%Z (drop (k * B) s).
Proof.
  intros Hle. unfold block_of. rewrite resize_drop.
  apply resize_resize. lia.
Qed.

Lemma block_of_partial B k len (s : list sample) :
  k * B ≤ len → len < k * B + B →
  block_of B k (resize len 0%Z s)
  = resize (len - k * B) 0%Z (drop (k * B) s) ++ replicate (B - (len - k * B)) 0%Z.
Proof.
  intros Hle Hlt. unfold block_of. rewrite resize_drop.
  rewrite (resize_spec (resize _ _ _)), length_resize.
  rewrite take_ge by (rewrite length_resize; lia). done.
Qed.

Lemma block_of_silence B k (x : list sample) :
  length x ≤ k * B → block_of B k x = replicate B 0%Z.
Proof.
  intros Hle. unfold block_of. rewrite drop_ge by done. apply resize_nil.
Qed.

Section InputSide.
Context {U : Type} `{EffectClient U}.

Lemma same_input_refl (r : Run U) : same_input r r.
Proof. by repeat split. Qed.

Lemma same_input_trans (r1 r2 r3 : Run U) :
  same_input r1 r2 → same_input r2 r3 → same_input r1 r3.
Proof. unfold same_input. intros (?&?&?&?&?&?&?) (?&?&?&?&?&?&?). split_and!; congruence. Qed.

Lemma same_input_call_block (r : Run U) : same_input r (step_run (call_block r)).
Proof.
  unfold call_block. destruct (ProcessBlock _ _ _); simpl; try by repeat split.
  case_decide; by repeat split.
Qed.

Lemma same_input_compensate c (r : Run U) : same_input r (compensate c r).
Proof.
  unfold compensate. destruct (isProcessor c); [|apply same_input_refl].
  destruct (GetLatency (client r)). repeat case_decide; by repeat split.
Qed.

Lemma same_input_emit c (r : Run U) : same_input r (emit c r).
Proof. unfold emit. case_decide; by repeat split. Qed.

Lemma same_input_report c (r : Run U) : same_input r (step_run (report c r)).
Proof.
  unfold report, TrackGroupProgress, TrackProgress.
  repeat case_match; simplify_eq; by repeat split.
Qed.

Lemma same_input_bump c (r r' : Run U) :
  same_input r r' → curBlockSize (loc r') = curBlockSize (loc r) →
  same_input (bump_input c r) (bump_input c r').
Proof.
  unfold same_input, bump_input. intros (Hb&Hp&?&?&Hi&?&?) Hc.
  rewrite Hi, Hc, Hp. case_decide; simpl; split_and!; congruence.
Qed.

(** An iteration leaves the input side as the head of the iteration and
    the bump of the input positions make it. *)
Lemma same_input_iteration c (r r' : Run U) :
  iteration c r = Continue r' → same_input (bump_input c (next_block c r)) r'.
Proof.
  unfold iteration. intros Hit.
  pose proof (same_input_call_block (next_block c r)) as Hcall.
  pose proof (loc_call_block (next_block c r)) as Hloc.
  destruct (call_block (next_block c r)) as [r1| | |]; try done. simpl in *.
  eapply same_input_trans; [apply same_input_bump; [done|by rewrite Hloc]|].
  eapply same_input_trans; [apply same_input_compensate|].
  eapply same_input_trans; [apply same_input_emit|].
  pose proof (same_input_report c (emit c (compensate c (bump_input c r1)))) as Hr.
  by rewrite Hit in Hr.
Qed.
End InputSide.

Section OutputSide.
Context {U : Type} `{EffectClient U}.



Lemma same_output_next_block c (r : Run U) : same_output r (next_block c r).
Proof.
  unfold next_block, input_block, delay_block, refill.
  repeat case_decide; try (by repeat split).
  destruct (cleared (loc r)); by repeat split.
Qed.


Lemma same_output_bump c (r : Run U) : same_output r (bump_input c r).
Proof. unfold bump_input. case_decide; by repeat split. Qed.






End OutputSide.

Section Invariants.
Context {U : Type} `{EffectClient U}.
Variable c : Ctx.
Variable s0 : Sinks.
Variable rightStart : nat.

Local Notation out_inv := (out_inv c s0 rightStart).




End Invariants.

Lemma chan_of_alter (f : list sample → list sample) j (b : FloatBuffers) i :
  chan_of (alter f j b) i = if decide (i = j) then
                              match b !! i with Some a => f a | None => [] end
                            else chan_of b i.
Proof.
  unfold chan_of. case_decide as Hd.
  - subst. rewrite list_lookup_alter_eq. by destruct (b !! j).
  - by rewrite list_lookup_alter_ne.
Qed.

Lemma chan_of_lookup (b : FloatBuffers) i a : b !! i = Some a → chan_of b i = a.
Proof. unfold chan_of. by intros ->. Qed.

Lemma pos_of_for_below_f n (f : nat → nat → nat) ps i :
  i < length ps →
  pos_of (for_below n f ps) i = if decide (i < n) then f i (pos_of ps i) else pos_of ps i.
Proof.
  intros Hi. unfold pos_of. rewrite lookup_for_below.
  destruct (lookup_lt_is_Some_2 ps i Hi) as [x ->]. simpl. by case_decide.
Qed.

Lemma length_chan_of n (b : FloatBuffers) i :
  Forall (λ a, length a = n) b → i < length b → length (chan_of b i) = n.
Proof.
  intros Hall Hi. destruct (lookup_lt_is_Some_2 b i Hi) as [a Ha].
  rewrite (chan_of_lookup _ _ _ Ha). by apply (Forall_lookup_1 _ _ _ _ Hall Ha).
Qed.

Lemma Forall_for_below_length n m (f : nat → list sample → list sample) (b : FloatBuffers) :
  (∀ i a, length (f i a) = length a) →
  Forall (λ a, length a = m) b → Forall (λ a, length a = m) (for_below n f b).
Proof.
  intros Hf Hb. apply Forall_lookup_2. intros j a Hj.
  rewrite lookup_for_below in Hj.
  destruct (b !! j) as [a0|] eqn:Hb0; simplify_eq/=.
  pose proof (Forall_lookup_1 _ _ _ _ Hb Hb0) as Hl. simpl in Hl.
  case_decide; simpl; [by rewrite Hf|done].
Qed.

Lemma tail_window (a q p : nat) (s s' : list sample) :
  drop (a + q) s = drop (a + q) s' → q ≤ p → drop (a + p) s = drop (a + p) s'.
Proof.
  intros Hd Hle. replace (a + p) with (a + q + (p - q)) by lia.
  rewrite <- (drop_drop s), <- (drop_drop s'). by rewrite Hd.
Qed.

Lemma take_list_inserts_0 (k l : list sample) :
  length k ≤ length l → take (length k) (list_inserts 0 k l) = k.
Proof.
  intros Hle. rewrite <- (drop_0 (list_inserts 0 k l)).
  rewrite drop_list_inserts by (simpl; lia). by rewrite take_app_length.
Qed.

Ltac run_simpl :=
  cbn [loc buf io client trace set_loc set_buf set_io set_client
       inBuffer outBuffer inBufPos outBufPos
       inLeftPos inRightPos outLeftPos outRightPos inputRemaining curDelay
       delayRemaining curBlockSize inputBufferCnt outputBufferCnt cleared] in *.

Section InputInvariant.
Context {U : Type} `{EffectClient U}.
Variable c : Ctx.
Variable s0 : Sinks.
Variable rightStart : nat.

Hypothesis HB : 0 < blockSize c.
Hypothesis HBS : ∃ m, bufferSize c = S m * blockSize c.
Hypothesis Hnc : ∀ i, is_Some (track_of s0 i) → i < numChannels c.

Local Notation filled := (filled c s0 rightStart).
Local Notation in_inv := (in_inv c s0 rightStart).

Lemma in_inv_same k p (r r' : Run U) : same_input r r' → in_inv k p r → in_inv k p r'.
Proof.
  intros (Hb & Hp & Hl & Hr & Hi & Hn & Hc) [? ? ? ? ? Hmore Hdone].
  split; rewrite ?Hb, ?Hp, ?Hl, ?Hr, ?Hi, ?Hn, ?Hc; try done.
  intros Hne. destruct (Hmore Hne) as (?&?&?&Hf). split_and!; try done.
  intros Hcnt. unfold filled in *. rewrite ?Hb, ?Hp, ?Hi, ?Hn. by apply Hf.
Qed.

Lemma bufferSize_block : blockSize c ≤ bufferSize c.
Proof. destruct HBS as [m ->]. lia. Qed.

(** Refilling gives a filled buffer. *)
Lemma refill_filled k p q (r : Run U) :
  in_inv k p r → out_inv c s0 rightStart p q r → inputRemaining (loc r) ≠ 0 →
  let r2 := refill c r in
  filled p r2 ∧ inputBufferCnt (loc r2) ≠ 0 ∧
  Forall (λ a, length a = bufferSize c) (inBuffer (buf r2)) ∧
  length (inBuffer (buf r2)) = length (inBuffer (buf r)) ∧
  length (inBufPos (buf r2)) = length (inBufPos (buf r)) ∧
  inLeftPos (loc r2) = inLeftPos (loc r) ∧ inRightPos (loc r2) = inRightPos (loc r) ∧
  inputRemaining (loc r2) = inputRemaining (loc r) ∧ cleared (loc r2) = cleared (loc r) ∧
  delayRemaining (loc r2) = delayRemaining (loc r).
Proof.
  intros [Hrows Hch Hps Hl Hr Hmore _] [Hol Hor Hbeh Htails] Hne. cbv zeta.
  destruct (Hmore Hne) as (Hp & Hsum & Hcl & Hfill).
  unfold refill. case_decide as Hcnt; [|by split_and!; auto].
  pose proof bufferSize_block as HBle.
  set (cnt := limitSampleBufferSize (bufferSize c) (inputRemaining (loc r))).
  assert (cnt ≠ 0 ∧ cnt ≤ bufferSize c ∧ cnt ≤ inputRemaining (loc r) ∧
          (cnt = inputRemaining (loc r) ∨ cnt = bufferSize c)) as (Hc0 & Hc1 & Hc2 & Hc3).
  { subst cnt. unfold limitSampleBufferSize. lia. }
  set (inb1 := alter _ 0 (inBuffer (buf r))).
  set (inb2 := match rightTrack (io r) with Some _ => _ | None => _ end).
  assert (Forall (λ a, length a = bufferSize c) inb1) as Hrows1.
  { apply Forall_alter_length; [|done]. intros a. apply length_inserts. }
  assert (Forall (λ a, length a = bufferSize c) inb2) as Hrows2.
  { subst inb2. destruct (rightTrack (io r)); [|done].
    apply Forall_alter_length; [|done]. intros a. apply length_inserts. }
  assert (length inb2 = length (inBuffer (buf r))) as Hlen2.
  { subst inb2 inb1. destruct (rightTrack (io r)); by rewrite ?length_alter. }
  simpl. split_and!; try done; [|by rewrite length_for_below].
  exists 0. simpl. split_and!.
  - intros i Hi. apply pos_of_for_below. done.
  - by exists 0.
  - done.
  - done.
  - destruct Hc3 as [?|Hc3]; [by left|right]. destruct HBS as [m Hm]. exists (S m). lia.
  - intros i t0 Hi. rewrite drop_0.
    assert (i < numChannels c) as Hinc by (by apply Hnc; rewrite Hi).
    destruct (Htails i t0 Hi) as (t & Hti & Htail).
    apply (tail_window _ _ p) in Htail; [|lia].
    assert (i < length (inBuffer (buf r))) as Hilen by lia.
    destruct (lookup_lt_is_Some_2 _ i Hilen) as [a Ha].
    pose proof (Forall_lookup_1 _ _ _ _ Hrows Ha) as Hla. simpl in Hla.
    assert (chan_of inb2 i
            = list_inserts 0 (resize cnt 0%Z (drop (start_of c rightStart i + p) (samples t))) a)
      as ->.
    { subst inb2 inb1. destruct i as [|[|i]]; simpl in Hti; [| |done].
      - injection Hti as <-.
        assert (chan_of (alter (list_inserts 0 (Track_Get (leftTrack (io r))
                  (inLeftPos (loc r)) cnt)) 0 (inBuffer (buf r))) 0
                = list_inserts 0 (Track_Get (leftTrack (io r)) (inLeftPos (loc r)) cnt) a) as E.
        { rewrite chan_of_alter, decide_True by done. by rewrite Ha. }
        destruct (rightTrack (io r)).
        + rewrite chan_of_alter, decide_False by done. rewrite E.
          unfold Track_Get. by rewrite Hl.
        + rewrite E. unfold Track_Get. by rewrite Hl.
      - rewrite Hti. rewrite chan_of_alter, decide_True by done.
        rewrite list_lookup_alter_ne by done. rewrite Ha.
        unfold Track_Get. by rewrite Hr. }
    rewrite Htail.
    set (d := resize cnt 0%Z _).
    assert (length d = cnt) as Hd by apply length_resize.
    rewrite <- Hd at 1. apply take_list_inserts_0. lia.
Qed.

(** The block a filled buffer gives when a whole block of input is left. *)
Lemma full_block k p (r : Run U) :
  filled p r → inputBufferCnt (loc r) ≠ 0 → blockSize c ≤ inputRemaining (loc r) →
  p = k * blockSize c → p + inputRemaining (loc r) = len c →
  blockSize c ≤ inputBufferCnt (loc r) ∧
  ∀ i t0, track_of s0 i = Some t0 →
    take (blockSize c) (chan_of (input_views (buf r)) i)
    = block_of (blockSize c) k (stream c rightStart i t0).
Proof.
  intros (P & Hpos & HP & Hfit & Hle & Hmul & Hdata) Hcnt Hfull Hp Hsum.
  assert (blockSize c ≤ inputBufferCnt (loc r)) as HBc.
  { destruct Hmul as [->|[m Hm]]; [done|]. destruct m; [lia|]. rewrite Hm. lia. }
  split; [done|]. intros i t0 Hi.
  assert (i < numChannels c) as Hinc by (by apply Hnc; rewrite Hi).
  rewrite chan_of_input_views, (Hpos i Hinc).
  assert (∀ l : list sample, take (blockSize c) l
            = take (blockSize c) (take (inputBufferCnt (loc r)) l)) as ->.
  { intros l. by rewrite take_take, Nat.min_l. }
  rewrite (Hdata i t0 Hi), take_resize_self by done.
  unfold stream, Track_Get. rewrite block_of_window by lia.
  by rewrite drop_drop, Hp.
Qed.

(** The head of an iteration that has a whole block of input left. *)
Lemma next_block_full k p q (r : Run U) :
  in_inv k p r → out_inv c s0 rightStart p q r →
  blockSize c ≤ inputRemaining (loc r) →
  let r1 := next_block c r in
  curBlockSize (loc r1) = blockSize c ∧
  (∀ i t0, track_of s0 i = Some t0 →
     take (blockSize c) (chan_of (input_views (buf r1)) i)
     = block_of (blockSize c) k (stream c rightStart i t0)) ∧
  in_inv (S k) (p + blockSize c) (bump_input c r1).
Proof.
  intros Hin Hout Hfull. cbv zeta.
  assert (inputRemaining (loc r) ≠ 0) as Hne by lia.
  destruct (refill_filled k p q r Hin Hout Hne)
    as (Hfill & Hcnt & Hrows & Hlen & Hplen & Hl & Hr & Hrem & Hcl & _).
  destruct Hin as [_ Hch Hps Hleft Hright Hmore _].
  destruct (Hmore Hne) as (Hp & Hsum & Hclr & _).
  unfold next_block. rewrite decide_True by done.
  set (r2 := refill c r) in *. clearbody r2.
  rewrite <- Hrem in Hfull, Hsum.
  destruct (full_block k p r2 Hfill Hcnt Hfull Hp Hsum) as [HBc Hviews].
  unfold input_block. rewrite decide_False by lia.
  split; [done|]. split; [exact Hviews|].
  unfold bump_input. cbn [loc set_loc inputRemaining curBlockSize buf].
  rewrite decide_True by lia.
  destruct Hfill as (P & Hpos & (m & HP) & Hfit & Hle & Hmul & Hdata).
  split; cbn [loc buf set_loc set_buf inBuffer inBufPos inLeftPos inRightPos
              inputRemaining inputBufferCnt cleared]; try done.
  - lia.
  - rewrite length_for_below. lia.
  - lia.
  - lia.
  - intros Hmore'. split_and!; [lia|lia|congruence|].
    intros Hcnt'. exists (P + blockSize c). run_simpl. split_and!.
    + intros i Hi. rewrite pos_of_for_below_f by lia.
      rewrite decide_True by done. by rewrite (Hpos i Hi).
    + exists (S m). lia.
    + lia.
    + lia.
    + destruct Hmul as [Heq|[m' Hm']]; [left; lia|right].
      exists (m' - 1). rewrite Hm'. destruct m'; [lia|]. simpl. lia.
    + intros i t0 Hi.
      rewrite <- drop_drop, <- skipn_firstn_comm.
      rewrite (Hdata i t0 Hi), resize_drop, drop_drop. do 2 f_equal. lia.
  - intros Hdone. split; [lia|]. intros Hc'. congruence.
Qed.

(** The head of the iteration that takes the last, partial block of
    input. *)
Lemma next_block_partial k p q (r : Run U) :
  in_inv k p r → out_inv c s0 rightStart p q r →
  inputRemaining (loc r) ≠ 0 → inputRemaining (loc r) < blockSize c →
  let r1 := next_block c r in
  inputRemaining (loc r) ≤ curBlockSize (loc r1) ≤ blockSize c ∧
  (∀ i t0, track_of s0 i = Some t0 →
     take (blockSize c) (chan_of (input_views (buf r1)) i)
     = block_of (blockSize c) k (stream c rightStart i t0)) ∧
  in_inv (S k) (p + curBlockSize (loc r1)) (bump_input c r1).
Proof.
  intros Hin Hout Hne Hlast. cbv zeta.
  destruct (refill_filled k p q r Hin Hout Hne)
    as (Hfill & Hcnt & Hrows & Hlen & Hplen & Hl & Hr & Hrem & Hcl & _).
  destruct Hin as [_ Hch Hps Hleft Hright Hmore _].
  destruct (Hmore Hne) as (Hp & Hsum & Hclr & _).
  unfold next_block. rewrite decide_True by done.
  set (r2 := refill c r) in *. clearbody r2.
  rewrite <- Hrem in Hlast, Hsum, Hne |- *.
  destruct Hfill as (P & Hpos & (m & HP) & Hfit & Hle & Hmul & Hdata).
  assert (inputBufferCnt (loc r2) = inputRemaining (loc r2)) as Hall.
  { destruct Hmul as [?|[m' Hm']]; [done|]. destruct m'; [lia|]. simpl in Hm'. lia. }
  assert (P + blockSize c ≤ bufferSize c) as Hroom.
  { destruct HBS as [n Hn]. rewrite Hn, HP in *.
    assert (m < S n) by nia. nia. }
  unfold input_block. rewrite decide_True by lia.
  set (folded := if decide (delayRemaining (loc r2) ≠ 0) then _ else 0).
  assert (folded ≤ blockSize c - inputRemaining (loc r2)) as Hfold.
  { subst folded. unfold limitSampleBufferSize. case_decide; lia. }
  run_simpl. split; [lia|]. split.
  - intros i t0 Hi.
    assert (i < numChannels c) as Hinc by (by apply Hnc; rewrite Hi).
    rewrite chan_of_input_views. run_simpl. rewrite (Hpos i Hinc).
    rewrite chan_of_for_below, decide_True by lia.
    rewrite (Hpos i Hinc).
    rewrite zero_fill_view; [|lia|rewrite (length_chan_of (bufferSize c)); [lia|done|lia]].
    rewrite <- Hall, (Hdata i t0 Hi), Hall.
    unfold stream, Track_Get. rewrite block_of_partial by lia.
    rewrite drop_drop, <- Hp.
    by replace (len c - p) with (inputRemaining (loc r2)) by lia.
  - unfold bump_input. run_simpl. rewrite decide_False by (intros ?; lia).
    split; run_simpl; try done.
    + apply Forall_for_below_length; [|done]. intros i a. apply length_inserts.
    + rewrite length_for_below. lia.
    + lia.
    + lia.
    + lia.
    + intros _. split; [lia|]. congruence.
Qed.

(** The head of an iteration that works on the delay. *)
Lemma next_block_delay k p (r : Run U) :
  in_inv k p r →
  inputRemaining (loc r) = 0 → delayRemaining (loc r) ≠ 0 →
  let r1 := next_block c r in
  curBlockSize (loc r1) = Nat.min (blockSize c) (delayRemaining (loc r)) ∧
  (∀ i t0, track_of s0 i = Some t0 →
     take (blockSize c) (chan_of (input_views (buf r1)) i)
     = block_of (blockSize c) k (stream c rightStart i t0)) ∧
  in_inv (S k) (p + curBlockSize (loc r1)) (bump_input c r1).
Proof.
  intros [Hrows Hch Hps Hleft Hright _ Hdone] H0 Hdr. cbv zeta.
  destruct (Hdone H0) as [Hlen Hzero].
  pose proof bufferSize_block as HBle.
  unfold next_block. rewrite decide_False by (intros ?; done).
  rewrite decide_True by done.
  assert (∀ i t0, block_of (blockSize c) k (stream c rightStart i t0)
                  = replicate (blockSize c) 0%Z) as Hsil.
  { intros i t0. apply block_of_silence. unfold stream, Track_Get.
    by rewrite length_resize. }
  unfold delay_block, limitSampleBufferSize.
  destruct (cleared (loc r)) eqn:Hcl; run_simpl.
  - split; [done|]. split.
    + intros i t0 Hi.
      assert (i < numChannels c) as Hinc by (by apply Hnc; rewrite Hi).
      destruct (Hzero eq_refl i Hinc) as [Hp0 Hz].
      rewrite chan_of_input_views. run_simpl. by rewrite Hp0, drop_0, Hz, Hsil.
    + unfold bump_input. run_simpl. rewrite decide_False by (intros ?; done).
      split; run_simpl; try done; try lia.
      intros _. split; [lia|]. intros _. by apply Hzero.
  - assert (∀ i, i < numChannels c →
       pos_of (for_below (numChannels c) (λ _ _, 0) (inBufPos (buf r))) i = 0 ∧
       take (blockSize c)
         (chan_of (for_below (numChannels c) (λ _ a, zero_fill 0 (blockSize c) a)
                     (inBuffer (buf r))) i) = replicate (blockSize c) 0%Z) as Hz.
    { intros i Hi. split; [by apply pos_of_for_below|].
      rewrite chan_of_for_below, decide_True by lia.
      rewrite <- (drop_0 (zero_fill _ _ _)).
      replace (blockSize c) with (blockSize c - 0) at 2 by lia.
      replace (zero_fill 0 (blockSize c - 0)) with (zero_fill (0 + 0) (blockSize c - 0))
        by done.
      rewrite zero_fill_view; [|lia|rewrite (length_chan_of (bufferSize c)); [lia|done|lia]].
      rewrite take_0. simpl. f_equal. lia. }
    split; [done|]. split.
    + intros i t0 Hi.
      assert (i < numChannels c) as Hinc by (by apply Hnc; rewrite Hi).
      destruct (Hz i Hinc) as [Hp0 Hz0].
      rewrite chan_of_input_views. run_simpl. by rewrite Hp0, drop_0, Hz0, Hsil.
    + unfold bump_input. run_simpl. rewrite decide_False by (intros ?; done).
      split; run_simpl; try done; try lia.
      * apply Forall_for_below_length; [|done]. intros i a. apply length_inserts.
      * rewrite length_for_below. lia.
      * rewrite length_for_below. lia.
      * intros _. split; [lia|]. intros _. exact Hz.
Qed.

(** The head of every iteration hands the effect block [k] of the stream
    of every channel, and the input side is ready for iteration [k + 1]
    once the input positions are bumped. *)
Lemma next_block_input k p q (r : Run U) :
  in_inv k p r → out_inv c s0 rightStart p q r →
  ¬ (inputRemaining (loc r) = 0 ∧ delayRemaining (loc r) = 0) →
  let r1 := next_block c r in
  0 < curBlockSize (loc r1) ≤ blockSize c ∧
  (∀ i t0, track_of s0 i = Some t0 →
     take (blockSize c) (chan_of (input_views (buf r1)) i)
     = block_of (blockSize c) k (stream c rightStart i t0)) ∧
  in_inv (S k) (p + curBlockSize (loc r1)) (bump_input c r1).
Proof.
  intros Hin Hout Hgo. cbv zeta.
  destruct (decide (inputRemaining (loc r) = 0)) as [H0|Hne].
  - destruct (next_block_delay k p r Hin H0) as (Hc & ? & ?); [lia|].
    split; [lia|done].
  - destruct (decide (inputRemaining (loc r) < blockSize c)) as [Hlast|Hfull].
    + destruct (next_block_partial k p q r Hin Hout Hne Hlast) as (? & ? & ?).
      split; [lia|done].
    + destruct (next_block_full k p q r Hin Hout) as (Hc & ? & ?); [lia|].
      rewrite Hc. split; [lia|done].
Qed.


Lemma block_calls_of_app t1 t2 :
  block_calls_of (t1 ++ t2) = block_calls_of t1 ++ block_calls_of t2.
Proof. apply omap_app. Qed.

(** An iteration makes one call of [ProcessBlock], with the input views
    and the block size of its head. *)
Lemma block_calls_iteration (r : Run U) :
  block_calls_of (trace (step_run (iteration c r)))
  = block_calls_of (trace r)
    ++ [(input_views (buf (next_block c r)), curBlockSize (loc (next_block c r)))].
Proof.
  unfold iteration.
  assert (block_calls_of (trace (step_run (call_block (next_block c r))))
          = block_calls_of (trace r)
            ++ [(input_views (buf (next_block c r)), curBlockSize (loc (next_block c r)))])
    as Hcall.
  { unfold call_block. rewrite <- (trace_next_block c r).
    destruct (ProcessBlock _ _ _); simpl; rewrite ?block_calls_of_app; try done.
    case_decide; simpl; rewrite ?block_calls_of_app; simpl; by rewrite ?app_nil_r. }
  destruct (call_block (next_block c r)) as [r1| | |]; try done. simpl in Hcall.
  by rewrite trace_report, trace_emit, trace_compensate, trace_bump_input.
Qed.

End InputInvariant.

Section Pairing.
Context {U : Type} `{EffectClient U}.

(** The loop is entered with the invariants of iteration 0. *)
Lemma initial_run_inv (c : Ctx) (u : U) t leftT rightT rs (b : Buffers) :
  isGenerator c = false →
  Forall (λ a, length a = bufferSize c) (inBuffer b) →
  numChannels c ≤ length (inBuffer b) → numChannels c ≤ length (inBufPos b) →
  let r0 := initial_run c u t leftT rightT rs b in
  in_inv c (io r0) rs 0 0 r0 ∧ out_inv c (io r0) rs 0 0 r0.
Proof.
  intros Hgen Hrows Hch Hps. cbv zeta. unfold initial_run. rewrite Hgen. split.
  - split; simpl; try done; lia.
  - split; simpl; try done; try lia. intros i t0 Hi. by exists t0.
Qed.

End Pairing.

(** ** Channel pairing *)



Section GroupCalls.
Context {U : Type} `{EffectClient U}.

(** The trace of the Buffer Manager: at most one allocation. *)
Lemma buffer_manager_trace lt hr (st : PassState) :
  ∃ evs, mTrace (pEffect (buffer_manager lt hr st)) = mTrace (pEffect st) ++ evs ∧
         track_calls_of evs = [] ∧ block_calls_of evs = [].
Proof.
  unfold buffer_manager. destruct (SetBlockSize _ _) as [bs u2].
  case_bool_decide; simpl.
  - eexists [_]. by split.
  - exists []. by rewrite app_nil_r.
Qed.

End GroupCalls.



Section GroupBlocks.
Context {U : Type} `{EffectClient U}.


End GroupBlocks.


Section PairVisit.
Context {U : Type} `{EffectClient U}.


End PairVisit.



(** * Further properties of the engine *)

(** ** The length of a run of the block loop *)



Section Counters.
Context {U : Type} `{EffectClient U}.

Lemma call_block_returns (r : Run U) :
  never_throws U →
  ∃ r1, call_block r = Continue r1 ∧ loc r1 = loc r ∧ io r1 = io r ∧
        inBuffer (buf r1) = inBuffer (buf r) ∧ inBufPos (buf r1) = inBufPos (buf r) ∧
        outBufPos (buf r1) = outBufPos (buf r).
Proof.
  intros Hnt. unfold call_block.
  destruct (Hnt (input_views (buf r)) (curBlockSize (loc r)) (client r))
    as (p & outs & u' & ->).
  eexists. split; [done|]. by case_decide.
Qed.

Lemma report_goes_on c (r : Run U) :
  hasProgress c = false ∨ never_stops U →
  ∃ u, report c r = Continue (set_client u r).
Proof.
  intros Hp. unfold report, TrackGroupProgress, TrackProgress.
  destruct Hp as [->|Hns].
  - case_decide; by eexists.
  - destruct (hasProgress c); [|case_decide; by eexists].
    case_decide.
    + pose proof (Hns (count c) (inLeftPos (loc r) - leftStart c)
        (if isGenerator c then genLength c else len c) (numGroups c) (client r)) as Hs.
      destruct (ProgressUpdate _ _ _ _ _) as [res u]. simpl in Hs. subst.
      rewrite bool_decide_eq_false_2 by (by intros ?). by eexists.
    + pose proof (Hns (count c) (inLeftPos (loc r) - leftStart c)
        (if isGenerator c then genLength c else len c) (numTracks c) (client r)) as Hs.
      destruct (ProgressUpdate _ _ _ _ _) as [res u]. simpl in Hs. subst.
      rewrite bool_decide_eq_false_2 by (by intros ?). by eexists.
Qed.

(** What the compensation does to the counters: the latency reported is
    added to [delayRemaining] and to the delay owed. *)
Lemma compensate_counters c (r : Run U) :
  let d := if isProcessor c then (GetLatency (client r)).1 else 0 in
  inputRemaining (loc (compensate c r)) = inputRemaining (loc r) ∧
  delayRemaining (loc (compensate c r)) = delayRemaining (loc r) + d ∧
  outputBufferCnt (loc (compensate c r)) = outputBufferCnt (loc r) ∧
  inLeftPos (loc (compensate c r)) = inLeftPos (loc r) ∧
  curDelay (loc (compensate c r)) + (curBlockSize (loc r) - curBlockSize (loc (compensate c r)))
    = curDelay (loc r) + d ∧
  curBlockSize (loc (compensate c r)) ≤ curBlockSize (loc r).
Proof.
  cbv zeta. unfold compensate. destruct (isProcessor c); [|simpl; lia].
  destruct (GetLatency (client r)) as [delay u]. simpl.
  repeat case_decide; simpl; lia.
Qed.

Lemma emit_counters c (r : Run U) :
  inputRemaining (loc (emit c r)) = inputRemaining (loc r) ∧
  delayRemaining (loc (emit c r)) = delayRemaining (loc r) ∧
  curDelay (loc (emit c r)) = curDelay (loc r) ∧
  inLeftPos (loc (emit c r)) = inLeftPos (loc r) ∧
  trace (emit c r) = trace r.
Proof. unfold emit. case_decide; done. Qed.

Lemma bump_input_counters c (r : Run U) :
  inputRemaining (loc (bump_input c r))
    = (if decide (inputRemaining (loc r) ≠ 0)
       then inputRemaining (loc r) - curBlockSize (loc r) else 0) ∧
  delayRemaining (loc (bump_input c r)) = delayRemaining (loc r) ∧
  curDelay (loc (bump_input c r)) = curDelay (loc r) ∧
  curBlockSize (loc (bump_input c r)) = curBlockSize (loc r) ∧
  inLeftPos (loc (bump_input c r)) = inLeftPos (loc r) + curBlockSize (loc r).
Proof. unfold bump_input. case_decide; simpl; split_and!; done || lia. Qed.

(** The counters at the head of an iteration. *)
Lemma next_block_counters c (r : Run U) :
  let r1 := next_block c r in
  let rem := inputRemaining (loc r) in
  let dr := delayRemaining (loc r) in
  curDelay (loc r1) = curDelay (loc r) ∧ inLeftPos (loc r1) = inLeftPos (loc r) ∧
  (rem ≠ 0 → blockSize c ≤ rem →
     curBlockSize (loc r1) = blockSize c ∧ inputRemaining (loc r1) = rem ∧
     delayRemaining (loc r1) = dr) ∧
  (rem ≠ 0 → rem < blockSize c →
     inputRemaining (loc r1) = 0 ∧
     curBlockSize (loc r1) = rem + Nat.min (blockSize c - rem) dr ∧
     delayRemaining (loc r1) = dr - Nat.min (blockSize c - rem) dr) ∧
  (rem = 0 → dr ≠ 0 →
     inputRemaining (loc r1) = 0 ∧
     curBlockSize (loc r1) = Nat.min (blockSize c) dr ∧
     delayRemaining (loc r1) = dr - Nat.min (blockSize c) dr).
Proof.
  cbv zeta. unfold next_block.
  assert (inputRemaining (loc (refill c r)) = inputRemaining (loc r) ∧
          delayRemaining (loc (refill c r)) = delayRemaining (loc r) ∧
          curDelay (loc (refill c r)) = curDelay (loc r) ∧
          inLeftPos (loc (refill c r)) = inLeftPos (loc r)) as (Hri & Hrd & Hrc & Hrp).
  { rewrite loc_refill. by case_decide. }
  destruct (decide (inputRemaining (loc r) ≠ 0)) as [Hne|H0].
  - rewrite loc_input_block, Hri, Hrd. unfold limitSampleBufferSize.
    case_decide; simpl; (split_and!; [done|done|intros; try lia; try (case_decide; lia)..]).
  - assert (inputRemaining (loc r) = 0) as H0' by lia.
    case_decide as Hd.
    + unfold delay_block, limitSampleBufferSize. destruct (cleared (loc r)); simpl;
        (split_and!; [done|done|intros; lia..]).
    + split_and!; try done; intros; lia.
Qed.
End Counters.

Section Termination.
Context {U : Type} `{EffectClient U}.
Variable c : Ctx.
Hypothesis Hreturns : never_throws U.
Hypothesis Hgoes : hasProgress c = false ∨ never_stops U.

(** An iteration of a loop that is neither left by an exception nor
    cancelled: the counters after it. *)
Lemma iteration_counters (r : Run U) :
  ∃ r' d,
    iteration c r = Continue r' ∧
    (if isProcessor c then ∃ u, d = (GetLatency u).1 else d = 0) ∧
    let r1 := next_block c r in
    inputRemaining (loc r')
      = (if decide (inputRemaining (loc r1) ≠ 0)
         then inputRemaining (loc r1) - curBlockSize (loc r1) else 0) ∧
    delayRemaining (loc r') = delayRemaining (loc r1) + d ∧
    curDelay (loc r') ≤ curDelay (loc r) + d ∧
    inLeftPos (loc r') = inLeftPos (loc r) + curBlockSize (loc r1) ∧
    block_calls_of (trace r')
      = block_calls_of (trace r)
        ++ [(input_views (buf r1), curBlockSize (loc r1))].
Proof.
  pose proof (block_calls_iteration c r) as Hcalls.
  destruct (call_block_returns (next_block c r) Hreturns) as (r1 & Hc & Hloc & _).
  rewrite (iteration_after_call c r r1 Hc) in Hcalls |- *.
  set (r2 := bump_input c r1) in *.
  set (r3 := compensate c r2) in *.
  destruct (report_goes_on c (emit c r3) Hgoes) as (u & Hrep).
  rewrite Hrep in Hcalls |- *. simpl in Hcalls.
  exists (set_client u (emit c r3)),
         (if isProcessor c then (GetLatency (client r2)).1 else 0).
  split; [done|]. split.
  { destruct (isProcessor c); [by eexists|done]. }
  cbv zeta. cbn [loc set_client].
  destruct (emit_counters c r3) as (Hei & Hed & Hec & Hep & _).
  destruct (compensate_counters c r2) as (Hci & Hcd & _ & Hcp & Hcc & _).
  destruct (bump_input_counters c r1) as (Hbi & Hbd & Hbc & _ & Hbp).
  destruct (next_block_counters c r) as (Hnc & Hnp & _).
  subst r3 r2.
  rewrite Hei, Hed, Hec, Hep, Hci, Hcd, Hcp, Hbi, Hbd, Hbp, Hloc, Hnp.
  split_and!; try done. rewrite Hbc, Hloc, Hnc in Hcc. lia.
Qed.
End Termination.

Section PlainRun.
Context {U : Type} `{EffectClient U}.
Variable c : Ctx.
Hypothesis HB : 0 < blockSize c.
Hypothesis Hreturns : never_throws U.
Hypothesis Hgoes : hasProgress c = false ∨ never_stops U.
Hypothesis Hlat : ∀ u : U, (GetLatency u).1 = 0.

End PlainRun.

Section Forever.
Context {U : Type} `{EffectClient U}.
Variable c : Ctx.
Hypothesis Hproc : isProcessor c = true.
Hypothesis Hreturns : never_throws U.
Hypothesis Hgoes : hasProgress c = false ∨ never_stops U.
Hypothesis Hlat : ∀ u : U, 1 ≤ (GetLatency u).1.

(** With a latency reported at every call the loop has always more
    delay to work on. *)
Lemma block_loop_forever fuel (r : Run U) :
  ¬ (inputRemaining (loc r) = 0 ∧ delayRemaining (loc r) = 0) →
  block_loop c fuel r = None.
Proof.
  revert r. induction fuel as [|fuel IH]; intros r Hgo; simpl.
  - by rewrite decide_False.
  - rewrite decide_False by done.
    destruct (iteration_counters c Hreturns Hgoes r)
      as (r' & d & -> & Hd' & _ & Hdr & _).
    rewrite Hproc in Hd'. destruct Hd' as [u ->].
    apply IH. specialize (Hlat u). lia.
Qed.
End Forever.

Lemma never_throws_delay cfg :
  dcThrowAt cfg = None → never_throws DelayState (H := delay_client cfg).
Proof.
  intros Hc ins n u. simpl. unfold delay_ProcessBlock. rewrite Hc. by eexists _, _, _.
Qed.

Lemma never_stops_delay cfg :
  dcCancelAt cfg = None → never_stops DelayState (H := delay_client cfg).
Proof. intros Hc a b c d u. simpl. by rewrite Hc. Qed.

(** X1: an empty selection.  For an effect that is no generator,
    [ProcessTrack] with [len = 0] never enters the loop: no call of
    [ProcessBlock] is made, the tracks and the buffers are as they were,
    and the result is the one of [ProcessFinalize]; and when
    [ProcessInitialize] fails the result is false, with nothing done at
    all, [ProcessFinalize] included. *)
Theorem ProcessTrack_empty_selection {U : Type} `{EffectClient U} fuel (e : Effect U)
    count map leftT rightT ls rs (b : Buffers) :
  (∀ u : U, GetType u ≠ EffectTypeGenerate) →
  let init := ProcessInitialize 0 map (mClient e) in
  ∃ r, ProcessTrack fuel e count map leftT rightT ls rs 0 b
         = Some (r, Returns (init.1 && (ProcessFinalize init.2).1)) ∧
       trace r = mTrace e ∧ buf r = b ∧
       leftTrack (io r) = leftT ∧ rightTrack (io r) = rightT ∧
       client r = (if init.1 then (ProcessFinalize init.2).2 else init.2).
Proof.
  intros Hty. cbv zeta. unfold ProcessTrack.
  destruct (ProcessInitialize 0 map (mClient e)) as [ok u]. simpl.
  destruct ok; simpl; [|by eexists].
  set (c := track_ctx e u count leftT ls 0).
  assert (isGenerator c = false) as Hgen by (by apply bool_decide_eq_false_2).
  assert (initial_run c u (mTrace e) leftT rightT rs b
          = mkRun (mkLocals ls rs ls rs 0 0 0 0 0 0 false) b
                  (mkSinks leftT rightT [] None) u (mTrace e)) as ->.
  { unfold initial_run. rewrite !Hgen. reflexivity. }
  assert (∀ r : Run U, inputRemaining (loc r) = 0 → delayRemaining (loc r) = 0 →
                       block_loop c fuel r = Some (Continue r)) as Hloop.
  { intros r H1 H2. destruct fuel; simpl; by rewrite decide_True. }
  rewrite Hloop by done. unfold finish. rewrite Hgen. simpl.
  destruct (ProcessFinalize u) as [ok u']. by eexists.
Qed.

(** The empty selection of a track, under the unit that delays by 3
    samples. *)
Lemma ProcessTrack_empty_selection_witness :
  ∃ r, ProcessTrack (H := delay_client (plain_delay 3 false)) 0
         (fresh_effect []) 0 [ChannelNameMono; ChannelNameEOL] (ramp_track 1 10 true) None
         4 0 0 (mkBuffers [[0; 0]%Z] [[0; 0; 0]%Z] [0] [0])
       = Some (r, Returns true) ∧
       trace r = [] ∧ leftTrack (io r) = ramp_track 1 10 true.
Proof.
  destruct (ProcessTrack_empty_selection (H := delay_client (plain_delay 3 false)) 0
              (fresh_effect []) 0 [ChannelNameMono; ChannelNameEOL] (ramp_track 1 10 true)
              None 4 0 (mkBuffers [[0; 0]%Z] [[0; 0; 0]%Z] [0] [0]))
    as (r & Hr & Ht & _ & Hl & _).
  { intros u. simpl. discriminate. }
  exists r. split; [exact Hr|]. split; [exact Ht|exact Hl].
Defined.



(** X3: a processor that reports a latency of at least one sample at
    every call of [GetLatency], never throws and is not cancelled.  Every
    call adds to [delayRemaining], so the loop of [ProcessTrack] over a
    selection that is not empty never ends: no number of iterations
    suffices. *)
Theorem ProcessTrack_latency_every_call {U : Type} `{EffectClient U} fuel (e : Effect U)
    count map leftT rightT ls rs n (b : Buffers) :
  (ProcessInitialize n map (mClient e)).1 = true →
  (∀ u : U, GetType u = EffectTypeProcess) →
  (∀ u : U, 1 ≤ (GetLatency u).1) →
  never_throws U → mProgress e = false ∨ never_stops U →
  n ≠ 0 →
  ProcessTrack fuel e count map leftT rightT ls rs n b = None.
Proof.
  intros Hinit Hty Hlat Hret Hgo Hn. unfold ProcessTrack.
  destruct (ProcessInitialize n map (mClient e)) as [ok u]. simpl in Hinit. subst ok.
  set (c := track_ctx e u count leftT ls n).
  assert (isProcessor c = true) as Hproc by (by apply bool_decide_eq_true_2).
  rewrite (block_loop_forever c Hproc Hret Hgo Hlat); [done|].
  unfold initial_run. simpl. lia.
Qed.

(** The unit that reports its latency of 1 sample at every call: 1000
    iterations do not end the loop. *)
Lemma ProcessTrack_latency_every_call_witness :
  ProcessTrack (H := delay_client (plain_delay 1 true)) 1000
    (set_mBlockSize 4%Z (set_mBufferSize 8%Z (fresh_effect []))) 0
    [ChannelNameMono; ChannelNameEOL] (ramp_track 1 10 true) None 0 0 10
    (mkBuffers [replicate 8 0%Z] [replicate 12 0%Z] [0] [0]) = None.
Proof.
  apply (ProcessTrack_latency_every_call (H := delay_client (plain_delay 1 true))).
  - reflexivity.
  - intros u. reflexivity.
  - intros u. simpl. lia.
  - by apply never_throws_delay.
  - right. by apply never_stops_delay.
  - lia.
Defined.

(** ** Committing the working copies *)

Lemma sublist_cons_same {A} (x : A) l k : x :: l `sublist_of` x :: k ↔ l `sublist_of` k.
Proof.
  split; [|by apply sublist_skip].
  intros Hs. apply sublist_cons_r in Hs as [Hs|(l' & [= <-] & Hs)]; [|done].
  etrans; [|exact Hs]. by apply sublist_cons.
Qed.

Lemma sublist_cons_other {A} (x y : A) l k :
  x ≠ y → x :: l `sublist_of` y :: k ↔ x :: l `sublist_of` k.
Proof.
  intros Hne. split; [|by apply sublist_cons].
  intros Hs. apply sublist_cons_r in Hs as [Hs|(l' & [= -> ->] & Hs)]; done.
Qed.

(** The loop of the commit reads [mIMap] within its bounds exactly when
    the working tracks are, in their order, among the tracks of [mOMap]. *)
Lemma replace_loop_defined outs : ∀ im om tracks,
  length im = length om →
  is_Some (replace_loop outs im om tracks) ↔ (tid <$> outs) `sublist_of` om.
Proof.
  induction outs as [|o outs IH]; intros im om tracks Hlen.
  - rewrite replace_loop_nil. split; [intros _; apply sublist_nil_l|by eexists].
  - revert im tracks Hlen. induction om as [|oa om IHom]; intros im tracks Hlen.
    + destruct im; [|done]. simpl. split; [by intros [? ?]|].
      intros Hs. by apply sublist_nil_r in Hs.
    + destruct im as [|t im]; [done|]. simpl in Hlen.
      rewrite replace_loop_cons. rewrite fmap_cons. case_decide as Hd.
      * subst oa. rewrite sublist_cons_same. apply IH. lia.
      * rewrite sublist_cons_other by done. rewrite <- fmap_cons. apply IHom. lia.
Qed.



Lemma content_Replace t b tracks :
  (∀ x, x ∈ tracks → tid x = tid t → content x = content t) →
  content <$> TrackList_Replace (tid t) (Duplicate b t) tracks = content <$> tracks.
Proof.
  induction tracks as [|x tracks IH]; intros Hx; simpl; [done|].
  case_decide as Hd; simpl.
  - f_equal. symmetry. apply Hx; [by left|done].
  - f_equal. apply IH. intros y Hy. apply Hx. by right.
Qed.

Lemma elem_of_Replace a o tracks x :
  x ∈ TrackList_Replace a o tracks → x = o ∨ x ∈ tracks.
Proof.
  induction tracks as [|t tracks IH]; simpl; [by right|].
  case_decide; rewrite !elem_of_cons; naive_solver.
Qed.

Lemma length_Replace a o tracks : length (TrackList_Replace a o tracks) = length tracks.
Proof.
  induction tracks as [|t tracks IH]; simpl; [done|]. case_decide; simpl; by rewrite ?IH.
Qed.

Lemma tid_inj (l : list Track) x t :
  NoDup (tid <$> l) → x ∈ l → t ∈ l → tid x = tid t → x = t.
Proof.
  induction l as [|y l IH]; simpl; [by intros _ ?%elem_of_nil|].
  rewrite list.NoDup_cons. intros [Hy Hnd]. rewrite !elem_of_cons.
  intros [->|Hx] [->|Ht] Hid; try done.
  - destruct Hy. rewrite Hid. by apply list_elem_of_fmap_2.
  - destruct Hy. rewrite <- Hid. by apply list_elem_of_fmap_2.
  - by apply IH.
Qed.

(** The commit of copies that are all in the working list, in the order
    of the map: every original gives way to its copy. *)
Lemma replace_loop_copies el : ∀ base tracks,
  (∀ t, t ∈ el → tid t < base) →
  (∀ t x, t ∈ el → x ∈ tracks → tid x = tid t → content x = content t) →
  ∃ tracks',
    replace_loop (imap (λ k t, Duplicate (base + k) t) el) ((λ t, Some (tid t)) <$> el)
                 (tid <$> imap (λ k t, Duplicate (base + k) t) el) tracks = Some tracks' ∧
    content <$> tracks' = content <$> tracks ∧
    (∀ x, x ∈ tracks' → x ∈ tracks ∨ base ≤ tid x).
Proof.
  induction el as [|t el IH]; intros base tracks Hlt Hsame.
  - exists tracks. split_and!; [done|done|by left].
  - rewrite imap_cons, !fmap_cons, replace_loop_cons.
    rewrite decide_True by done. rewrite Nat.add_0_r.
    assert (imap ((λ k t0, Duplicate (base + k) t0) ∘ S) el
            = imap (λ k t0, Duplicate (S base + k) t0) el) as ->.
    { apply imap_ext. intros k x _. simpl. f_equal. lia. }
    destruct (IH (S base) (TrackList_Replace (tid t) (Duplicate base t) tracks))
      as (tracks' & Hl & Hc & Hin).
    + intros t' Ht'. specialize (Hlt t' ltac:(by right)). lia.
    + intros t' x Ht' Hx Hid. apply elem_of_Replace in Hx as [->|Hx].
      * simpl in Hid. specialize (Hlt t' ltac:(by right)). lia.
      * apply Hsame; [by right|done..].
    + exists tracks'. split; [done|]. split.
      * rewrite Hc. apply content_Replace. intros x Hx Hid. apply Hsame; [by left|done..].
      * intros x Hx. destruct (Hin x Hx) as [Hx'|?]; [|right; lia].
        apply elem_of_Replace in Hx' as [->|?]; [right; simpl; lia|by left].
Qed.

(** X5: a copy and a commit with no processing in between.
    [CopyInputTracks] followed by [ReplaceProcessedTracks(true)] on a
    project of tracks with distinct addresses leaves the project with the
    same tracks by content, in the same order (the tracks copied are now
    their copies), and with no working list and empty maps. *)
Theorem copy_commit_content {U : Type} b (e : Effect U) :
  NoDup (tid <$> mTracks e) →
  ∃ e', ReplaceProcessedTracks true (CopyInputTracks b e) = Some e' ∧
        content <$> mTracks e' = content <$> mTracks e ∧
        mOutputTracks e' = None ∧ mIMap e' = [] ∧ mOMap e' = [] ∧
        nEffectsDone e' = S (nEffectsDone e).
Proof.
  intros Hnd.
  set (P := λ t : Track, (if b then GetSelected t || IsSyncLockSelected t
                          else bool_decide (GetKind t = WaveTrackKind) && GetSelected t)
                         = true).
  destruct (replace_loop_copies (filter P (mTracks e)) (fresh_address (mTracks e))
              (mTracks e)) as (tracks' & Hl & Hc & _).
  - intros t Ht. apply list_elem_of_filter in Ht as [_ Ht].
    unfold fresh_address.
    assert (tid t ≤ max_list (tid <$> mTracks e)); [|lia].
    apply max_list_elem_of_le. by apply list_elem_of_fmap_2.
  - intros t x Ht Hx Hid. apply list_elem_of_filter in Ht as [_ Ht].
    f_equal. by apply (tid_inj (mTracks e)).
  - assert (replace_loop (default [] (mOutputTracks (CopyInputTracks b e)))
              (mIMap (CopyInputTracks b e)) (mOMap (CopyInputTracks b e))
              (mTracks (CopyInputTracks b e)) = Some tracks') as Hrl by exact Hl.
    unfold ReplaceProcessedTracks. cbn [negb]. rewrite Hrl.
    eexists. split; [done|]. by effect_simpl.
Qed.

(** A project of a selected and an unselected track: after the copy and
    the commit the samples are what they were. *)
Lemma copy_commit_content_witness :
  ∃ e', ReplaceProcessedTracks true (CopyInputTracks true cancelled_project) = Some e' ∧
        samples <$> mTracks e' = samples <$> mTracks cancelled_project ∧
        tid <$> mTracks e' = [3; 2].
Proof.
  destruct (copy_commit_content true cancelled_project) as (e' & He & Hc & _).
  { vm_compute. by repeat constructor; rewrite ?elem_of_cons, ?elem_of_nil; try lia. }
  exists e'. split; [exact He|]. split.
  - apply (f_equal (fmap samples)) in Hc. by rewrite <- !list_fmap_compose in Hc.
  - vm_compute in He. by injection He as <-.
Defined.

Lemma replace_loop_app_new outs : ∀ im om tracks tr t,
  tid <$> outs = om → length im = length om →
  replace_loop outs im om tracks = Some tr →
  replace_loop (outs ++ [t]) (im ++ [None]) (om ++ [tid t]) tracks = Some (tr ++ [t]).
Proof.
  induction outs as [|o outs IH]; intros im om tracks tr t Hom Hlen.
  - subst om. destruct im; [|done]. simpl. rewrite decide_True by done.
    by intros [= <-].
  - destruct om as [|oa om]; [done|]. destruct im as [|x im]; [done|].
    injection Hom as <- Hom. simpl in Hlen.
    rewrite <- !app_comm_cons, !replace_loop_cons, !decide_True by done.
    apply IH; [done|lia].
Qed.

(** X6: a track added by [AddToOutputTracks] after [CopyInputTracks]
    is committed behind the tracks of the project:
    [ReplaceProcessedTracks(true)] gives the project it gives without the
    added track, followed by that track. *)
Theorem added_track_committed_last {U : Type} b (e : Effect U) (t : Track) :
  ∃ e0 e',
    ReplaceProcessedTracks true (CopyInputTracks b e) = Some e0 ∧
    ReplaceProcessedTracks true (AddToOutputTracks t (CopyInputTracks b e)) = Some e' ∧
    mTracks e' = mTracks e0 ++ [t] ∧
    mOutputTracks e' = None ∧ mIMap e' = [] ∧ mOMap e' = [].
Proof.
  set (e1 := CopyInputTracks b e).
  assert (tid <$> default [] (mOutputTracks e1) = mOMap e1) as Hom by done.
  assert (length (mIMap e1) = length (mOMap e1)) as Hlen.
  { subst e1. unfold CopyInputTracks. effect_simpl.
    by rewrite !length_fmap, length_imap. }
  destruct (proj2 (replace_loop_defined (default [] (mOutputTracks e1)) (mIMap e1)
                     (mOMap e1) (mTracks e1) Hlen)) as [tr Htr].
  { by rewrite Hom. }
  pose proof (replace_loop_app_new _ _ _ _ _ t Hom Hlen Htr) as Htr'.
  eexists _, _. split_and!.
  - unfold ReplaceProcessedTracks. cbn [negb]. by rewrite Htr.
  - assert (replace_loop (default [] (mOutputTracks (AddToOutputTracks t e1)))
              (mIMap (AddToOutputTracks t e1)) (mOMap (AddToOutputTracks t e1))
              (mTracks (AddToOutputTracks t e1)) = Some (tr ++ [t])) as Hrl by exact Htr'.
    unfold ReplaceProcessedTracks. cbn [negb]. by rewrite Hrl.
  - by effect_simpl.
  - done.
  - done.
  - done.
Qed.

(** ** The head and the tail of [DoEffect] *)

Lemma length_filter_le {A} (P Q : A → Prop) `{!∀ x, Decision (P x), !∀ x, Decision (Q x)}
    (l : list A) :
  (∀ x, x ∈ l → P x → Q x) → length (filter P l) ≤ length (filter Q l).
Proof.
  induction l as [|x l IH]; [done|]. intros HPQ.
  rewrite !filter_cons.
  specialize (IH (λ y Hy, HPQ y (list_elem_of_further _ _ _ Hy))).
  pose proof (HPQ x ltac:(left)).
  repeat case_decide; simpl; try lia. tauto.
Qed.

Lemma filter_indices {A} (f : option A → bool) (l : list A) :
  f None = false →
  length (filter (λ i, f (l !! i) = true) (seq 0 (length l)))
  = length (filter (λ t, f (Some t) = true) l).
Proof.
  intros Hnone. induction l as [|x l IH] using rev_ind; [done|].
  rewrite length_app. simpl. rewrite Nat.add_1_r, seq_S, !list.filter_app, !length_app.
  simpl. f_equal.
  - rewrite <- IH. f_equal. apply filter_ext_in. intros i Hi.
    apply elem_of_seq in Hi. by rewrite lookup_app_l by lia.
  - rewrite !filter_cons, !filter_nil.
    rewrite lookup_app_r by lia. rewrite Nat.sub_diag. simpl.
    by repeat case_decide.
Qed.

Lemma CountWaveTracks_counts {U : Type} (e : Effect U) :
  mNumTracks (CountWaveTracks e) = length (filter (λ t, selected_wave t = true) (mTracks e)) ∧
  mNumGroups (CountWaveTracks e) ≤ mNumTracks (CountWaveTracks e) ∧
  (mNumTracks (CountWaveTracks e) = 0 ↔ ∀ t, t ∈ mTracks e → selected_wave t = false) ∧
  mTracks (CountWaveTracks e) = mTracks e.
Proof.
  set (l := mTracks e).
  assert (mNumTracks (CountWaveTracks e)
          = length (filter (λ t, selected_wave t = true) l)) as -> by done.
  assert (mNumGroups (CountWaveTracks e)
          = length (filter (λ i, is_leader l i
                                 && from_option selected_wave false (l !! i) = true)
                           (seq 0 (length l)))) as -> by done.
  split; [done|]. split; [|split; [|done]].
  - rewrite <- (filter_indices (from_option selected_wave false)) by done.
    apply length_filter_le. intros i _ Hi.
    by apply andb_prop in Hi as [_ ?].
  - rewrite length_zero_iff_nil. split.
    + intros Hnil t Ht. destruct (selected_wave t) eqn:Hs; [|done].
      assert (t ∈ filter (λ t, selected_wave t = true) l) as Hin.
      { by apply list_elem_of_filter. }
      rewrite Hnil in Hin. by apply elem_of_nil in Hin.
    + intros Hall. induction l as [|t l' IH]; [done|].
      rewrite filter_cons_False by (rewrite (Hall t) by left; done).
      apply IH. intros x Hx. apply Hall. by right.
Qed.

(** X7: [CountWaveTracks] counts the selected wave tracks of the
    project in [mNumTracks] and their channel groups in [mNumGroups]:
    there are never more groups than tracks, and [mNumTracks] is 0 exactly
    when no wave track is selected. *)
Theorem CountWaveTracks_bounds {U : Type} (e : Effect U) :
  mNumTracks (CountWaveTracks e) = length (filter (λ t, selected_wave t = true) (mTracks e)) ∧
  mNumGroups (CountWaveTracks e) ≤ mNumTracks (CountWaveTracks e) ∧
  (mNumTracks (CountWaveTracks e) = 0 ↔ ∀ t, t ∈ mTracks e → selected_wave t = false) ∧
  mTracks (CountWaveTracks e) = mTracks e.
Proof. apply CountWaveTracks_counts. Qed.

Section DoEffectEdges.
Context {U : Type} `{EffectClient U}.

Lemma DoEffect_enter_client (e : Effect U) :
  mClient (DoEffect_enter e).1 = mClient e ∧ mTrace (DoEffect_enter e).1 = mTrace e ∧
  mOutputTracks (DoEffect_enter e).1 = None ∧
  mProgress (DoEffect_enter e).1 = mProgress e ∧
  nEffectsDone (DoEffect_enter e).1 = nEffectsDone e.
Proof. unfold DoEffect_enter. cbv zeta. by destruct (_ && _). Qed.

Lemma filter_selected_app (l : list Track) t :
  selected_wave t = true →
  1 ≤ length (filter (λ t, selected_wave t = true) (l ++ [t])).
Proof.
  intros Hs. rewrite list.filter_app, length_app, filter_cons_True by done. simpl. lia.
Qed.
End DoEffectEdges.

(** X8: a generator always has a track to write to.  After the head of
    [DoEffect], an effect of type Generate (or the Nyquist prompt) counts
    at least one selected wave track: when the project had none, a new,
    selected wave track was added at its end, and nothing else changed. *)
Theorem generator_gets_a_track {U : Type} `{EffectClient U} (e : Effect U) :
  GetKind NewWaveTrack = WaveTrackKind →
  GetType (mClient e) = EffectTypeGenerate ∨ IsNyquistPrompt (mClient e) = true →
  let e' := (DoEffect_enter e).1 in
  1 ≤ mNumTracks e' ∧
  ((∃ t, t ∈ mTracks e ∧ selected_wave t = true) →
     mTracks e' = mTracks e ∧ (DoEffect_enter e).2 = None) ∧
  ((∀ t, t ∈ mTracks e → selected_wave t = false) →
     ∃ t, (DoEffect_enter e).2 = Some t ∧ mTracks e' = mTracks e ++ [t] ∧
          selected_wave t = true ∧ samples t = samples NewWaveTrack ∧
          tid t ∉ tid <$> mTracks e).
Proof.
  intros Hwave Hgen. cbv zeta.
  destruct (CountWaveTracks_counts (set_mOutputTracks None e)) as (Hn & _ & H0 & _).
  unfold DoEffect_enter. cbv zeta.
  set (e0 := CountWaveTracks (set_mOutputTracks None e)) in *.
  assert (bool_decide (GetType (mClient e0) = EffectTypeGenerate)
          || IsNyquistPrompt (mClient e0) = true) as ->.
  { subst e0. simpl. destruct Hgen as [->| ->]; [done|]. by rewrite orb_true_r. }
  rewrite andb_true_l.
  set (t := Track_selected (Duplicate (fresh_address (mTracks e0)) NewWaveTrack)).
  assert (selected_wave t = true) as Ht.
  { unfold selected_wave. simpl. by rewrite Hwave. }
  case_bool_decide as Hz; cbn [fst snd].
  - split_and!.
    + destruct (CountWaveTracks_counts
                  (set_mTracks (TrackList_Add t (mTracks e0)) e0)) as (-> & _).
      effect_simpl. by apply filter_selected_app.
    + intros (x & Hx & Hs). pose proof (proj1 H0 Hz x Hx) as Hx'. congruence.
    + intros _. exists t. split_and!; try done. apply fresh_address_fresh.
  - split_and!.
    + destruct (CountWaveTracks_counts e0) as (Hn' & _). rewrite Hn'.
      subst e0. simpl in *. lia.
    + done.
    + intros Hall. destruct Hz. by apply (proj2 H0).
Qed.

(** X9: the ways out of [DoEffect] before any processing.  When
    [Init] fails, or the effect's dialog is cancelled, [DoEffect] returns
    false without a call of [Process]: no pass is run, the project's
    tracks are what they were (a track added for a generator is removed
    again), and no working copy is left. *)
Theorem DoEffect_declined {U : Type} `{EffectClient U} fuel (e : Effect U) :
  (Init (mClient e)).1 = false ∨
    (ShowInterface (Init (mClient e)).2).1 = false →
  ∃ e', DoEffect fuel e = Some (e', Returns false) ∧
        mTracks e' = mTracks e ∧ mTrace e' = mTrace e ∧
        mOutputTracks e' = None ∧ mIMap e' = [] ∧ mOMap e' = [] ∧
        mProgress e' = mProgress e ∧ nEffectsDone e' = nEffectsDone e.
Proof.
  intros Hno. unfold DoEffect.
  pose proof (DoEffect_enter_undo e) as Hundo.
  destruct (DoEffect_enter_client e) as (Hc & Ht & Ho & Hp & Hn).
  destruct (DoEffect_enter e) as [eb nt]. simpl in *. rewrite Hc.
  destruct (Init (mClient e)) as [okInit u]. simpl in Hno.
  assert (∀ e1 : Effect U, mTracks e1 = mTracks eb → mTrace e1 = mTrace eb →
            mOutputTracks e1 = None → mProgress e1 = mProgress eb →
            nEffectsDone e1 = nEffectsDone eb →
            ∃ e', DoEffect_leave nt (Returns false) e1 = Some (e', Returns false) ∧
                  mTracks e' = mTracks e ∧ mTrace e' = mTrace e ∧
                  mOutputTracks e' = None ∧ mIMap e' = [] ∧ mOMap e' = [] ∧
                  mProgress e' = mProgress e ∧ nEffectsDone e' = nEffectsDone e) as Hleave.
  { intros e1 H1 H2 H3 H4 H5. unfold DoEffect_leave, DoEffect_cleanup. simpl.
    eexists. split; [done|]. effect_simpl.
    specialize (Hundo e1 H1). destruct nt; simpl in *;
      rewrite H3; split_and!; try done; congruence. }
  destruct okInit.
  - destruct Hno as [?|Hno]; [done|].
    destruct (ShowInterface u) as [okShow u']. simpl in Hno. subst okShow.
    by apply Hleave.
  - by apply Hleave.
Qed.

(** X10: an effect that is skipped.  When [CheckWhetherSkipEffect]
    holds, [DoEffect] returns true without a call of [Process]: no pass
    is run and nothing is committed; the project keeps its tracks, and
    also the track that was added for a generator. *)
Theorem DoEffect_skipped {U : Type} `{EffectClient U} fuel (e : Effect U) :
  let u1 := (Init (mClient e)).2 in
  let u2 := (ShowInterface u1).2 in
  (Init (mClient e)).1 = true → (ShowInterface u1).1 = true →
  CheckWhetherSkipEffect u2 = true →
  ∃ e', DoEffect fuel e = Some (e', Returns true) ∧
        mTracks e' = mTracks (DoEffect_enter e).1 ∧ mTrace e' = mTrace e ∧
        mOutputTracks e' = None ∧ mIMap e' = [] ∧ mOMap e' = [] ∧
        mProgress e' = mProgress e ∧ nEffectsDone e' = nEffectsDone e.
Proof.
  intros u1 u2 Hinit Hshow Hskip. unfold DoEffect.
  destruct (DoEffect_enter_client e) as (Hc & Ht & Ho & Hp & Hn).
  destruct (DoEffect_enter e) as [eb nt]. simpl in *. rewrite Hc.
  subst u1 u2. destruct (Init (mClient e)) as [okInit u]. simpl in *. subst okInit.
  destruct (ShowInterface u) as [okShow u']. simpl in *. subst okShow.
  rewrite Hskip. unfold DoEffect_leave, DoEffect_cleanup. simpl.
  eexists. split; [done|]. effect_simpl. rewrite Ho. by split_and!.
Qed.

(** A project without a selected track gets one for a generator. *)
Lemma generator_gets_a_track_witness :
  1 ≤ mNumTracks (DoEffect_enter (H := delay_client tone_generator)
                    (fresh_effect [ramp_track 1 10 false])).1 ∧
  ∃ t, mTracks (DoEffect_enter (H := delay_client tone_generator)
                  (fresh_effect [ramp_track 1 10 false])).1
       = [ramp_track 1 10 false; t] ∧ selected_wave t = true.
Proof.
  destruct (generator_gets_a_track (H := delay_client tone_generator)
              (fresh_effect [ramp_track 1 10 false])) as (Hn & _ & Hadd).
  - reflexivity.
  - by left.
  - split; [exact Hn|]. destruct Hadd as (t & _ & Ht & Hs & _).
    + intros t Ht. apply list_elem_of_singleton in Ht as ->. reflexivity.
    + exists t. split; [exact Ht|exact Hs].
Defined.

(** The dialog of an effect on a generator's project is cancelled: the
    track added for it is gone again. *)
Lemma DoEffect_declined_witness :
  ∃ e', DoEffect (H := answering true false false (delay_client tone_generator)) 0
          (fresh_effect [ramp_track 1 10 false]) = Some (e', Returns false) ∧
        mTracks e' = [ramp_track 1 10 false] ∧ mTrace e' = [].
Proof.
  destruct (DoEffect_declined (H := answering true false false (delay_client tone_generator))
              0 (fresh_effect [ramp_track 1 10 false])) as (e' & He & Ht & Hr & _).
  - by right.
  - exists e'. split; [exact He|]. split; [exact Ht|exact Hr].
Defined.

(** A generator that is skipped leaves its new track in the project. *)
Lemma DoEffect_skipped_witness :
  ∃ e', DoEffect (H := answering true true true (delay_client tone_generator)) 0
          (fresh_effect [ramp_track 1 10 false]) = Some (e', Returns true) ∧
        tid <$> mTracks e' = [1; 2] ∧ mTrace e' = [].
Proof.
  destruct (DoEffect_skipped (H := answering true true true (delay_client tone_generator))
              0 (fresh_effect [ramp_track 1 10 false])) as (e' & He & Ht & Hr & _);
    try reflexivity.
  exists e'. split; [exact He|]. split; [by rewrite Ht|exact Hr].
Defined.

Section Counting.
Context {U : Type} `{EffectClient U}.

Lemma Process_commit_counts b (e e' : Effect U) res :
  Process_commit b e = Some (e', res) →
  res = Returns b ∧ mProgress e' = mProgress e ∧
  nEffectsDone e' = (if b then S (nEffectsDone e) else nEffectsDone e) ∧
  (b = true → mOutputTracks e' = None ∧ mIMap e' = [] ∧ mOMap e' = []).
Proof.
  unfold Process_commit, ReplaceProcessedTracks. destruct b; simpl.
  - destruct (replace_loop _ _ _ _); [|done]. by intros [= <- <-].
  - by intros [= <- <-].
Qed.

Lemma ProcessPass_counts fuel (e e' : Effect U) res :
  is_Some (mOutputTracks e) → ProcessPass fuel e = Some (e', res) →
  mProgress e' = mProgress e ∧ nEffectsDone e' = nEffectsDone e ∧
  is_Some (mOutputTracks e').
Proof.
  intros Hs HP. apply ProcessPass_frame in HP; [|done].
  by destruct HP as (_&_&_&_&_&_&_&_&?&?&?&_).
Qed.
End Counting.

Lemma Process_counter {U : Type} `{EffectClient U} fuel (e e' : Effect U) res :
  Process fuel e = Some (e', res) →
  nEffectsDone e' = (if returned_true res then S (nEffectsDone e) else nEffectsDone e) ∧
  mProgress e' = mProgress e ∧
  (res = Returns true → mOutputTracks e' = None ∧ mIMap e' = [] ∧ mOMap e' = []).
Proof.
  unfold Process. set (e0 := Process_prepare e).
  assert (mProgress e0 = mProgress e ∧ nEffectsDone e0 = nEffectsDone e ∧
          is_Some (mOutputTracks e0)) as (Hp0 & Hn0 & Hs0) by (split_and!; by eauto).
  assert (∀ b (e1 : Effect U), mProgress e1 = mProgress e →
            nEffectsDone e1 = nEffectsDone e →
            Process_commit b e1 = Some (e', res) →
            nEffectsDone e'
              = (if returned_true res then S (nEffectsDone e) else nEffectsDone e) ∧
            mProgress e' = mProgress e ∧
            (res = Returns true →
               mOutputTracks e' = None ∧ mIMap e' = [] ∧ mOMap e' = [])) as Hcommit.
  { intros b e1 Hp Hn Hc. apply Process_commit_counts in Hc as (-> & Hp' & Hn' & Ho).
    rewrite Hp', Hn', Hp, Hn. destruct b; simpl; split_and!; try done.
    intros _. by apply Ho. }
  destruct (InitPass1 (mClient e0)) as [ok1 u1]. destruct ok1; [|by apply Hcommit].
  destruct (ProcessPass fuel (set_mClient u1 e0)) as [[e1 [good1|]]|] eqn:HP1; [| |done].
  - apply ProcessPass_counts in HP1 as (Hp1 & Hn1 & Hs1); [|done].
    simpl in Hp1, Hn1.
    destruct good1; [|by apply Hcommit; simpl; congruence].
    destruct (InitPass2 _) as [ok2 u2].
    destruct ok2; [|by apply Hcommit; simpl; congruence].
    destruct (ProcessPass fuel _) as [[e2 [good2|]]|] eqn:HP2; [| |done].
    + apply ProcessPass_counts in HP2 as (Hp2 & Hn2 & _); [|done].
      apply Hcommit; simpl in *; congruence.
    + apply ProcessPass_counts in HP2 as (Hp2 & Hn2 & _); [|done].
      intros [= <- <-]. simpl in *. split_and!; [congruence|congruence|done].
  - apply ProcessPass_counts in HP1 as (Hp1 & Hn1 & _); [|done].
    intros [= <- <-]. simpl in *. split_and!; [congruence|congruence|done].
Qed.

(** X11: [nEffectsDone] counts the runs that were committed.  A call
    of [Process] leaves the counter one higher when it returns true, and
    as it was when it returns false or is left by an exception; the
    progress dialog of the caller is not touched. *)
Theorem Process_counts_commits {U : Type} `{EffectClient U} fuel (e e' : Effect U) res :
  Process fuel e = Some (e', res) →
  nEffectsDone e' = (if returned_true res then S (nEffectsDone e) else nEffectsDone e) ∧
  mProgress e' = mProgress e ∧
  (res = Returns true → mOutputTracks e' = None ∧ mIMap e' = [] ∧ mOMap e' = []).
Proof. apply Process_counter. Qed.

(** X12: what [DoEffect] always leaves behind.  However it ends (true,
    false, or by an exception that leaves it), the working copies are gone,
    the maps are empty, the progress dialog is the caller's again, and
    [nEffectsDone] has grown by at most one, and only when the result is
    true. *)
Theorem DoEffect_leaves_clean {U : Type} `{EffectClient U} fuel (e e' : Effect U) res :
  DoEffect fuel e = Some (e', res) →
  default [] (mOutputTracks e') = [] ∧ mIMap e' = [] ∧ mOMap e' = [] ∧
  mProgress e' = mProgress e ∧
  nEffectsDone e ≤ nEffectsDone e' ≤ S (nEffectsDone e) ∧
  (res ≠ Returns true → nEffectsDone e' = nEffectsDone e).
Proof.
  unfold DoEffect.
  destruct (DoEffect_enter_client e) as (Hc & Ht & Ho & Hp & Hn).
  destruct (DoEffect_enter e) as [eb nt]. simpl in *.
  assert (∀ r (e1 : Effect U), mProgress e1 = mProgress e →
            DoEffect_leave nt r e1 = Some (e', res) →
            res = r ∧ default [] (mOutputTracks e') = [] ∧ mIMap e' = [] ∧ mOMap e' = [] ∧
            mProgress e' = mProgress e ∧ nEffectsDone e' = nEffectsDone e1) as Hleave.
  { intros r e1 Hp1. unfold DoEffect_leave, DoEffect_cleanup. simpl.
    intros [= <- <-]. effect_simpl.
    destruct (returned_true r), nt; simpl; by destruct (mOutputTracks e1). }
  destruct (Init (mClient eb)) as [okInit u]. destruct okInit.
  - destruct (ShowInterface _) as [okShow u']. destruct okShow.
    + destruct (CheckWhetherSkipEffect _).
      * intros HD. apply Hleave in HD as (-> & ? & ? & ? & ? & Hn'); [|simpl; congruence].
        simpl in Hn'. split_and!; try done; lia.
      * destruct (Process fuel _) as [[e1 r1]|] eqn:HP; [|done].
        apply Process_counter in HP as (Hn1 & Hp1 & _). simpl in *.
        intros HD. apply Hleave in HD as (-> & ? & ? & ? & ? & Hn'); [|done].
        simpl in Hn'. rewrite Hn', Hn1, Hn.
        split_and!; try done; destruct r1 as [[|]|]; simpl; try lia; try done.
    + intros HD. apply Hleave in HD as (-> & ? & ? & ? & ? & Hn'); [|simpl; congruence].
      simpl in Hn'. split_and!; try done; lia.
  - intros HD. apply Hleave in HD as (-> & ? & ? & ? & ? & Hn'); [|simpl; congruence].
    simpl in Hn'. split_and!; try done; lia.
Qed.

(** A run that succeeds is counted. *)
Lemma Process_counts_commits_witness :
  ∃ e', Process (H := delay_client (two_pass_delay true false)) 100 two_pass_project
        = Some (e', Returns true) ∧ nEffectsDone e' = 1.
Proof.
  destruct (Process (H := delay_client (two_pass_delay true false)) 100 two_pass_project)
    as [[e' res]|] eqn:E; [|vm_compute in E; discriminate E].
  assert (res = Returns true) as ->.
  { pose proof E as E'. vm_compute in E'. by injection E' as _ <-. }
  exists e'. split; [reflexivity|].
  by destruct (Process_counts_commits (H := delay_client (two_pass_delay true false))
                 100 two_pass_project e' (Returns true) E) as (-> & _).
Defined.

(** A run that the user cancels leaves nothing behind and is not
    counted. *)
Lemma DoEffect_leaves_clean_witness :
  ∃ e', DoEffect (H := delay_client (cancelled_delay 1 1)) 100 cancelled_project
        = Some (e', Returns false) ∧
        default [] (mOutputTracks e') = [] ∧ mProgress e' = false ∧ nEffectsDone e' = 0.
Proof.
  destruct (DoEffect (H := delay_client (cancelled_delay 1 1)) 100 cancelled_project)
    as [[e' res]|] eqn:E; [|vm_compute in E; discriminate E].
  assert (res = Returns false) as ->.
  { pose proof E as E'. vm_compute in E'. by injection E' as _ <-. }
  exists e'. split; [reflexivity|].
  destruct (DoEffect_leaves_clean (H := delay_client (cancelled_delay 1 1))
              100 cancelled_project e' (Returns false) E) as (Ho & _ & _ & Hp & _ & Hn).
  split; [exact Ho|]. split; [exact Hp|]. by apply Hn.
Defined.

(** ** The output of a unit with latency *)

Section Streams.
Context {A : Type}.
Implicit Types l k : list A.

Lemma lookup_list_inserts i k l j :
  list_inserts i k l !! j
  = if decide (i ≤ j < i + length k ∧ j < length l) then k !! (j - i) else l !! j.
Proof.
  case_decide as Hj.
  - apply list_lookup_inserts; lia.
  - destruct (decide (j < i)); [by apply list_lookup_inserts_lt|].
    destruct (decide (i + length k ≤ j)); [by apply list_lookup_inserts_ge|].
    rewrite (lookup_ge_None_2 l) by lia.
    apply lookup_ge_None_2. rewrite length_inserts. lia.
Qed.

(** Chunks written one behind the other are the chunk of both. *)
Lemma list_inserts_behind i k1 k2 l :
  list_inserts (i + length k1) k2 (list_inserts i k1 l) = list_inserts i (k1 ++ k2) l.
Proof.
  apply list_eq. intros j. rewrite !lookup_list_inserts, length_inserts, length_app.
  repeat case_decide; try lia; try done.
  - rewrite lookup_app_r by lia. f_equal. lia.
  - by rewrite lookup_app_l by lia.
Qed.

(** What is left of the block that a unit with the latency [L] gives
    out for the samples [N .. N + cur) of its input, after the engine has
    dropped what it still owes of the latency. *)
Lemma emitted_chunk (Q0 Y : list A) L N cur :
  length Q0 = L → N + cur ≤ length Y →
  drop (Nat.min cur (L - Nat.min N L)) (take cur (drop N (Q0 ++ take (N + cur) Y)))
  = take (cur - Nat.min cur (L - Nat.min N L)) (drop (N - Nat.min N L) Y).
Proof.
  intros HL HY. apply list_eq. intros j.
  rewrite lookup_drop, !lookup_take, lookup_drop.
  destruct (decide (j < cur - Nat.min cur (L - Nat.min N L))) as [Hj|Hj].
  - rewrite decide_True by lia.
    rewrite lookup_app_r by lia. rewrite lookup_take_lt by lia.
    rewrite lookup_drop. f_equal. lia.
  - by rewrite decide_False by lia.
Qed.
End Streams.

Section Causal.
Context (T : list sample → list sample).
Hypothesis Hlen : ∀ a, length (T a) = length a.
Hypothesis Hcausal : ∀ a b, take (length a) (T (a ++ b)) = T a.

Lemma causal_take M (x : list sample) : T (take M x) = take M (T x).
Proof.
  destruct (decide (M ≤ length x)) as [Hle|Hgt].
  - rewrite <- (take_drop M x) at 2.
    rewrite <- (Hcausal (take M x) (drop M x)). by rewrite length_take, Nat.min_l.
  - rewrite !take_ge; [done|rewrite Hlen; lia|lia].
Qed.
End Causal.

Section Alignment.
Context {U : Type} `{EffectClient U}.
Variables (c : Ctx) (leftT : Track) (rs L : nat) (Q0 : list sample).
Variables (T : list sample → list sample) (R : U → list sample → bool → Prop).
Hypothesis Hunit : delay_line_unit L Q0 T R.
Hypothesis HB : 0 < blockSize c.
Hypothesis HBS : ∃ m, bufferSize c = S m * blockSize c.
Hypothesis Hnum : numChannels c = 1.
Hypothesis Hch : chans c = 1.
Hypothesis Hproc : isProcessor c = true.
Hypothesis Hgen : isGenerator c = false.

Local Abbreviation s0 := (mkSinks leftT None [] None).
Local Abbreviation sel := (Track_Get leftT (leftStart c) (len c)).
Local Abbreviation X := (resize (len c + L) 0%Z sel).
Local Abbreviation Y := (T X).
Local Abbreviation inv := (align_inv c leftT rs L X Y R).

Lemma length_Y : length Y = len c + L.
Proof. by rewrite (dl_length _ _ _ _ Hunit), length_resize. Qed.

Lemma align_tracks i : is_Some (track_of s0 i) → i < numChannels c.
Proof. rewrite Hnum. destruct i as [|[|i]]; intros [t Ht]; simplify_eq/=. lia. Qed.

Lemma align_out_inv k N q rep (r : Run U) : inv k N q rep r → out_inv c s0 rs N q r.
Proof.
  intros Hinv. split.
  - apply (ai_outl _ _ _ _ _ _ _ _ _ _ _ _ Hinv).
  - apply (ai_outr _ _ _ _ _ _ _ _ _ _ _ _ Hinv).
  - pose proof (ai_emitted _ _ _ _ _ _ _ _ _ _ _ _ Hinv). lia.
  - intros i t0 Ht. destruct i as [|[|i]]; simplify_eq/=.
    rewrite (ai_io _ _ _ _ _ _ _ _ _ _ _ _ Hinv). simpl.
    eexists. split; [done|]. simpl.
    apply drop_list_inserts_ge. rewrite length_take. lia.
Qed.

Lemma next_block_out (r : Run U) :
  outBuffer (buf (next_block c r)) = outBuffer (buf r) ∧
  outBufPos (buf (next_block c r)) = outBufPos (buf r) ∧
  client (next_block c r) = client r.
Proof.
  unfold next_block. repeat case_decide; try done.
  - unfold input_block, refill. repeat case_decide; simpl; try done; by destruct (rightTrack (io r)).
  - unfold delay_block. by destruct (cleared (loc r)).
Qed.

Lemma bump_input_out (r : Run U) :
  outBuffer (buf (bump_input c r)) = outBuffer (buf r) ∧
  outBufPos (buf (bump_input c r)) = outBufPos (buf r) ∧
  client (bump_input c r) = client r ∧ io (bump_input c r) = io r.
Proof. unfold bump_input. by case_decide. Qed.

(** The head of an iteration gives the unit the next samples of the
    selection, or silence behind it. *)
Lemma align_next_block k N q rep (r : Run U) :
  inv k N q rep r →
  ¬ (inputRemaining (loc r) = 0 ∧ delayRemaining (loc r) = 0) →
  let r1 := next_block c r in
  let cur := curBlockSize (loc r1) in
  0 < cur ≤ blockSize c ∧ N + cur ≤ len c + L ∧
  cur ≤ length (chan_of (input_views (buf r1)) 0) ∧
  take N X ++ take cur (chan_of (input_views (buf r1)) 0) = take (N + cur) X ∧
  in_inv c s0 rs (S k) (N + cur) (bump_input c r1) ∧
  inputRemaining (loc (bump_input c r1)) + delayRemaining (loc r1) + cur
    = inputRemaining (loc r) + delayRemaining (loc r) ∧
  delayRemaining (loc r1) ≤ delayRemaining (loc r).
Proof.
  intros Hinv Hgo.
  destruct (next_block_input c s0 rs HB HBS align_tracks k N q r
              (ai_in _ _ _ _ _ _ _ _ _ _ _ _ Hinv) (align_out_inv _ _ _ _ _ Hinv) Hgo)
    as (Hcur & Hin & Hinv').
  specialize (Hin 0 leftT eq_refl).
  pose proof (ai_total _ _ _ _ _ _ _ _ _ _ _ _ Hinv) as Htot.
  pose proof (ai_owed _ _ _ _ _ _ _ _ _ _ _ _ Hinv) as Howed.
  destruct (next_block_counters c r) as (_ & _ & Hfull & Hpart & Hdel).
  destruct (bump_input_counters c (next_block c r)) as (Hbi & _).
  cbv zeta.
  set (r1 := next_block c r) in *. set (cur := curBlockSize (loc r1)) in *.
  assert (inputRemaining (loc (bump_input c r1)) + delayRemaining (loc r1) + cur
          = inputRemaining (loc r) + delayRemaining (loc r) ∧
          delayRemaining (loc r1) ≤ delayRemaining (loc r)) as (Hsum & Hle).
  { rewrite Hbi. destruct (decide (inputRemaining (loc r) = 0)) as [H0|Hne].
    - destruct (Hdel H0 ltac:(lia)) as (Hi & Hc & Hd).
      fold r1 in Hi, Hc, Hd. fold cur in Hc. rewrite Hi, decide_False by lia. lia.
    - destruct (decide (blockSize c ≤ inputRemaining (loc r))) as [Hb|Hb].
      + destruct (Hfull Hne Hb) as (Hc & Hi & Hd).
        fold r1 in Hi, Hc, Hd. fold cur in Hc. rewrite Hi, decide_True by lia. lia.
      + destruct (Hpart Hne ltac:(lia)) as (Hi & Hc & Hd).
        fold r1 in Hi, Hc, Hd. fold cur in Hc. rewrite Hi, decide_False by lia. lia. }
  assert (N + cur ≤ len c + L) as Hroom by (destruct rep; lia).
  assert (length (take (blockSize c) (chan_of (input_views (buf r1)) 0)) = blockSize c)
    as Hlen by (rewrite Hin; apply length_resize).
  rewrite length_take in Hlen.
  split_and!; try done; try lia.
  rewrite <- (take_take_drop X N cur). f_equal.
  assert (take cur (chan_of (input_views (buf r1)) 0)
          = take cur (take (blockSize c) (chan_of (input_views (buf r1)) 0))) as ->
    by (by rewrite take_take, Nat.min_l by lia).
  rewrite Hin.
  unfold block_of, stream. simpl.
  rewrite resize_drop, !take_resize_le by lia.
  destruct (decide (inputRemaining (loc r) = 0)) as [H0|Hne].
  - destruct (ii_done _ _ _ _ _ _ (ai_in _ _ _ _ _ _ _ _ _ _ _ _ Hinv) H0) as (Hk & _).
    assert (len c ≤ N) by (destruct rep; lia).
    by rewrite !drop_ge by (unfold Track_Get; rewrite length_resize; lia).
  - destruct (ii_more _ _ _ _ _ _ (ai_in _ _ _ _ _ _ _ _ _ _ _ _ Hinv) Hne) as (-> & _).
    done.
Qed.

(** The call of [ProcessBlock]: the unit writes its next [cur] samples
    behind what waits in the output buffer. *)
Lemma call_block_aligned (r1 : Run U) h rep pos a :
  R (client r1) h rep →
  let cur := curBlockSize (loc r1) in
  let x := chan_of (input_views (buf r1)) 0 in
  cur ≤ length x →
  outBufPos (buf r1) !! 0 = Some pos → outBuffer (buf r1) !! 0 = Some a →
  pos + cur ≤ length a →
  ∃ r2 a', call_block r1 = Continue r2 ∧ loc r2 = loc r1 ∧ io r2 = io r1 ∧
    outBufPos (buf r2) = outBufPos (buf r1) ∧
    R (client r2) (h ++ take cur x) rep ∧
    outBuffer (buf r2) !! 0 = Some a' ∧ length a' = length a ∧
    take pos a' = take pos a ∧
    take cur (drop pos a') = take cur (drop (length h) (Q0 ++ T (h ++ take cur x))).
Proof.
  intros HR cur x Hx Hpos Ha Hroom. unfold call_block. fold cur.
  destruct (dl_block _ _ _ _ Hunit (input_views (buf r1)) cur (client r1) h rep HR Hx)
    as (p & outs & u' & -> & Hout & HR').
  fold x in Hout, HR'.
  set (out := take cur (drop (length h) (Q0 ++ T (h ++ take cur x)))) in *.
  assert (length out = cur) as Hlen.
  { unfold out. rewrite length_take, length_drop, length_app, (dl_length _ _ _ _ Hunit),
      length_app, length_take. lia. }
  eexists _, (list_inserts pos out a). split; [done|].
  assert (write_outputs outs (buf r1) !! 0 = Some (list_inserts pos out a)) as Hw.
  { unfold write_outputs. rewrite list_lookup_imap, Ha. simpl. rewrite Hout.
    unfold pos_of. by rewrite Hpos. }
  split_and!; try (by case_decide).
  - apply length_inserts.
  - apply take_list_inserts.
  - rewrite drop_list_inserts by lia. by rewrite take_app_length'.
Qed.

(** The compensation drops what the engine still owes of the latency
    from the head of the block. *)
Lemma compensate_aligned (r2 : Run U) h rep N a pos :
  R (client r2) h rep → (rep = false → N = 0) →
  curDelay (loc r2) = (if rep then L - Nat.min N L else 0) →
  outBufPos (buf r2) !! 0 = Some pos → outBuffer (buf r2) !! 0 = Some a →
  pos + curBlockSize (loc r2) ≤ length a →
  let cur := curBlockSize (loc r2) in
  let d := Nat.min cur (L - Nat.min N L) in
  let r3 := compensate c r2 in
  ∃ a3, curBlockSize (loc r3) = cur - d ∧ curDelay (loc r3) = L - Nat.min (N + cur) L ∧
    delayRemaining (loc r3) = delayRemaining (loc r2) + (if rep then 0 else L) ∧
    inputRemaining (loc r3) = inputRemaining (loc r2) ∧
    same_output r2 r3 ∧ outBufPos (buf r3) = outBufPos (buf r2) ∧
    R (client r3) h true ∧
    outBuffer (buf r3) !! 0 = Some a3 ∧ length a3 = length a ∧ take pos a3 = take pos a ∧
    take (cur - d) (drop pos a3) = drop d (take cur (drop pos a)).
Proof.
  intros HR Hfresh Hcd Hpos Ha Hroom cur d r3. subst r3. unfold compensate.
  rewrite Hproc. destruct (dl_latency _ _ _ _ Hunit _ _ _ HR) as (u' & -> & HR').
  fold cur. rewrite Hcd.
  assert ((if rep then L - Nat.min N L else 0) + (if rep then 0 else L) = L - Nat.min N L)
    as -> by (destruct rep; [lia|rewrite Hfresh by done; lia]).
  case_decide as Hle; [|case_decide as Hpos'].
  - exists a. assert (d = cur) as -> by lia. run_simpl.
    split_and!; try done; try lia.
    rewrite Nat.sub_diag. simpl. symmetry. apply drop_ge. rewrite length_take. lia.
  - exists (memmove_left pos (L - Nat.min N L) (cur - (L - Nat.min N L)) a).
    assert (d = L - Nat.min N L) as -> by lia. run_simpl.
    split_and!; try done; try lia.
    + rewrite lookup_for_below, Ha, Hch. simpl. unfold pos_of. by rewrite Hpos.
    + apply length_inserts.
    + apply take_list_inserts.
    + rewrite memmove_left_spec by lia.
      rewrite <- drop_drop, take_drop_commute. do 2 f_equal. lia.
  - exists a. assert (d = 0) as -> by lia. run_simpl.
    split_and!; try done; try lia.
    by rewrite Nat.sub_0_r.
Qed.

(** The output side of [emit]: the block joins what waits in the output
    buffer, and a full buffer is written to the track, behind what was
    written before. *)
Lemma emit_aligned (r3 : Run U) q a :
  let cnt := outputBufferCnt (loc r3) in
  let cur := curBlockSize (loc r3) in
  outLeftPos (loc r3) = leftStart c + q → outRightPos (loc r3) = rs + q →
  outBufPos (buf r3) !! 0 = Some cnt → outBuffer (buf r3) !! 0 = Some a →
  take (cnt + cur) a = take (cnt + cur) (drop q Y) →
  q + cnt + cur ≤ length Y →
  io r3 = mkSinks (Track_Set Y (leftStart c) q leftT) None [] None →
  let r4 := emit c r3 in
  ∃ q', q' + outputBufferCnt (loc r4) = q + cnt + cur ∧
    outLeftPos (loc r4) = leftStart c + q' ∧ outRightPos (loc r4) = rs + q' ∧
    outputBufferCnt (loc r4) < bufferSize c ∧
    outBufPos (buf r4) !! 0 = Some (outputBufferCnt (loc r4)) ∧
    outBuffer (buf r4) = outBuffer (buf r3) ∧
    take (outputBufferCnt (loc r4)) a = take (outputBufferCnt (loc r4)) (drop q' Y) ∧
    io r4 = mkSinks (Track_Set Y (leftStart c) q' leftT) None [] None ∧
    client r4 = client r3.
Proof.
  intros cnt cur Hl Hr Hpos Ha Htake HY Hio r4. subst r4. unfold emit. fold cnt cur.
  case_decide as Hn.
  - exists q. run_simpl. split_and!; try done; try lia.
    rewrite lookup_for_below, Hpos, Hch. done.
  - exists (q + (cnt + cur)). run_simpl. split_and!; try done; try lia.
    + destruct HBS as [m Hm]. lia.
    + by rewrite lookup_for_below, Hpos, Hch.
    + unfold flush. rewrite Hproc. run_simpl. rewrite Hio. simpl.
      f_equal. unfold Track_Set, with_samples. simpl. f_equal.
      unfold chan_of. rewrite Ha. simpl. rewrite Htake, Hl.
      rewrite <- (take_take_drop Y q (cnt + cur)).
      rewrite <- list_inserts_behind. f_equal.
      rewrite length_take. lia.
Qed.

Lemma report_aligned (r : Run U) h rep :
  R (client r) h rep → ∃ u, report c r = Continue (set_client u r) ∧ R u h rep.
Proof.
  intros HR. unfold report, TrackGroupProgress, TrackProgress.
  rewrite decide_False by lia.
  destruct (hasProgress c); [|by eexists].
  destruct (dl_progress _ _ _ _ Hunit (count c) (inLeftPos (loc r) - leftStart c)
              (if isGenerator c then genLength c else len c) (numTracks c) _ _ _ HR)
    as (Hs & HR').
  destruct (ProgressUpdate _ _ _ _ _) as [res u]. simpl in *. subst res.
  rewrite bool_decide_eq_false_2 by (by intros ?). by eexists.
Qed.

(** One iteration keeps the alignment. *)
Lemma align_iteration k N q rep (r : Run U) :
  inv k N q rep r →
  ¬ (inputRemaining (loc r) = 0 ∧ delayRemaining (loc r) = 0) →
  ∃ r' n q', iteration c r = Continue r' ∧ 0 < n ∧ inv (S k) (N + n) q' true r'.
Proof.
  intros Hinv Hgo.
  destruct (align_next_block k N q rep r Hinv Hgo)
    as (Hcur & Hroom & Hx & Hhist & Hin' & Hsum & Hdr).
  destruct (next_block_out r) as (Hob1 & Hop1 & Hcl1).
  destruct (same_output_next_block c r) as (Hol1 & Hor1 & Hoc1 & Hio1).
  destruct (next_block_counters c r) as (Hcd1 & _).
  destruct Hinv as [Hi Hl Hr He Hf Hd Ho Ht Hu Hrm Hp (a & Ha & Hal & Hat) Hio].
  set (r1 := next_block c r) in *. set (cur := curBlockSize (loc r1)) in *.
  set (cnt := outputBufferCnt (loc r)) in *.
  pose proof length_Y as HlY.
  (* the call *)
  destruct (call_block_aligned r1 (take N X) rep cnt a)
    as (r2 & a2 & Hcall & Hloc2 & Hio2 & Hop2 & HR2 & Ha2 & Hal2 & Hat2 & Hout2).
  { by rewrite Hcl1. } { done. } { by rewrite Hop1. } { by rewrite Hob1. }
  { fold cur. lia. }
  fold cur in HR2, Hout2. rewrite Hhist in HR2, Hout2.
  rewrite length_take, Nat.min_l in Hout2 by (rewrite length_resize; lia).
  rewrite (causal_take T (dl_length _ _ _ _ Hunit) (dl_causal _ _ _ _ Hunit)) in Hout2.
  (* the input positions move on *)
  destruct (bump_input_out r2) as (Hob3 & Hop3 & Hcl3 & Hio3).
  destruct (bump_input_counters c r2) as (_ & Hbd & Hbc & Hbcur & _).
  destruct (same_output_bump c r2) as (Hol3 & Hor3 & Hoc3 & _).
  set (r2b := bump_input c r2) in *.
  assert (curBlockSize (loc r2b) = cur) as Hcur2 by (by rewrite Hbcur, Hloc2).
  (* the compensation *)
  destruct (compensate_aligned r2b (take (N + cur) X) rep N a2 cnt)
    as (a3 & Hcur3 & Hcd3 & Hdr3 & Hir3 & (Hol4 & Hor4 & Hoc4 & Hio4) & Hop4 & HR3
        & Ha3 & Hal3 & Hat3 & Hout3).
  { by rewrite Hcl3. } { done. } { by rewrite Hbc, Hloc2, Hcd1. }
  { by rewrite Hop3, Hop2, Hop1. } { by rewrite Hob3. } { rewrite Hcur2. lia. }
  rewrite Hcur2 in Hcur3, Hcd3, Hout3.
  set (d := Nat.min cur (L - Nat.min N L)) in *.
  set (r3 := compensate c r2b) in *.
  assert (outputBufferCnt (loc r3) = cnt) as Hcnt3.
  { rewrite Hoc4, Hoc3, Hloc2. exact Hoc1. }
  (* what waits in the output buffer *)
  assert (take (cnt + (cur - d)) a3 = take (cnt + (cur - d)) (drop q Y)) as Hwait.
  { rewrite <- !take_take_drop. f_equal.
    - by rewrite Hat3, Hat2.
    - rewrite Hout3, Hout2. unfold d.
      rewrite emitted_chunk by (by apply (dl_queue _ _ _ _ Hunit) || lia).
      rewrite drop_drop. do 2 f_equal. fold cnt in He. lia. }
  (* the output *)
  destruct (emit_aligned r3 q a3)
    as (q' & Hq' & Hol5 & Hor5 & Hrm5 & Hop5 & Hob5 & Hbuf5 & Hio5 & Hcl5).
  { rewrite Hol4, Hol3, Hloc2, Hol1. exact Hl. }
  { rewrite Hor4, Hor3, Hloc2, Hor1. exact Hr. }
  { rewrite Hcnt3, Hop4, Hop3, Hop2, Hop1. exact Hp. }
  { exact Ha3. }
  { by rewrite Hcnt3, Hcur3. }
  { rewrite Hcnt3, Hcur3, HlY. fold cnt in He. unfold d. lia. }
  { rewrite Hio4, Hio3, Hio2, Hio1. exact Hio. }
  rewrite Hcnt3, Hcur3 in Hq'.
  destruct (emit_counters c r3) as (Hei & Hed & Hec & _).
  set (r4 := emit c r3) in *.
  (* the progress *)
  destruct (report_aligned r4 (take (N + cur) X) true) as (u & Hrep & HRu).
  { by rewrite Hcl5. }
  assert (iteration c r = Continue (set_client u r4)) as Hit.
  { by rewrite (iteration_after_call c r r2 Hcall). }
  pose proof (same_input_iteration c r _ Hit) as Hsame.
  exists (set_client u r4), cur, q'. split; [done|]. split; [lia|].
  destruct Hsame as (_ & _ & _ & _ & Hir5 & _).
  fold r1 in Hir5. run_simpl.
  split; run_simpl.
  - apply (in_inv_same c s0 rs (S k) (N + cur) (bump_input c r1)); [|done].
    by apply (same_input_iteration c r).
  - done.
  - done.
  - fold cnt in He. unfold d in Hq'. lia.
  - done.
  - by rewrite Hec.
  - rewrite Hed, Hdr3, Hbd, Hloc2. destruct rep; lia.
  - rewrite Hir5, Hed, Hdr3, Hbd, Hloc2. destruct rep; lia.
  - done.
  - done.
  - done.
  - exists a3. rewrite Hob5. split; [done|]. split; [lia|done].
  - done.
Qed.

(** The loop ends, with everything given to the unit and nothing
    owed. *)
Lemma align_loop fuel : ∀ k N q rep (r : Run U),
  inv k N q rep r → len c + L - N ≤ fuel →
  ∃ r' k' N' q' rep',
    block_loop c fuel r = Some (Continue r') ∧ inv k' N' q' rep' r' ∧
    inputRemaining (loc r') = 0 ∧ delayRemaining (loc r') = 0.
Proof.
  induction fuel as [|fuel IH]; intros k N q rep r Hinv Hfuel; simpl;
    (case_decide as Hdone; [destruct Hdone; by exists r, k, N, q, rep|]).
  - pose proof (ai_total _ _ _ _ _ _ _ _ _ _ _ _ Hinv). destruct Hdone.
    destruct rep; lia.
  - destruct (align_iteration k N q rep r Hinv Hdone) as (r' & n & q' & -> & Hn & Hinv').
    apply (IH _ _ _ _ _ Hinv'). lia.
Qed.

(** After the loop: what waits in the output buffer is written, and the
    selection holds the transform of what it held. *)
Lemma align_finish k N q rep (r : Run U) :
  inv k N q rep r → inputRemaining (loc r) = 0 → delayRemaining (loc r) = 0 →
  ∃ r', finish c (Continue r) = (r', Returns true) ∧ buf r' = buf r ∧
        io r' = mkSinks (Track_Set (T sel) (leftStart c) (len c) leftT) None [] None.
Proof.
  intros [Hi Hl Hr He Hf Hd Ho Ht Hu Hrm Hp (a & Ha & Hal & Hat) Hio] Hi0 Hd0.
  set (cnt := outputBufferCnt (loc r)) in *.
  assert (q + cnt = len c) as Hq.
  { destruct rep; [lia|]. rewrite (Hf eq_refl) in *. simpl in He. lia. }
  assert (Track_Set Y (leftStart c) (len c) leftT
          = Track_Set (T sel) (leftStart c) (len c) leftT) as HY.
  { unfold Track_Set. do 2 f_equal.
    rewrite <- (causal_take T (dl_length _ _ _ _ Hunit) (dl_causal _ _ _ _ Hunit)).
    rewrite take_resize_le by lia.
    rewrite resize_all_alt by (unfold Track_Get; by rewrite length_resize).
    rewrite take_ge; [done|].
    rewrite (dl_length _ _ _ _ Hunit). unfold Track_Get. by rewrite length_resize. }
  unfold finish. rewrite Hgen.
  set (r1 := if decide (outputBufferCnt (loc r) ≠ 0) then set_io (flush c r) r else r).
  assert (io r1 = mkSinks (Track_Set Y (leftStart c) (len c) leftT) None [] None
          ∧ buf r1 = buf r) as (Hio1 & Hcl1).
  { subst r1. fold cnt. case_decide as Hc.
    - split; [|done]. run_simpl. unfold flush. rewrite Hproc, Hio. simpl.
      f_equal. unfold Track_Set, with_samples. simpl. f_equal.
      unfold chan_of. rewrite Ha. simpl. fold cnt. rewrite Hat, Hl.
      assert (take (len c) Y = take q Y ++ take cnt (drop q Y)) as ->
        by (by rewrite take_take_drop, Hq).
      rewrite <- list_inserts_behind. f_equal.
      rewrite length_take, length_Y. lia.
    - split; [|done]. rewrite Hio. do 2 f_equal. lia. }
  pose proof (dl_finalize _ _ _ _ Hunit (client r1)) as Hfin.
  destruct (ProcessFinalize (client r1)) as [ok u]. simpl in Hfin. subst ok.
  eexists. split; [done|]. simpl. by rewrite Hio1, HY.
Qed.
End Alignment.

Lemma ProcessTrack_aligned_run {U : Type} `{EffectClient U} L Q0 T R fuel (e : Effect U)
    count map leftT ls rs n (b : Buffers) :
  delay_line_unit L Q0 T R →
  let B := Z.to_nat (mBlockSize e) in
  0 < B → (∃ m, Z.to_nat (mBufferSize e) = S m * B) →
  mNumChannels e = 1 → 1 ≤ mNumAudioOut e →
  mono_buffers (Z.to_nat (mBufferSize e)) B b →
  outBufPos b !! 0 = Some 0 →
  n + L ≤ fuel →
  ∃ r, ProcessTrack fuel e count map leftT None ls rs n b = Some (r, Returns true) ∧
       io r = mkSinks (Track_Set (T (Track_Get leftT ls n)) ls n leftT) None [] None ∧
       mono_buffers (Z.to_nat (mBufferSize e)) B (buf r).
Proof.
  intros Hunit B HB HBS Hnum Hout (Hrows & Hin & Hpos & _ & Hroom) Hopos Hfuel.
  unfold ProcessTrack.
  destruct (dl_init _ _ _ _ Hunit n map (mClient e)) as (u & -> & HR).
  set (c := track_ctx e u count leftT ls n).
  assert (isProcessor c = true) as Hproc.
  { apply bool_decide_eq_true_2, (dl_type _ _ _ _ Hunit). }
  assert (isGenerator c = false) as Hgen.
  { apply bool_decide_eq_false_2. by rewrite (dl_type _ _ _ _ Hunit). }
  assert (chans c = 1) as Hch by (simpl; lia).
  set (r0 := initial_run c u (mTrace e) leftT None rs b).
  destruct (initial_run_inv c u (mTrace e) leftT None rs b Hgen Hrows
              ltac:(simpl; lia) ltac:(simpl; lia)) as (Hi0 & _).
  assert (r0 = mkRun (mkLocals ls rs ls rs n 0 0 0 0 0 false) b
                     (mkSinks leftT None [] None) u (mTrace e)) as Hr0.
  { subst r0. unfold initial_run. by rewrite Hgen. }
  fold r0 in Hi0. rewrite Hr0 in Hi0. simpl in Hi0.
  destruct (outBuffer b !! 0) as [a|] eqn:Ha; last first.
  { unfold chan_of in Hroom. rewrite Ha in Hroom. simpl in Hroom. lia. }
  assert (align_inv c leftT rs L (resize (len c + L) 0%Z (Track_Get leftT (leftStart c) (len c)))
            (T (resize (len c + L) 0%Z (Track_Get leftT (leftStart c) (len c)))) R
            0 0 0 false r0) as Hinv.
  { rewrite Hr0. split; run_simpl; try done.
    - simpl. lia.
    - destruct HBS as [m Hm]. simpl. fold B. lia.
    - exists a. split; [done|]. split; [|done].
      unfold chan_of in Hroom. rewrite Ha in Hroom. exact Hroom.
    - unfold Track_Set, with_samples. simpl. by destruct leftT. }
  destruct (align_loop c leftT rs L Q0 T R Hunit HB HBS Hnum Hch Hproc
              fuel 0 0 0 false r0 Hinv ltac:(simpl; lia))
    as (r' & k' & N' & q' & rep' & -> & Hinv' & Hi' & Hd').
  destruct (align_finish c leftT rs L Q0 T R Hunit HB Hnum Hch Hproc Hgen
              k' N' q' rep' r' Hinv' Hi' Hd') as (r & -> & Hbuf & Hio).
  exists r. split; [done|]. split; [exact Hio|]. rewrite Hbuf.
  destruct Hinv' as [Hi _ _ _ _ _ _ _ _ _ Hp (a' & Ha' & Hal & _) _].
  destruct Hi as [Hr1 Hr2 Hr3 _ _ _ _].
  simpl in Hr2, Hr3. rewrite Hnum in Hr2, Hr3.
  split; [exact Hr1|]. split; [exact Hr2|]. split; [exact Hr3|].
  split; [by rewrite Hp|]. unfold chan_of. rewrite Ha'. exact Hal.
Qed.

(** X13: the latency of a unit is compensated.  For a mono track and
    an effect of type Process that computes a causal transform [T] of its
    input, gives it out [L] samples late and reports the latency [L] once,
    [ProcessTrack] returns true after at most [len + L] iterations, and
    the track is what it was with the selection replaced by the transform
    of the selection: nothing is shifted, nothing outside the selection
    is changed. *)
Theorem ProcessTrack_aligned {U : Type} `{EffectClient U} L Q0 T R fuel (e : Effect U)
    count map leftT ls rs n (b : Buffers) :
  delay_line_unit L Q0 T R →
  let B := Z.to_nat (mBlockSize e) in
  0 < B → (∃ m, Z.to_nat (mBufferSize e) = S m * B) →
  mNumChannels e = 1 → 1 ≤ mNumAudioOut e →
  Forall (λ a, length a = Z.to_nat (mBufferSize e)) (inBuffer b) →
  1 ≤ length (inBuffer b) → 1 ≤ length (inBufPos b) →
  outBufPos b !! 0 = Some 0 →
  Z.to_nat (mBufferSize e) + B ≤ length (chan_of (outBuffer b) 0) →
  n + L ≤ fuel →
  ∃ r, ProcessTrack fuel e count map leftT None ls rs n b = Some (r, Returns true) ∧
       leftTrack (io r) = Track_Set (T (Track_Get leftT ls n)) ls n leftT ∧
       rightTrack (io r) = None.
Proof.
  intros Hunit B HB HBS Hnum Hout Hrows Hin Hpos Hopos Hroom Hfuel.
  destruct (ProcessTrack_aligned_run L Q0 T R fuel e count map leftT ls rs n b)
    as (r & Hr & Hio & _); try done.
  exists r. split; [done|]. by rewrite Hio.
Qed.

(** The synthetic delay line is such a unit. *)
Lemma delay_line_unit_delay cfg :
  dcType cfg = EffectTypeProcess → dcChannels cfg = 1 → dcEveryCall cfg = false →
  dcCancelAt cfg = None → dcThrowAt cfg = None →
  delay_line_unit (H := delay_client cfg) (dcLatency cfg)
    (replicate (dcLatency cfg) 0%Z) (fmap (dcGain cfg))
    (λ u h rep,
       dsQueue u = [drop (length h)
                      (replicate (dcLatency cfg) 0%Z ++ (dcGain cfg <$> h))] ∧
       dsReported u = rep).
Proof.
  intros Hty Hch Hev Hca Hth. split.
  - apply length_replicate.
  - intros a. apply length_fmap.
  - intros a b. rewrite fmap_app. apply take_app_length'. by rewrite length_fmap.
  - done.
  - intros n map u. eexists. split; [done|]. simpl. rewrite Hch. simpl.
    by rewrite app_nil_r.
  - intros ins n u h rep [Hq Hr] Hn. simpl. unfold delay_ProcessBlock.
    rewrite Hth, Hq. simpl. unfold delay_channel.
    rewrite resize_le by done.
    assert (drop (length h) (replicate (dcLatency cfg) 0%Z ++ (dcGain cfg <$> h))
              ++ (dcGain cfg <$> take n (chan_of ins 0))
            = drop (length h)
                (replicate (dcLatency cfg) 0%Z
                   ++ (dcGain cfg <$> h ++ take n (chan_of ins 0)))) as ->.
    { rewrite fmap_app, (app_assoc (replicate _ _)).
      rewrite (drop_app_le (_ ++ _)); [done|].
      rewrite length_app, length_fmap. lia. }
    eexists _, _, _. split; [done|]. split; [done|]. simpl. split; [|done].
    rewrite drop_drop, length_app, length_take. do 3 f_equal. lia.
  - intros u h rep [Hq Hr]. simpl. rewrite Hev, Hr.
    destruct rep; by eexists.
  - intros a b c d u h rep [Hq Hr]. simpl. by rewrite Hca.
  - done.
Qed.

(** A delay line of 3 samples on the samples 2 .. 7 of a track of 10:
    the gain is applied to the selection, in place. *)
Lemma ProcessTrack_aligned_witness :
  ∃ r,
    ProcessTrack (H := delay_client (plain_delay 3 false)) 9
      (set_mNumAudioOut 1 (set_mNumChannels 1
         (set_mBlockSize 4%Z (set_mBufferSize 8%Z (fresh_effect []))))) 0
      [ChannelNameMono; ChannelNameEOL] (ramp_track 1 10 true) None 2 0 6
      (mkBuffers [replicate 8 0%Z] [replicate 12 0%Z] [0] [0])
    = Some (r, Returns true) ∧
    samples (leftTrack (io r)) = [1; 2; 103; 104; 105; 106; 107; 108; 9; 10]%Z.
Proof.
  destruct (ProcessTrack_aligned (H := delay_client (plain_delay 3 false))
      3 (replicate 3 0%Z) (fmap (λ x, (x + 100)%Z))
      (λ u h rep,
         dsQueue u = [drop (length h) (replicate 3 0%Z ++ ((λ x, (x + 100)%Z) <$> h))] ∧
         dsReported u = rep)
      9
      (set_mNumAudioOut 1 (set_mNumChannels 1
         (set_mBlockSize 4%Z (set_mBufferSize 8%Z (fresh_effect []))))) 0
      [ChannelNameMono; ChannelNameEOL] (ramp_track 1 10 true) 2 0 6
      (mkBuffers [replicate 8 0%Z] [replicate 12 0%Z] [0] [0]))
    as (r & Hr & Hl & _).
  - exact (delay_line_unit_delay (plain_delay 3 false) eq_refl eq_refl eq_refl eq_refl eq_refl).
  - vm_compute. lia.
  - exists 1. reflexivity.
  - reflexivity.
  - simpl. lia.
  - repeat constructor.
  - simpl. lia.
  - simpl. lia.
  - reflexivity.
  - vm_compute. lia.
  - lia.
  - exists r. split; [exact Hr|]. rewrite Hl. reflexivity.
Defined.

(** ** A pass of a mono effect *)

Section MonoPass.
Context {U : Type} `{EffectClient U}.
Variables (L : nat) (Q0 : list sample).
Variables (T : list sample → list sample) (R : U → list sample → bool → Prop).
Hypothesis Hunit : delay_line_unit L Q0 T R.
Variables (max bs : Z).
Hypothesis Hmax : (0 < max)%Z.
Hypothesis Hbs : (0 < bs)%Z.
Hypothesis Hrange : (max + 2 * bs ≤ 2 ^ 64)%Z.

Local Abbreviation bsz := (spec_bufferSize max bs).

Lemma mono_sizes :
  (0 < bsz)%Z ∧ 0 < Z.to_nat bs ∧ ∃ m, Z.to_nat bsz = S m * Z.to_nat bs.
Proof.
  pose proof (ceil_div_bounds max bs Hbs ltac:(lia)) as Hc.
  unfold spec_bufferSize. split; [lia|]. split; [lia|].
  assert (0 < ceil_div max bs)%Z as Hk by nia.
  exists (Z.to_nat (ceil_div max bs) - 1).
  rewrite Z2Nat.inj_mul by lia.
  f_equal. lia.
Qed.

Lemma buffer_manager_mono leftT (st : PassState (U := U)) :
  size_t (GetMaxBlockSize leftT * 2) = max →
  (SetBlockSize max (SetSampleRate (GetRate leftT) (mClient (pEffect st)))).1 = bs →
  mono_state bs bsz st →
  let st' := buffer_manager leftT false st in
  mBlockSize (pEffect st') = bs ∧ mBufferSize (pEffect st') = bsz ∧
  mono_buffers (Z.to_nat bsz) (Z.to_nat bs) (pBuffers st') ∧
  outBufPos (pBuffers st') !! 0 = Some 0 ∧
  mNumAudioIn (pEffect st') = 1 ∧ mNumAudioOut (pEffect st') = mNumAudioOut (pEffect st) ∧
  mNumChannels (pEffect st') = mNumChannels (pEffect st) ∧
  mOutputTracks (pEffect st') = mOutputTracks (pEffect st) ∧
  pCount st' = pCount st.
Proof.
  intros Hm Hb (Hin & Hout & Hsz). cbv zeta. unfold buffer_manager.
  rewrite Hm. destruct (SetBlockSize _ _) as [bs' u2]. simpl in Hb. subst bs'.
  destruct (size_t_buffer_size max bs ltac:(lia) Hbs Hrange) as (-> & Hosz).
  destruct mono_sizes as (Hpos & Hbpos & m & Hmul).
  rewrite Hin. rewrite andb_false_r.
  case_bool_decide as Hre.
  - rewrite Hosz.
    destruct (length_new_inBuffer 1 (Z.to_nat bsz)) as [Hi1 Hi2].
    destruct (length_new_outBuffer 1 (mNumAudioOut (pEffect st)) (Z.to_nat (bsz + bs)))
      as [Ho1 Ho2].
    effect_simpl. cbn [pEffect pBuffers pCount inBuffer outBuffer inBufPos outBufPos].
    split_and!; try done.
    + unfold mono_buffers. cbn [inBuffer outBuffer inBufPos outBufPos].
      split; [done|]. split; [by rewrite Hi1|]. split.
      { rewrite length_for_below, length_replicate. lia. }
      split.
      { rewrite lookup_for_below. destruct (mNumAudioOut (pEffect st)); [lia|].
        simpl. by eexists. }
      destruct (new_outBuffer 1 (mNumAudioOut (pEffect st)) (Z.to_nat (bsz + bs)))
        as [|a rest] eqn:Hob; [simpl in Ho1; lia|].
      unfold chan_of. simpl. apply list.Forall_cons in Ho2 as [-> _]. lia.
    + rewrite lookup_for_below. destruct (mNumAudioOut (pEffect st)); [lia|]. done.
  - destruct Hsz as [H0|[Heq (Hr1 & Hr2 & Hr3 & Hr4 & Hr5)]]; [lia|].
    effect_simpl. cbn [pEffect pBuffers pCount inBuffer outBuffer inBufPos outBufPos].
    split_and!; try done.
    + unfold mono_buffers. cbn [inBuffer outBuffer inBufPos outBufPos].
      split; [done|]. split; [done|]. split; [by rewrite length_for_below|].
      split; [|done]. rewrite lookup_for_below. destruct Hr4 as [p ->]. by eexists.
    + rewrite lookup_for_below. destruct Hr4 as [p ->].
      by rewrite decide_True by lia.
Qed.

Variable tracks0 : list Track.
Variable fuel : nat.
Hypothesis Htracks : ∀ t, t ∈ tracks0 → selected_wave t = true →
  size_t (GetMaxBlockSize t * 2) = max ∧
  (∀ u : U, (SetBlockSize max (SetSampleRate (GetRate t) u)).1 = bs) ∧
  (GetSamples t).2 + L ≤ fuel.

(** The visit of one track of the working list. *)
Lemma visit_mono i t (st : PassState (U := U)) :
  tracks0 !! i = Some t →
  default [] (mOutputTracks (pEffect st)) !! i = Some t →
  mono_state bs bsz st →
  ∃ st', visit fuel false false i st = Some (st', Returns true) ∧
         mono_state bs bsz st' ∧
         default [] (mOutputTracks (pEffect st'))
         = <[i := processed_track T t]> (default [] (mOutputTracks (pEffect st))).
Proof.
  intros Ht0 Ht Hst. unfold visit. rewrite Ht.
  change (bool_decide (GetKind t = WaveTrackKind) && GetSelected t) with (selected_wave t).
  unfold processed_track.
  destruct (selected_wave t) eqn:Hsel.
  - destruct (Htracks t (list_elem_of_lookup_2 _ _ _ Ht0) Hsel) as (Hm & Hb & Hf).
    unfold process_group. destruct (GetSamples t) as [ls n]. simpl in Hf. cbn [fst snd andb].
    set (st0 := mkPass (set_mNumChannels 1 (pEffect st)) (pBuffers st) (pClear st) (pCount st)).
    assert (mono_state bs bsz st0) as Hst0 by exact Hst.
    destruct (buffer_manager_mono t st0 Hm (Hb _) Hst0)
      as (Hbs1 & Hbsz1 & Hbuf1 & Hpos1 & Hin1 & Hout1 & Hnc1 & Hot1 & Hcnt1).
    change (bool_decide (is_Some (@None Track))) with false.
    set (st1 := buffer_manager t false st0) in *. clearbody st1.
    set (e3 := log_event _ (pEffect st1)).
    destruct mono_sizes as (Hpos & Hbpos & HBS).
    assert (mNumAudioOut (pEffect st0) = mNumAudioOut (pEffect st)) as Hout0 by done.
    assert (mNumChannels (pEffect st0) = 1) as Hnc0 by done.
    assert (mOutputTracks (pEffect st0) = mOutputTracks (pEffect st)) as Hot0 by done.
    assert (0 < Z.to_nat (mBlockSize e3)) as P1.
    { subst e3. effect_simpl. by rewrite Hbs1. }
    assert (∃ m, Z.to_nat (mBufferSize e3) = S m * Z.to_nat (mBlockSize e3)) as P2.
    { subst e3. effect_simpl. by rewrite Hbs1, Hbsz1. }
    assert (mNumChannels e3 = 1) as P3.
    { subst e3. effect_simpl. by rewrite Hnc1. }
    assert (1 ≤ mNumAudioOut e3) as P4.
    { subst e3. effect_simpl. rewrite Hout1, Hout0. by destruct Hst as (_ & ? & _). }
    assert (mono_buffers (Z.to_nat (mBufferSize e3)) (Z.to_nat (mBlockSize e3))
              (pBuffers st1)) as P5.
    { subst e3. effect_simpl. by rewrite Hbs1, Hbsz1. }
    destruct (ProcessTrack_aligned_run L Q0 T R fuel e3 (pCount st)
                [channel_name t; ChannelNameEOL] t ls 0 n (pBuffers st1)
                Hunit P1 P2 P3 P4 P5 Hpos1 Hf)
      as (r & -> & Hio & Hbuf).
    rewrite Hio. cbn [rightTrack leftTrack returned_true].
    eexists. split; [done|]. cbn [pEffect pBuffers]. effect_simpl.
    split; [|done]. unfold mono_state. cbn [pEffect pBuffers]. effect_simpl.
    split; [subst e3; by effect_simpl|].
    split; [subst e3; effect_simpl; rewrite Hout1, Hout0; by destruct Hst as (_ & ? & _)|].
    right. revert Hbuf. subst e3. effect_simpl. rewrite Hbs1, Hbsz1. by split.
  - unfold sync_lock_adjust. destruct (IsSyncLockSelected t).
    + eexists. split; [done|]. split; [exact Hst|]. done.
    + exists st. split; [done|]. split; [done|].
      by rewrite list_insert_id.
Qed.

(** The visit of the whole list. *)
Lemma VisitWhile_mono k : ∀ i (st : PassState (U := U)),
  i + k = length tracks0 → mono_state bs bsz st →
  default [] (mOutputTracks (pEffect st))
    = (processed_track T <$> take i tracks0) ++ drop i tracks0 →
  ∃ st', VisitWhile fuel false false (seq i k) st = Some (st', Returns true) ∧
         default [] (mOutputTracks (pEffect st')) = processed_track T <$> tracks0.
Proof.
  induction k as [|k IH]; intros i st Hlen Hst Hout; simpl.
  - exists st. split; [done|].
    by rewrite Hout, take_ge, drop_ge, app_nil_r by lia.
  - destruct (lookup_lt_is_Some_2 tracks0 i ltac:(lia)) as [t Ht].
    assert (length (processed_track T <$> take i tracks0) = i) as Hli.
    { rewrite length_fmap, length_take. lia. }
    destruct (visit_mono i t st Ht) as (st' & -> & Hst' & Hout'); [|done|].
    { rewrite Hout, lookup_app_r by lia. rewrite Hli, Nat.sub_diag, lookup_drop.
      by rewrite Nat.add_0_r. }
    apply IH; [lia|done|].
    rewrite Hout', Hout.
    rewrite insert_app_r_alt by lia. rewrite Hli, Nat.sub_diag.
    rewrite (drop_S _ _ _ Ht). simpl.
    rewrite (take_S_r _ _ _ Ht), fmap_app. simpl. by rewrite <- app_assoc.
Qed.
End MonoPass.

Lemma ProcessPass_aligned_run {U : Type} `{EffectClient U} L Q0 T R (max bs : Z) fuel
    (e : Effect U) (tracks : list Track) :
  delay_line_unit L Q0 T R →
  (0 < max)%Z → (0 < bs)%Z → (max + 2 * bs ≤ 2 ^ 64)%Z →
  mNumAudioIn e = 1 → 1 ≤ mNumAudioOut e →
  mOutputTracks e = Some tracks →
  (∀ t, t ∈ tracks → selected_wave t = true →
     size_t (GetMaxBlockSize t * 2) = max ∧
     (∀ u : U, (SetBlockSize max (SetSampleRate (GetRate t) u)).1 = bs) ∧
     (GetSamples t).2 + L ≤ fuel) →
  ∃ e', ProcessPass fuel e = Some (e', Returns true) ∧
        mOutputTracks e' = Some (processed_track T <$> tracks) ∧
        mTracks e' = mTracks e.
Proof.
  intros Hunit Hmax Hbs Hrange Hin Hout Htr Htracks.
  set (e1 := set_mBlockSize 0%Z (set_mBufferSize 0%Z
               (log_event (EvProcessPass (mPass e)) e))).
  destruct (VisitWhile_mono L Q0 T R Hunit max bs Hmax Hbs Hrange tracks fuel Htracks
              (length tracks) 0 (mkPass e1 (mkBuffers [] [] [] []) false 0))
    as (st' & HV & Hout').
  { done. }
  { split; [done|]. split; [done|]. by left. }
  { cbn [pEffect]. subst e1. effect_simpl. by rewrite Htr. }
  assert (ProcessPass fuel e = Some (pEffect st', Returns true)) as HP.
  { unfold ProcessPass, ProcessPass_visit. fold e1.
    assert (bool_decide (GetType (mClient (log_event (EvProcessPass (mPass e)) e))
                         = EffectTypeGenerate) = false) as ->.
    { apply bool_decide_eq_false_2. by rewrite (dl_type _ _ _ _ Hunit). }
    assert (bool_decide (1 < mNumAudioIn e1) = false) as ->.
    { subst e1. effect_simpl. by rewrite Hin. }
    assert (default [] (mOutputTracks e1) = tracks) as ->.
    { subst e1. effect_simpl. by rewrite Htr. }
    unfold Any. by rewrite HV. }
  exists (pEffect st'). split; [done|].
  destruct (ProcessPass_frame fuel e _ _ ltac:(by rewrite Htr) HP)
    as (Ht & _ & _ & _ & _ & _ & _ & _ & _ & _ & [l Hl] & _).
  revert Ht. effect_simpl. intros Ht. split; [|done].
  rewrite Hl in Hout' |- *. simpl in Hout'. by rewrite Hout'.
Qed.

(** X14: a pass of a mono effect.  For an effect with one input whose
    unit computes the causal transform [T] with a latency that it reports
    once, and that answers the same block size for every selected wave
    track, [ProcessPass] returns true, and every track of the working list
    is processed on its own: a selected wave track has its selection
    replaced by the transform of the selection, another track is adjusted
    when it is sync-lock selected and left alone otherwise.  The tracks of
    the project are not touched. *)
Theorem ProcessPass_aligned {U : Type} `{EffectClient U} L Q0 T R (max bs : Z) fuel
    (e : Effect U) (tracks : list Track) :
  delay_line_unit L Q0 T R →
  (0 < max)%Z → (0 < bs)%Z → (max + 2 * bs ≤ 2 ^ 64)%Z →
  mNumAudioIn e = 1 → 1 ≤ mNumAudioOut e →
  mOutputTracks e = Some tracks →
  (∀ t, t ∈ tracks → selected_wave t = true →
     size_t (GetMaxBlockSize t * 2) = max ∧
     (∀ u : U, (SetBlockSize max (SetSampleRate (GetRate t) u)).1 = bs) ∧
     (GetSamples t).2 + L ≤ fuel) →
  ∃ e', ProcessPass fuel e = Some (e', Returns true) ∧
        mOutputTracks e' = Some (processed_track T <$> tracks) ∧
        mTracks e' = mTracks e.
Proof.
  apply ProcessPass_aligned_run.
Qed.

(** A delay line of 3 samples on a project of two selected mono tracks:
    both working copies hold the gained samples, in place. *)
Lemma ProcessPass_aligned_witness :
  ∃ e',
    ProcessPass (H := delay_client (plain_delay 3 false)) 13
      (Process_prepare (H := delay_client (plain_delay 3 false))
         (fresh_effect [ramp_track 1 10 true; ramp_track 2 6 true]))
    = Some (e', Returns true) ∧
    samples <$> default [] (mOutputTracks e')
    = [[101; 102; 103; 104; 105; 106; 107; 108; 109; 110];
       [101; 102; 103; 104; 105; 106]]%Z.
Proof.
  destruct (ProcessPass_aligned (H := delay_client (plain_delay 3 false))
      3 (replicate 3 0%Z) (fmap (λ x, (x + 100)%Z))
      (λ u h rep,
         dsQueue u = [drop (length h) (replicate 3 0%Z ++ ((λ x, (x + 100)%Z) <$> h))] ∧
         dsReported u = rep)
      8 4 13
      (Process_prepare (H := delay_client (plain_delay 3 false))
         (fresh_effect [ramp_track 1 10 true; ramp_track 2 6 true]))
      [Duplicate 3 (ramp_track 1 10 true); Duplicate 4 (ramp_track 2 6 true)])
    as (e' & He & Ho & _).
  - exact (delay_line_unit_delay (plain_delay 3 false) eq_refl eq_refl eq_refl eq_refl eq_refl).
  - lia.
  - lia.
  - lia.
  - reflexivity.
  - simpl. lia.
  - reflexivity.
  - intros t Ht _.
    apply elem_of_cons in Ht as [->|Ht];
      [|apply list_elem_of_singleton in Ht as ->];
      (split; [reflexivity|split; [intros u; reflexivity|vm_compute; lia]]).
  - exists e'. split; [exact He|]. rewrite Ho. reflexivity.
Defined.

(** ** A run of a mono effect, from the copies to the commit *)

Lemma Duplicate_tid t : Duplicate (tid t) t = t.
Proof. by destruct t. Qed.

Lemma fmap_Replace {B} (g : Track → B) a o tracks :
  NoDup (tid <$> tracks) →
  g <$> TrackList_Replace a o tracks
  = (λ x, if decide (tid x = a) then g o else g x) <$> tracks.
Proof.
  induction tracks as [|x tracks IH]; simpl; intros Hnd; [done|].
  apply list.NoDup_cons in Hnd as [Hx Hnd].
  case_decide as Hd; simpl; f_equal; [|by apply IH].
  apply list_fmap_ext. intros i y Hy. rewrite decide_False; [done|].
  intros Hy'. destruct Hx. rewrite Hd, <- Hy'.
  apply list_elem_of_fmap_2. by eapply list_elem_of_lookup_2.
Qed.

Lemma elem_of_Replace_other x a o tracks :
  x ∈ tracks → tid x ≠ a → x ∈ TrackList_Replace a o tracks.
Proof.
  induction tracks as [|y tracks IH]; simpl; [done|].
  rewrite elem_of_cons. intros [->|Hx] Hne.
  - rewrite decide_False by done. by left.
  - case_decide; right; [done|by apply IH].
Qed.

Section CommitProcessed.
Variable f : Track → Track.
Hypothesis Hf : ∀ a t, f (Duplicate a t) = Duplicate a (f t).

Lemma tid_processed t : tid (f t) = tid t.
Proof. rewrite <- (Duplicate_tid t) at 1. by rewrite Hf. Qed.

(** The commit of processed copies: every original gives way to the
    processed copy of itself. *)
Lemma replace_loop_processed el : ∀ base tracks,
  (∀ x, x ∈ tracks → tid x < base) →
  NoDup (tid <$> tracks) → NoDup (tid <$> el) → (∀ t, t ∈ el → t ∈ tracks) →
  ∃ tracks',
    replace_loop (imap (λ k t, Duplicate (base + k) (f t)) el)
                 ((λ t, Some (tid t)) <$> el)
                 (tid <$> imap (λ k t, Duplicate (base + k) (f t)) el) tracks
    = Some tracks' ∧
    content <$> tracks'
    = (λ x, content (if decide (tid x ∈ tid <$> el) then f x else x)) <$> tracks.
Proof.
  induction el as [|t el IH]; intros base tracks Hlt Hnd Hnde Hsub.
  - exists tracks. split; [done|]. apply list_fmap_ext. intros i x _.
    destruct (decide (tid x ∈ tid <$> [])) as [Hin|]; [|done].
    by apply elem_of_nil in Hin.
  - rewrite imap_cons, !fmap_cons, replace_loop_cons.
    rewrite decide_True by done. rewrite Nat.add_0_r.
    assert (imap ((λ k t0, Duplicate (base + k) (f t0)) ∘ S) el
            = imap (λ k t0, Duplicate (S base + k) (f t0)) el) as ->.
    { apply imap_ext. intros k x _. simpl. f_equal. lia. }
    apply list.NoDup_cons in Hnde as [Ht Hnde].
    set (o := Duplicate base (f t)).
    assert (tid o ∉ tid <$> tracks) as Ho.
    { intros Hin. apply list_elem_of_fmap in Hin as (y & Hy & Hin).
      specialize (Hlt y Hin). simpl in Hy. lia. }
    destruct (IH (S base) (TrackList_Replace (tid t) o tracks)) as (tracks' & -> & Hc).
    + intros x Hx. apply elem_of_Replace in Hx as [->|Hx]; [simpl; lia|].
      specialize (Hlt x Hx). lia.
    + by apply NoDup_Replace.
    + done.
    + intros t' Ht'. apply elem_of_Replace_other; [apply Hsub; by right|].
      intros Heq. destruct Ht. rewrite <- Heq. by apply list_elem_of_fmap_2.
    + exists tracks'. split; [done|]. rewrite Hc.
      rewrite (fmap_Replace _ (tid t) o tracks Hnd).
      apply list_fmap_ext. intros i x Hx.
      apply list_elem_of_lookup_2 in Hx.
      case_decide as Hd.
      * rewrite decide_False; last first.
        { intros Hin. apply list_elem_of_fmap in Hin as (y & Hy & Hin).
          specialize (Hlt y (Hsub y ltac:(by right))). simpl in Hy. lia. }
        rewrite decide_True by (rewrite Hd; by left).
        assert (x = t) as ->.
        { apply (tid_inj tracks); [done|done|apply Hsub; by left|done]. }
        done.
      * destruct (decide (tid x ∈ tid <$> el)) as [Hin|Hnin].
        -- by rewrite decide_True by (by right).
        -- rewrite decide_False; [done|]. by apply not_elem_of_cons.
Qed.
End CommitProcessed.

Section ProcessedCopies.
Context {U : Type} `{EffectClient U}.
Variable T : list sample → list sample.
Hypothesis Hsamples : ∀ a t, GetSamples (Duplicate a t) = GetSamples t.
Hypothesis Hadjust : ∀ a t, SyncLockAdjust (Duplicate a t) = SyncLockAdjust t.

Lemma processed_Duplicate a t :
  processed_track T (Duplicate a t) = Duplicate a (processed_track T t).
Proof.
  unfold processed_track. rewrite Hsamples, Hadjust.
  change (selected_wave (Duplicate a t)) with (selected_wave t).
  change (IsSyncLockSelected (Duplicate a t)) with (IsSyncLockSelected t).
  destruct (selected_wave t); [done|]. by destruct (IsSyncLockSelected t).
Qed.

Lemma processed_other t :
  GetSelected t || IsSyncLockSelected t = false → processed_track T t = t.
Proof.
  intros [Hs Hl]%orb_false_elim. unfold processed_track, selected_wave.
  by rewrite Hs, Hl, andb_false_r.
Qed.
End ProcessedCopies.

Lemma Process_aligned_run {U : Type} `{EffectClient U} L Q0 T R (max bs : Z) fuel
    (e : Effect U) :
  delay_line_unit L Q0 T R →
  (0 < max)%Z → (0 < bs)%Z → (max + 2 * bs ≤ 2 ^ 64)%Z →
  (∀ u : U, GetAudioInCount u = 1) → (∀ u : U, 1 ≤ GetAudioOutCount u) →
  (∀ u : U, (InitPass1 u).1 = true) → (∀ u : U, (InitPass2 u).1 = false) →
  (∀ a t, GetSamples (Duplicate a t) = GetSamples t) →
  (∀ a t, SyncLockAdjust (Duplicate a t) = SyncLockAdjust t) →
  NoDup (tid <$> mTracks e) →
  (∀ t, t ∈ mTracks e → selected_wave t = true →
     size_t (GetMaxBlockSize t * 2) = max ∧
     (∀ u : U, (SetBlockSize max (SetSampleRate (GetRate t) u)).1 = bs) ∧
     (GetSamples t).2 + L ≤ fuel) →
  ∃ e', Process fuel e = Some (e', Returns true) ∧
        content <$> mTracks e' = (λ t, content (processed_track T t)) <$> mTracks e ∧
        mOutputTracks e' = None ∧ nEffectsDone e' = S (nEffectsDone e).
Proof.
  intros Hunit Hmax Hbs Hrange Hin Hout Hp1 Hp2 Hsam Hadj Hnd Htracks.
  set (P := λ t : Track, GetSelected t || IsSyncLockSelected t = true).
  set (el := filter P (mTracks e)).
  set (base := fresh_address (mTracks e)).
  set (copies := imap (λ k t, Duplicate (base + k) t) el).
  unfold Process. set (e1 := Process_prepare e).
  assert (mOutputTracks e1 = Some copies ∧ mTracks e1 = mTracks e ∧
          mIMap e1 = (λ t, Some (tid t)) <$> el ∧ mOMap e1 = tid <$> copies ∧
          mNumAudioIn e1 = 1 ∧ 1 ≤ mNumAudioOut e1 ∧ nEffectsDone e1 = nEffectsDone e)
    as (Ho1 & Ht1 & Him1 & Hom1 & Hin1 & Hout1 & Hn1).
  { subst e1. unfold Process_prepare, CopyInputTracks. effect_simpl.
    split_and!; try done; apply Hout. }
  pose proof (Hp1 (mClient e1)) as Hok1.
  destruct (InitPass1 (mClient e1)) as [ok1 u1]. simpl in Hok1. subst ok1.
  destruct (ProcessPass_aligned_run L Q0 T R max bs fuel (set_mClient u1 e1) copies)
    as (e3 & HP & Ho3 & Ht3); try done.
  { intros t Ht Hsel. subst copies.
    apply elem_of_lookup_imap in Ht as (k & t0 & -> & Hk).
    apply list_elem_of_lookup_2, list_elem_of_filter in Hk as [_ Hk].
    rewrite Hsam. apply (Htracks t0 Hk Hsel). }
  rewrite HP.
  apply ProcessPass_frame in HP as (_ & Him3 & Hom3 & _ & _ & _ & _ & _ & _ & Hn3 & _);
    [|by eexists].
  revert Ht3 Him3 Hom3 Hn3. effect_simpl. intros Ht3 Him3 Hom3 Hn3.
  pose proof (Hp2 (mClient e3)) as Hok2.
  destruct (InitPass2 (mClient e3)) as [ok2 u2]. simpl in Hok2. subst ok2.
  unfold Process_commit, ReplaceProcessedTracks. cbn [negb]. effect_simpl.
  rewrite Ho3, Him3, Hom3, Ht3, Him1, Hom1, Ht1. cbn [default].
  assert (processed_track T <$> copies
          = imap (λ k t, Duplicate (base + k) (processed_track T t)) el) as ->.
  { subst copies. rewrite fmap_imap. apply imap_ext. intros k t _. simpl.
    by apply processed_Duplicate. }
  assert (tid <$> copies
          = tid <$> imap (λ k t, Duplicate (base + k) (processed_track T t)) el) as ->.
  { subst copies. rewrite !fmap_imap. by apply imap_ext. }
  unfold id.
  destruct (replace_loop_processed (processed_track T) el base (mTracks e))
    as (tracks' & -> & Hc).
  - intros x Hx. subst base. unfold fresh_address.
    assert (tid x ≤ max_list (tid <$> mTracks e)); [|lia].
    apply max_list_elem_of_le. by apply list_elem_of_fmap_2.
  - done.
  - subst el. apply (NoDup_fmap_2_strong tid).
    + intros x y Hx%list_elem_of_filter Hy%list_elem_of_filter Hxy.
      apply (tid_inj (mTracks e)); tauto.
    + apply list.NoDup_filter. by apply (NoDup_fmap_1 tid).
  - intros t Ht. by apply list_elem_of_filter in Ht as [_ Ht].
  - eexists. split; [done|]. effect_simpl. split; [|by rewrite Hn3, Hn1].
    rewrite Hc. apply list_fmap_ext. intros i x Hx.
    apply list_elem_of_lookup_2 in Hx.
    case_decide as Hd; [done|].
    rewrite processed_other; [done|].
    destruct (GetSelected x || IsSyncLockSelected x) eqn:HP'; [|done].
    destruct Hd. apply list_elem_of_fmap_2. by apply list_elem_of_filter.
Qed.

(** X15: a run of a mono effect, from the copies to the commit.  For
    a one-pass effect with one input whose unit computes the causal
    transform [T] with a latency that it reports once, on a project of
    tracks with distinct addresses, [Process] returns true and commits:
    the project has the same tracks in the same order, every selected
    wave track with its selection replaced by the transform of the
    selection, every other sync-lock selected track adjusted, and all
    other tracks as they were. *)
Theorem Process_aligned {U : Type} `{EffectClient U} L Q0 T R (max bs : Z) fuel
    (e : Effect U) :
  delay_line_unit L Q0 T R →
  (0 < max)%Z → (0 < bs)%Z → (max + 2 * bs ≤ 2 ^ 64)%Z →
  (∀ u : U, GetAudioInCount u = 1) → (∀ u : U, 1 ≤ GetAudioOutCount u) →
  (∀ u : U, (InitPass1 u).1 = true) → (∀ u : U, (InitPass2 u).1 = false) →
  (∀ a t, GetSamples (Duplicate a t) = GetSamples t) →
  (∀ a t, SyncLockAdjust (Duplicate a t) = SyncLockAdjust t) →
  NoDup (tid <$> mTracks e) →
  (∀ t, t ∈ mTracks e → selected_wave t = true →
     size_t (GetMaxBlockSize t * 2) = max ∧
     (∀ u : U, (SetBlockSize max (SetSampleRate (GetRate t) u)).1 = bs) ∧
     (GetSamples t).2 + L ≤ fuel) →
  ∃ e', Process fuel e = Some (e', Returns true) ∧
        content <$> mTracks e' = (λ t, content (processed_track T t)) <$> mTracks e ∧
        mOutputTracks e' = None ∧ nEffectsDone e' = S (nEffectsDone e).
Proof.
  apply Process_aligned_run.
Qed.

(** A delay line of 3 samples on a project of a selected and an
    unselected track: the first holds the gained samples, the second is
    as it was. *)
Lemma Process_aligned_witness :
  ∃ e',
    Process (H := delay_client (plain_delay 3 false)) 13 cancelled_project
    = Some (e', Returns true) ∧
    samples <$> mTracks e'
    = [[101; 102; 103; 104; 105; 106; 107; 108; 109; 110]; [1; 2; 3; 4; 5; 6]]%Z.
Proof.
  destruct (Process_aligned (H := delay_client (plain_delay 3 false))
      3 (replicate 3 0%Z) (fmap (λ x, (x + 100)%Z))
      (λ u h rep,
         dsQueue u = [drop (length h) (replicate 3 0%Z ++ ((λ x, (x + 100)%Z) <$> h))] ∧
         dsReported u = rep)
      8 4 13 cancelled_project)
    as (e' & He & Hc & _).
  - exact (delay_line_unit_delay (plain_delay 3 false) eq_refl eq_refl eq_refl eq_refl eq_refl).
  - lia.
  - lia.
  - lia.
  - intros u. reflexivity.
  - intros u. simpl. lia.
  - intros u. reflexivity.
  - intros u. reflexivity.
  - intros a t. reflexivity.
  - intros a t. reflexivity.
  - vm_compute. repeat constructor; rewrite ?elem_of_cons, ?elem_of_nil; lia.
  - intros t Ht Hsel.
    apply elem_of_cons in Ht as [->|Ht];
      [|apply list_elem_of_singleton in Ht as ->; discriminate Hsel].
    split; [reflexivity|split; [intros u; reflexivity|vm_compute; lia]].
  - exists e'. split; [exact He|].
    assert (samples <$> mTracks e' = samples <$> (content <$> mTracks e')) as ->.
    { rewrite <- list_fmap_compose. by apply list_fmap_ext. }
    rewrite Hc. reflexivity.
Defined.

(** X16: the whole run.  Under the conditions of X15, for an effect
    whose [Init] and dialog succeed and that is not skipped, [DoEffect]
    returns true and leaves the project with every selected wave track
    transformed on its selection, every other sync-lock selected track
    adjusted and all other tracks as they were, in the same order; no
    working copy is left, the run is counted, and the progress dialog is
    the caller's again. *)
Theorem DoEffect_aligned {U : Type} `{EffectClient U} L Q0 T R (max bs : Z) fuel
    (e : Effect U) :
  delay_line_unit L Q0 T R →
  (0 < max)%Z → (0 < bs)%Z → (max + 2 * bs ≤ 2 ^ 64)%Z →
  (∀ u : U, GetAudioInCount u = 1) → (∀ u : U, 1 ≤ GetAudioOutCount u) →
  (∀ u : U, IsNyquistPrompt u = false) →
  (∀ u : U, (Init u).1 = true) → (∀ u : U, (ShowInterface u).1 = true) →
  (∀ u : U, CheckWhetherSkipEffect u = false) →
  (∀ u : U, (InitPass1 u).1 = true) → (∀ u : U, (InitPass2 u).1 = false) →
  (∀ a t, GetSamples (Duplicate a t) = GetSamples t) →
  (∀ a t, SyncLockAdjust (Duplicate a t) = SyncLockAdjust t) →
  NoDup (tid <$> mTracks e) →
  (∀ t, t ∈ mTracks e → selected_wave t = true →
     size_t (GetMaxBlockSize t * 2) = max ∧
     (∀ u : U, (SetBlockSize max (SetSampleRate (GetRate t) u)).1 = bs) ∧
     (GetSamples t).2 + L ≤ fuel) →
  ∃ e', DoEffect fuel e = Some (e', Returns true) ∧
        content <$> mTracks e' = (λ t, content (processed_track T t)) <$> mTracks e ∧
        mOutputTracks e' = None ∧ mIMap e' = [] ∧ mOMap e' = [] ∧
        nEffectsDone e' = S (nEffectsDone e) ∧ mProgress e' = mProgress e.
Proof.
  intros Hunit Hmax Hbs Hrange Hin Hout Hny Hinit Hshow Hskip Hp1 Hp2 Hsam Hadj Hnd Htracks.
  unfold DoEffect, DoEffect_enter.
  set (e0 := CountWaveTracks (set_mOutputTracks None e)).
  assert (bool_decide (GetType (mClient e0) = EffectTypeGenerate) = false) as ->.
  { apply bool_decide_eq_false_2. by rewrite (dl_type _ _ _ _ Hunit). }
  rewrite Hny. cbn [orb andb].
  set (eb := CountWaveTracks e0).
  pose proof (Hinit (mClient eb)) as Hi.
  destruct (Init (mClient eb)) as [okInit u]. simpl in Hi. subst okInit.
  effect_simpl.
  pose proof (Hshow u) as Hs.
  destruct (ShowInterface u) as [okShow u']. simpl in Hs. subst okShow.
  effect_simpl. rewrite Hskip.
  set (ep := set_mProgress true (set_mClient u' (set_mClient u eb))).
  assert (mTracks ep = mTracks e ∧ nEffectsDone ep = nEffectsDone e) as (Ht & Hn) by done.
  destruct (Process_aligned_run L Q0 T R max bs fuel ep Hunit Hmax Hbs Hrange Hin Hout
              Hp1 Hp2 Hsam Hadj)
    as (e' & -> & Hc & Ho & Hn').
  { by rewrite Ht. }
  { by rewrite Ht. }
  unfold DoEffect_leave, DoEffect_cleanup, ReplaceProcessedTracks.
  cbn [returned_true negb]. effect_simpl.
  eexists. split; [done|]. effect_simpl.
  rewrite Ho, Hc, Ht, Hn', Hn. done.
Qed.

(** The same project through [DoEffect]. *)
Lemma DoEffect_aligned_witness :
  ∃ e',
    DoEffect (H := delay_client (plain_delay 3 false)) 13 cancelled_project
    = Some (e', Returns true) ∧
    samples <$> mTracks e'
    = [[101; 102; 103; 104; 105; 106; 107; 108; 109; 110]; [1; 2; 3; 4; 5; 6]]%Z ∧
    nEffectsDone e' = 1.
Proof.
  destruct (DoEffect_aligned (H := delay_client (plain_delay 3 false))
      3 (replicate 3 0%Z) (fmap (λ x, (x + 100)%Z))
      (λ u h rep,
         dsQueue u = [drop (length h) (replicate 3 0%Z ++ ((λ x, (x + 100)%Z) <$> h))] ∧
         dsReported u = rep)
      8 4 13 cancelled_project)
    as (e' & He & Hc & _ & _ & _ & Hn & _).
  - exact (delay_line_unit_delay (plain_delay 3 false) eq_refl eq_refl eq_refl eq_refl eq_refl).
  - lia.
  - lia.
  - lia.
  - intros u. reflexivity.
  - intros u. simpl. lia.
  - intros u. reflexivity.
  - intros u. reflexivity.
  - intros u. reflexivity.
  - intros u. reflexivity.
  - intros u. reflexivity.
  - intros u. reflexivity.
  - intros a t. reflexivity.
  - intros a t. reflexivity.
  - vm_compute. repeat constructor; rewrite ?elem_of_cons, ?elem_of_nil; lia.
  - intros t Ht Hsel.
    apply elem_of_cons in Ht as [->|Ht];
      [|apply list_elem_of_singleton in Ht as ->; discriminate Hsel].
    split; [reflexivity|split; [intros u; reflexivity|vm_compute; lia]].
  - exists e'. split; [exact He|]. split; [|exact Hn].
    assert (samples <$> mTracks e' = samples <$> (content <$> mTracks e')) as ->.
    { rewrite <- list_fmap_compose. by apply list_fmap_ext. }
    rewrite Hc. reflexivity.
Defined.

(** ** The run of a generator *)

Section Generator.
Context {U : Type} `{EffectClient U}.
Variables (c : Ctx) (leftT : Track) (G : nat → sample) (S : U → nat → Prop).
Hypothesis Hunit : generator_unit G S.
Hypothesis HB : 0 < blockSize c.
Hypothesis HBS : blockSize c ≤ bufferSize c.
Hypothesis Hnum : numChannels c = 1.
Hypothesis Hch : chans c = 1.
Hypothesis Hproc : isProcessor c = false.
Hypothesis Hgen : isGenerator c = true.

Local Abbreviation inv := (gen_inv c leftT G S).

Lemma gen_iteration N q (r : Run U) :
  inv N q r → delayRemaining (loc r) ≠ 0 →
  ∃ r' n q', iteration c r = Continue r' ∧ 0 < n ∧ inv (N + n) q' r'.
Proof.
  intros [Hi Ht He Hcl Hu Hrm Hp (a & Ha & Hal & Hat) Hio] Hgo.
  set (cnt := outputBufferCnt (loc r)) in *.
  set (cur := Nat.min (blockSize c) (delayRemaining (loc r))).
  assert (0 < cur ≤ blockSize c) as Hcur by (unfold cur; lia).
  unfold iteration, next_block.
  rewrite decide_False by lia. rewrite decide_True by done.
  unfold delay_block. rewrite Hcl. unfold limitSampleBufferSize. fold cur.
  unfold call_block. run_simpl.
  destruct (gu_block _ _ Hunit (input_views (buf r)) cur (client r) N Hu)
    as (p & outs & u' & -> & Hout & Hu').
  set (r2 := if decide (p = cur) then _ else _).
  assert (∃ t2, r2 = mkRun (mkLocals (inLeftPos (loc r)) (inRightPos (loc r))
                              (outLeftPos (loc r)) (outRightPos (loc r)) 0
                              (curDelay (loc r)) (delayRemaining (loc r) - cur) cur
                              (inputBufferCnt (loc r)) cnt true)
                     (mkBuffers (inBuffer (buf r)) (write_outputs outs (buf r))
                                (inBufPos (buf r)) (outBufPos (buf r)))
                     (io r) u' t2) as (t2 & Hr2).
  { subst r2. rewrite Hi. case_decide; by eexists. }
  clearbody r2. subst r2.
  unfold bump_input. run_simpl. rewrite decide_False by lia.
  rewrite compensate_not_processor by done.
  assert (write_outputs outs (buf r) !! 0 = Some (list_inserts cnt (G <$> seq N cur) a)) as Hw.
  { unfold write_outputs. rewrite list_lookup_imap, Ha. simpl. rewrite Hout.
    unfold pos_of. by rewrite Hp. }
  assert (take (cnt + cur) (list_inserts cnt (G <$> seq N cur) a)
          = G <$> seq q (cnt + cur)) as Htake.
  { rewrite <- take_take_drop, take_list_inserts, Hat.
    rewrite drop_list_inserts by (rewrite length_fmap, length_seq; lia).
    rewrite take_app_length' by (by rewrite length_fmap, length_seq).
    rewrite seq_app, fmap_app. do 3 f_equal. lia. }
  unfold emit. run_simpl. fold cnt.
  case_decide as Hn.
  - unfold report. run_simpl. unfold TrackGroupProgress, TrackProgress.
    rewrite decide_False by lia.
    set (r4 := mkRun _ _ _ _ _).
    assert (∃ u'', (if hasProgress c
                    then let '(res, u0) := ProgressUpdate (count c)
                           (inLeftPos (loc r) + cur - leftStart c)
                           (if isGenerator c then genLength c else len c)
                           (numTracks c) u' in (bool_decide (res ≠ Success), u0)
                    else (false, u')) = (false, u'') ∧ S u'' (N + cur)) as (u'' & -> & Hu'').
    { destruct (hasProgress c); [|by eexists].
      destruct (gu_progress _ _ Hunit (count c) (inLeftPos (loc r) + cur - leftStart c)
                  (if isGenerator c then genLength c else len c) (numTracks c) u' _ Hu')
        as (Hs & HS').
      destruct (ProgressUpdate _ _ _ _ _) as [res u0]. simpl in *. subst res.
      rewrite bool_decide_eq_false_2 by (by intros ?). by eexists. }
    eexists _, cur, q. split; [done|]. split; [lia|].
    subst r4. split; run_simpl; try done; try lia.
    + rewrite lookup_for_below, Hp, Hch. done.
    + eexists. split; [exact Hw|]. split; [by rewrite length_inserts|done].
  - unfold report. run_simpl. unfold TrackGroupProgress, TrackProgress.
    rewrite decide_False by lia.
    set (r4 := mkRun _ _ _ _ _).
    assert (∃ u'', (if hasProgress c
                    then let '(res, u0) := ProgressUpdate (count c)
                           (inLeftPos (loc r) + cur - leftStart c)
                           (if isGenerator c then genLength c else len c)
                           (numTracks c) u' in (bool_decide (res ≠ Success), u0)
                    else (false, u')) = (false, u'') ∧ S u'' (N + cur)) as (u'' & -> & Hu'').
    { destruct (hasProgress c); [|by eexists].
      destruct (gu_progress _ _ Hunit (count c) (inLeftPos (loc r) + cur - leftStart c)
                  (if isGenerator c then genLength c else len c) (numTracks c) u' _ Hu')
        as (Hs & HS').
      destruct (ProgressUpdate _ _ _ _ _) as [res u0]. simpl in *. subst res.
      rewrite bool_decide_eq_false_2 by (by intros ?). by eexists. }
    eexists _, cur, (q + (cnt + cur)). split; [done|]. split; [lia|].
    subst r4. split; run_simpl; try done; try lia.
    + by rewrite lookup_for_below, Hp, Hch.
    + eexists. split; [exact Hw|]. split; [by rewrite length_inserts|done].
    + unfold flush. rewrite Hproc, Hgen. run_simpl. rewrite Hio. simpl.
      f_equal. unfold Track_Append, chan_of. rewrite Hw. simpl.
      by rewrite Htake, (seq_app q (cnt + cur) 0), fmap_app.
Qed.

Lemma gen_loop fuel : ∀ N q (r : Run U),
  inv N q r → genLength c - N ≤ fuel →
  ∃ r' q', block_loop c fuel r = Some (Continue r') ∧ inv (genLength c) q' r'.
Proof.
  induction fuel as [|fuel IH]; intros N q r Hinv Hfuel; simpl;
    pose proof (gi_input _ _ _ _ _ _ _ Hinv) as Hi;
    pose proof (gi_total _ _ _ _ _ _ _ Hinv) as Ht;
    (case_decide as Hdone;
     [destruct Hdone as [_ Hd]; exists r, q; split; [done|];
      by replace (genLength c) with N by lia|]).
  - destruct Hdone. lia.
  - destruct (gen_iteration N q r Hinv ltac:(lia)) as (r' & n & q' & -> & Hn & Hinv').
    apply (IH _ _ _ Hinv'). lia.
Qed.

Lemma gen_finish q (r : Run U) :
  inv (genLength c) q r →
  ∃ r', finish c (Continue r) = (r', Returns true) ∧ buf r' = buf r ∧
        io r' = mkSinks (with_samples (ClearAndPaste leftT (G <$> seq 0 (genLength c))) leftT)
                        None (G <$> seq 0 (genLength c)) None.
Proof.
  intros [Hi Ht He Hcl Hu Hrm Hp (a & Ha & Hal & Hat) Hio].
  set (cnt := outputBufferCnt (loc r)) in *.
  unfold finish. rewrite Hgen.
  set (r1 := if decide (outputBufferCnt (loc r) ≠ 0) then set_io (flush c r) r else r).
  assert (io r1 = mkSinks leftT None (G <$> seq 0 (genLength c)) None ∧ buf r1 = buf r)
    as (Hio1 & Hbuf1).
  { subst r1. fold cnt. case_decide as Hc; (split; [|done]).
    - run_simpl. unfold flush. rewrite Hproc, Hgen, Hio. simpl. f_equal.
      unfold Track_Append, chan_of. rewrite Ha. simpl. fold cnt.
      by rewrite Hat, <- He, (seq_app q cnt 0), fmap_app.
    - rewrite Hio. do 3 f_equal. lia. }
  set (r2 := set_io (paste_generated (io r1)) r1).
  pose proof (gu_finalize _ _ Hunit (client r2)) as Hfin.
  destruct (ProcessFinalize (client r2)) as [ok u]. simpl in Hfin. subst ok.
  eexists. split; [done|]. subst r2. simpl. by rewrite Hio1.
Qed.
End Generator.

Lemma ProcessTrack_generates_run {U : Type} `{EffectClient U} G S fuel (e : Effect U)
    count map leftT ls rs (b : Buffers) :
  generator_unit G S →
  let B := Z.to_nat (mBlockSize e) in
  0 < B → B ≤ Z.to_nat (mBufferSize e) →
  mNumChannels e = 1 → 1 ≤ mNumAudioOut e →
  outBufPos b !! 0 = Some 0 →
  gen_buffers (Z.to_nat (mBufferSize e)) B b →
  GeneratorLength leftT ≤ fuel →
  ∃ r, ProcessTrack fuel e count map leftT None ls rs 0 b = Some (r, Returns true) ∧
       leftTrack (io r)
       = with_samples (ClearAndPaste leftT (G <$> seq 0 (GeneratorLength leftT))) leftT ∧
       rightTrack (io r) = None ∧
       gen_buffers (Z.to_nat (mBufferSize e)) B (buf r).
Proof.
  intros Hunit B HB HBS Hnum Hout Hopos [_ Hroom] Hfuel.
  unfold ProcessTrack.
  destruct (gu_init _ _ Hunit 0 map (mClient e)) as (u & -> & HS).
  set (c := track_ctx e u count leftT ls 0).
  assert (isGenerator c = true) as Hgen.
  { apply bool_decide_eq_true_2, (gu_type _ _ Hunit). }
  assert (isProcessor c = false) as Hproc.
  { apply bool_decide_eq_false_2. by rewrite (gu_type _ _ Hunit). }
  assert (genLength c = GeneratorLength leftT) as Hlen.
  { subst c. unfold track_ctx. cbn [genLength].
    by rewrite (bool_decide_eq_true_2 _ (gu_type _ _ Hunit u)). }
  assert (chans c = 1) as Hch by (simpl; lia).
  set (r0 := initial_run c u (mTrace e) leftT None rs b).
  assert (r0 = mkRun (mkLocals ls rs ls rs 0 0 (genLength c) 0 0 0 true) b
                     (mkSinks leftT None [] None) u (mTrace e)) as Hr0.
  { subst r0. unfold initial_run. by rewrite Hgen. }
  destruct (outBuffer b !! 0) as [a|] eqn:Ha; last first.
  { unfold chan_of in Hroom. rewrite Ha in Hroom. simpl in Hroom. lia. }
  assert (gen_inv c leftT G S 0 0 r0) as Hinv.
  { rewrite Hr0. split; run_simpl; try done.
    - simpl. fold B. lia.
    - exists a. split; [done|]. split; [|done].
      unfold chan_of in Hroom. rewrite Ha in Hroom. exact Hroom. }
  destruct (gen_loop c leftT G S Hunit HB HBS Hnum Hch Hproc Hgen fuel 0 0 r0 Hinv
              ltac:(lia))
    as (r' & q' & -> & Hinv').
  destruct (gen_finish c leftT G S Hunit HB HBS Hnum Hch Hproc Hgen q' r' Hinv')
    as (r & -> & Hbuf & Hio).
  exists r. split; [done|]. rewrite Hio, Hlen, Hbuf. split; [done|]. split; [done|].
  destruct Hinv' as [_ _ _ _ _ _ Hp (a' & Ha' & Hal & _) _].
  split; [by rewrite Hp|]. unfold chan_of. rewrite Ha'. exact Hal.
Qed.

(** X17: the run of a generator.  For a mono track and an effect of
    type Generate whose unit gives out the samples [G 0], [G 1], ...,
    [ProcessTrack] returns true after at most [GeneratorLength] iterations,
    and the track holds what [ClearAndPaste] makes of the first
    [GeneratorLength] samples of the unit, in their order: nothing is
    dropped and nothing is repeated at the borders of the blocks and of
    the buffers. *)
Theorem ProcessTrack_generates {U : Type} `{EffectClient U} G S fuel (e : Effect U)
    count map leftT ls rs (b : Buffers) :
  generator_unit G S →
  let B := Z.to_nat (mBlockSize e) in
  0 < B → B ≤ Z.to_nat (mBufferSize e) →
  mNumChannels e = 1 → 1 ≤ mNumAudioOut e →
  outBufPos b !! 0 = Some 0 →
  Z.to_nat (mBufferSize e) + B ≤ length (chan_of (outBuffer b) 0) →
  GeneratorLength leftT ≤ fuel →
  ∃ r, ProcessTrack fuel e count map leftT None ls rs 0 b = Some (r, Returns true) ∧
       leftTrack (io r)
       = with_samples (ClearAndPaste leftT (G <$> seq 0 (GeneratorLength leftT))) leftT ∧
       rightTrack (io r) = None.
Proof.
  intros Hunit B HB HBS Hnum Hout Hopos Hroom Hfuel.
  destruct (ProcessTrack_generates_run G S fuel e count map leftT ls rs b
              Hunit HB HBS Hnum Hout Hopos (conj (mk_is_Some _ _ Hopos) Hroom) Hfuel)
    as (r & Hr & Hl & Hrt & _).
  by exists r.
Qed.

Lemma generator_unit_ramp n :
  generator_unit (H := ramp_generator n) Z.of_nat (λ u p, u = p).
Proof.
  split; try done.
  - intros k map u. by eexists.
  - intros ins k u p ->. by eexists _, _, _.
Qed.

(** Ten samples in blocks of 4, through buffers of 8. *)
Lemma ProcessTrack_generates_witness :
  ∃ r,
    ProcessTrack (H := ramp_generator 10) 10
      (set_mNumAudioOut 1 (set_mNumChannels 1
         (set_mBlockSize 4%Z (set_mBufferSize 8%Z (generator_effect []))))) 0
      [ChannelNameMono; ChannelNameEOL] (ramp_track 1 3 true) None 0 0 0
      (mkBuffers [] [replicate 12 0%Z] [] [0])
    = Some (r, Returns true) ∧
    samples (leftTrack (io r)) = [0; 1; 2; 3; 4; 5; 6; 7; 8; 9]%Z.
Proof.
  destruct (ProcessTrack_generates (H := ramp_generator 10) Z.of_nat (λ u p, u = p) 10
      (set_mNumAudioOut 1 (set_mNumChannels 1
         (set_mBlockSize 4%Z (set_mBufferSize 8%Z (generator_effect []))))) 0
      [ChannelNameMono; ChannelNameEOL] (ramp_track 1 3 true) 0 0
      (mkBuffers [] [replicate 12 0%Z] [] [0]))
    as (r & Hr & Hl & _).
  - exact (generator_unit_ramp 10).
  - vm_compute. lia.
  - vm_compute. lia.
  - reflexivity.
  - simpl. lia.
  - reflexivity.
  - vm_compute. lia.
  - simpl. lia.
  - exists r. split; [exact Hr|]. rewrite Hl. reflexivity.
Defined.

(** ** A pass and a run of a mono generator *)

Section GeneratorPass.
Context {U : Type} `{EffectClient U}.
Variables (G : nat → sample) (S : U → nat → Prop).
Hypothesis Hunit : generator_unit G S.
Variables (max bs : Z).
Hypothesis Hmax : (0 < max)%Z.
Hypothesis Hbs : (0 < bs)%Z.
Hypothesis Hrange : (max + 2 * bs ≤ 2 ^ 64)%Z.

Local Abbreviation bsz := (spec_bufferSize max bs).

Lemma buffer_manager_gen leftT (st : PassState (U := U)) :
  size_t (GetMaxBlockSize leftT * 2) = max →
  (SetBlockSize max (SetSampleRate (GetRate leftT) (mClient (pEffect st)))).1 = bs →
  gen_state bs bsz st →
  let st' := buffer_manager leftT false st in
  mBlockSize (pEffect st') = bs ∧ mBufferSize (pEffect st') = bsz ∧
  gen_buffers (Z.to_nat bsz) (Z.to_nat bs) (pBuffers st') ∧
  outBufPos (pBuffers st') !! 0 = Some 0 ∧
  mNumAudioIn (pEffect st') = mNumAudioIn (pEffect st) ∧
  mNumAudioOut (pEffect st') = mNumAudioOut (pEffect st) ∧
  mNumChannels (pEffect st') = mNumChannels (pEffect st) ∧
  mOutputTracks (pEffect st') = mOutputTracks (pEffect st).
Proof.
  intros Hm Hb (Hin & Hout & Hsz). cbv zeta. unfold buffer_manager.
  rewrite Hm. destruct (SetBlockSize _ _) as [bs' u2]. simpl in Hb. subst bs'.
  destruct (size_t_buffer_size max bs ltac:(lia) Hbs Hrange) as (-> & Hosz).
  destruct (mono_sizes max bs Hmax Hbs) as (Hpos & Hbpos & m & Hmul).
  rewrite (bool_decide_eq_false_2 (1 < mNumAudioIn (pEffect st))) by lia.
  rewrite andb_false_r.
  case_bool_decide as Hre.
  - rewrite Hosz.
    destruct (length_new_outBuffer (mNumAudioIn (pEffect st)) (mNumAudioOut (pEffect st))
                (Z.to_nat (bsz + bs))) as [Ho1 Ho2].
    effect_simpl. cbn [pEffect pBuffers pCount inBuffer outBuffer inBufPos outBufPos].
    split_and!; try done.
    + unfold gen_buffers. cbn [inBuffer outBuffer inBufPos outBufPos]. split.
      { rewrite lookup_for_below. destruct (mNumAudioOut (pEffect st)); [lia|].
        simpl. by eexists. }
      destruct (new_outBuffer _ (mNumAudioOut (pEffect st)) (Z.to_nat (bsz + bs)))
        as [|a rest] eqn:Hob; [simpl in Ho1; lia|].
      unfold chan_of. simpl. apply list.Forall_cons in Ho2 as [-> _]. lia.
    + rewrite lookup_for_below. destruct (mNumAudioOut (pEffect st)); [lia|]. done.
  - destruct Hsz as [H0|[Heq (Hr4 & Hr5)]]; [lia|].
    effect_simpl. cbn [pEffect pBuffers pCount inBuffer outBuffer inBufPos outBufPos].
    split_and!; try done.
    + unfold gen_buffers. cbn [inBuffer outBuffer inBufPos outBufPos].
      split; [|done]. rewrite lookup_for_below. destruct Hr4 as [p ->]. by eexists.
    + rewrite lookup_for_below. destruct Hr4 as [p ->].
      by rewrite decide_True by lia.
Qed.

Variable tracks0 : list Track.
Variable fuel : nat.
Hypothesis Htracks : ∀ t, t ∈ tracks0 → selected_wave t = true →
  size_t (GetMaxBlockSize t * 2) = max ∧
  (∀ u : U, (SetBlockSize max (SetSampleRate (GetRate t) u)).1 = bs) ∧
  GeneratorLength t ≤ fuel.

Lemma visit_gen i t (st : PassState (U := U)) :
  tracks0 !! i = Some t →
  default [] (mOutputTracks (pEffect st)) !! i = Some t →
  gen_state bs bsz st →
  ∃ st', visit fuel false true i st = Some (st', Returns true) ∧
         gen_state bs bsz st' ∧
         default [] (mOutputTracks (pEffect st'))
         = <[i := generated_track G t]> (default [] (mOutputTracks (pEffect st))).
Proof.
  intros Ht0 Ht Hst. unfold visit. rewrite Ht.
  change (bool_decide (GetKind t = WaveTrackKind) && GetSelected t) with (selected_wave t).
  unfold generated_track.
  destruct (selected_wave t) eqn:Hsel.
  - destruct (Htracks t (list_elem_of_lookup_2 _ _ _ Ht0) Hsel) as (Hm & Hb & Hf).
    unfold process_group. cbn [fst snd andb].
    set (st0 := mkPass (set_mNumChannels 1 (pEffect st)) (pBuffers st) (pClear st) (pCount st)).
    assert (gen_state bs bsz st0) as Hst0 by exact Hst.
    destruct (buffer_manager_gen t st0 Hm (Hb _) Hst0)
      as (Hbs1 & Hbsz1 & Hbuf1 & Hpos1 & Hin1 & Hout1 & Hnc1 & Hot1).
    change (bool_decide (is_Some (@None Track))) with false.
    set (st1 := buffer_manager t false st0) in *. clearbody st1.
    set (e3 := log_event _ (pEffect st1)).
    destruct (mono_sizes max bs Hmax Hbs) as (Hpos & Hbpos & m & HBS).
    assert (mNumAudioOut (pEffect st0) = mNumAudioOut (pEffect st)) as Hout0 by done.
    assert (mNumAudioIn (pEffect st0) = mNumAudioIn (pEffect st)) as Hin0 by done.
    assert (mNumChannels (pEffect st0) = 1) as Hnc0 by done.
    assert (0 < Z.to_nat (mBlockSize e3)) as P1.
    { subst e3. effect_simpl. by rewrite Hbs1. }
    assert (Z.to_nat (mBlockSize e3) ≤ Z.to_nat (mBufferSize e3)) as P2.
    { subst e3. effect_simpl. rewrite Hbs1, Hbsz1, HBS. lia. }
    assert (mNumChannels e3 = 1) as P3.
    { subst e3. effect_simpl. by rewrite Hnc1. }
    assert (1 ≤ mNumAudioOut e3) as P4.
    { subst e3. effect_simpl. rewrite Hout1, Hout0. by destruct Hst as (_ & ? & _). }
    assert (gen_buffers (Z.to_nat (mBufferSize e3)) (Z.to_nat (mBlockSize e3))
              (pBuffers st1)) as P5.
    { subst e3. effect_simpl. by rewrite Hbs1, Hbsz1. }
    destruct (ProcessTrack_generates_run G S fuel e3 (pCount st)
                [channel_name t; ChannelNameEOL] t 0 0 (pBuffers st1)
                Hunit P1 P2 P3 P4 Hpos1 P5 Hf)
      as (r & -> & Hl & Hr & Hbuf).
    rewrite Hl, Hr. cbn [returned_true].
    eexists. split; [done|]. cbn [pEffect pBuffers]. effect_simpl.
    split; [|done]. unfold gen_state. cbn [pEffect pBuffers]. effect_simpl.
    split; [subst e3; effect_simpl; rewrite Hin1, Hin0; by destruct Hst as (? & _)|].
    split; [subst e3; effect_simpl; rewrite Hout1, Hout0; by destruct Hst as (_ & ? & _)|].
    right. revert Hbuf. subst e3. effect_simpl. rewrite Hbs1, Hbsz1. by split.
  - unfold sync_lock_adjust. destruct (IsSyncLockSelected t).
    + eexists. split; [done|]. split; [exact Hst|]. done.
    + exists st. split; [done|]. split; [done|].
      by rewrite list_insert_id.
Qed.

Lemma VisitWhile_gen k : ∀ i (st : PassState (U := U)),
  i + k = length tracks0 → gen_state bs bsz st →
  default [] (mOutputTracks (pEffect st))
    = (generated_track G <$> take i tracks0) ++ drop i tracks0 →
  ∃ st', VisitWhile fuel false true (seq i k) st = Some (st', Returns true) ∧
         default [] (mOutputTracks (pEffect st')) = generated_track G <$> tracks0.
Proof.
  induction k as [|k IH]; intros i st Hlen Hst Hout; simpl.
  - exists st. split; [done|].
    by rewrite Hout, take_ge, drop_ge, app_nil_r by lia.
  - destruct (lookup_lt_is_Some_2 tracks0 i ltac:(lia)) as [t Ht].
    assert (length (generated_track G <$> take i tracks0) = i) as Hli.
    { rewrite length_fmap, length_take. lia. }
    destruct (visit_gen i t st Ht) as (st' & -> & Hst' & Hout'); [|done|].
    { rewrite Hout, lookup_app_r by lia. rewrite Hli, Nat.sub_diag, lookup_drop.
      by rewrite Nat.add_0_r. }
    apply IH; [lia|done|].
    rewrite Hout', Hout.
    rewrite insert_app_r_alt by lia. rewrite Hli, Nat.sub_diag.
    rewrite (drop_S _ _ _ Ht). simpl.
    rewrite (take_S_r _ _ _ Ht), fmap_app. simpl. by rewrite <- app_assoc.
Qed.
End GeneratorPass.

Lemma ProcessPass_generates_run {U : Type} `{EffectClient U} G S (max bs : Z) fuel
    (e : Effect U) (tracks : list Track) :
  generator_unit G S →
  (0 < max)%Z → (0 < bs)%Z → (max + 2 * bs ≤ 2 ^ 64)%Z →
  mNumAudioIn e ≤ 1 → 1 ≤ mNumAudioOut e →
  mOutputTracks e = Some tracks →
  (∀ t, t ∈ tracks → selected_wave t = true →
     size_t (GetMaxBlockSize t * 2) = max ∧
     (∀ u : U, (SetBlockSize max (SetSampleRate (GetRate t) u)).1 = bs) ∧
     GeneratorLength t ≤ fuel) →
  ∃ e', ProcessPass fuel e = Some (e', Returns true) ∧
        mOutputTracks e' = Some (generated_track G <$> tracks) ∧
        mTracks e' = mTracks e.
Proof.
  intros Hunit Hmax Hbs Hrange Hin Hout Htr Htracks.
  set (e1 := set_mBlockSize 0%Z (set_mBufferSize 0%Z
               (log_event (EvProcessPass (mPass e)) e))).
  destruct (VisitWhile_gen G S Hunit max bs Hmax Hbs Hrange tracks fuel Htracks
              (length tracks) 0 (mkPass e1 (mkBuffers [] [] [] []) false 0))
    as (st' & HV & Hout').
  { done. }
  { split; [done|]. split; [done|]. by left. }
  { cbn [pEffect]. subst e1. effect_simpl. by rewrite Htr. }
  assert (ProcessPass fuel e = Some (pEffect st', Returns true)) as HP.
  { unfold ProcessPass, ProcessPass_visit. fold e1.
    assert (bool_decide (GetType (mClient (log_event (EvProcessPass (mPass e)) e))
                         = EffectTypeGenerate) = true) as ->.
    { apply bool_decide_eq_true_2. by rewrite (gu_type _ _ Hunit). }
    assert (bool_decide (1 < mNumAudioIn e1) = false) as ->.
    { subst e1. effect_simpl. apply bool_decide_eq_false_2. lia. }
    assert (default [] (mOutputTracks e1) = tracks) as ->.
    { subst e1. effect_simpl. by rewrite Htr. }
    unfold Any. by rewrite HV. }
  exists (pEffect st'). split; [done|].
  destruct (ProcessPass_frame fuel e _ _ ltac:(by rewrite Htr) HP)
    as (Ht & _ & _ & _ & _ & _ & _ & _ & _ & _ & [l Hl] & _).
  revert Ht. effect_simpl. intros Ht. split; [|done].
  rewrite Hl in Hout' |- *. simpl in Hout'. by rewrite Hout'.
Qed.

Section GeneratedCopies.
Context {U : Type} `{EffectClient U}.
Variable G : nat → sample.
Hypothesis Hlength : ∀ a t, GeneratorLength (Duplicate a t) = GeneratorLength t.
Hypothesis Hpaste : ∀ a t g, ClearAndPaste (Duplicate a t) g = ClearAndPaste t g.
Hypothesis Hadjust : ∀ a t, SyncLockAdjust (Duplicate a t) = SyncLockAdjust t.

Lemma generated_Duplicate a t :
  generated_track G (Duplicate a t) = Duplicate a (generated_track G t).
Proof.
  unfold generated_track. rewrite Hlength, Hpaste, Hadjust.
  change (selected_wave (Duplicate a t)) with (selected_wave t).
  change (IsSyncLockSelected (Duplicate a t)) with (IsSyncLockSelected t).
  destruct (selected_wave t); [done|]. by destruct (IsSyncLockSelected t).
Qed.

Lemma generated_other t :
  GetSelected t || IsSyncLockSelected t = false → generated_track G t = t.
Proof.
  intros [Hs Hl]%orb_false_elim. unfold generated_track, selected_wave.
  by rewrite Hs, Hl, andb_false_r.
Qed.
End GeneratedCopies.

Lemma Process_generates_run {U : Type} `{EffectClient U} G S (max bs : Z) fuel
    (e : Effect U) :
  generator_unit G S →
  (0 < max)%Z → (0 < bs)%Z → (max + 2 * bs ≤ 2 ^ 64)%Z →
  (∀ u : U, GetAudioInCount u ≤ 1) → (∀ u : U, 1 ≤ GetAudioOutCount u) →
  (∀ u : U, (InitPass1 u).1 = true) → (∀ u : U, (InitPass2 u).1 = false) →
  (∀ a t, GeneratorLength (Duplicate a t) = GeneratorLength t) →
  (∀ a t g, ClearAndPaste (Duplicate a t) g = ClearAndPaste t g) →
  (∀ a t, SyncLockAdjust (Duplicate a t) = SyncLockAdjust t) →
  NoDup (tid <$> mTracks e) →
  (∀ t, t ∈ mTracks e → selected_wave t = true →
     size_t (GetMaxBlockSize t * 2) = max ∧
     (∀ u : U, (SetBlockSize max (SetSampleRate (GetRate t) u)).1 = bs) ∧
     GeneratorLength t ≤ fuel) →
  ∃ e', Process fuel e = Some (e', Returns true) ∧
        content <$> mTracks e' = (λ t, content (generated_track G t)) <$> mTracks e ∧
        mOutputTracks e' = None ∧ nEffectsDone e' = Datatypes.S (nEffectsDone e) ∧
        mProgress e' = mProgress e.
Proof.
  intros Hunit Hmax Hbs Hrange Hin Hout Hp1 Hp2 Hlen Hpaste Hadj Hnd Htracks.
  set (P := λ t : Track, GetSelected t || IsSyncLockSelected t = true).
  set (el := filter P (mTracks e)).
  set (base := fresh_address (mTracks e)).
  set (copies := imap (λ k t, Duplicate (base + k) t) el).
  unfold Process. set (e1 := Process_prepare e).
  assert (mOutputTracks e1 = Some copies ∧ mTracks e1 = mTracks e ∧
          mIMap e1 = (λ t, Some (tid t)) <$> el ∧ mOMap e1 = tid <$> copies ∧
          mNumAudioIn e1 ≤ 1 ∧ 1 ≤ mNumAudioOut e1 ∧ nEffectsDone e1 = nEffectsDone e ∧
          mProgress e1 = mProgress e)
    as (Ho1 & Ht1 & Him1 & Hom1 & Hin1 & Hout1 & Hn1 & Hpr1).
  { subst e1. unfold Process_prepare, CopyInputTracks. effect_simpl.
    split_and!; try done; (apply Hin || apply Hout). }
  pose proof (Hp1 (mClient e1)) as Hok1.
  destruct (InitPass1 (mClient e1)) as [ok1 u1]. simpl in Hok1. subst ok1.
  destruct (ProcessPass_generates_run G S max bs fuel (set_mClient u1 e1) copies)
    as (e3 & HP & Ho3 & Ht3); try done.
  { intros t Ht Hsel. subst copies.
    apply elem_of_lookup_imap in Ht as (k & t0 & -> & Hk).
    apply list_elem_of_lookup_2, list_elem_of_filter in Hk as [_ Hk].
    rewrite Hlen. apply (Htracks t0 Hk Hsel). }
  rewrite HP.
  apply ProcessPass_frame in HP
    as (_ & Him3 & Hom3 & _ & _ & _ & _ & _ & Hpr3 & Hn3 & _); [|by eexists].
  revert Ht3 Him3 Hom3 Hn3 Hpr3. effect_simpl. intros Ht3 Him3 Hom3 Hn3 Hpr3.
  pose proof (Hp2 (mClient e3)) as Hok2.
  destruct (InitPass2 (mClient e3)) as [ok2 u2]. simpl in Hok2. subst ok2.
  unfold Process_commit, ReplaceProcessedTracks. cbn [negb]. effect_simpl.
  rewrite Ho3, Him3, Hom3, Ht3, Him1, Hom1, Ht1. cbn [default].
  assert (generated_track G <$> copies
          = imap (λ k t, Duplicate (base + k) (generated_track G t)) el) as ->.
  { subst copies. rewrite fmap_imap. apply imap_ext. intros k t _. simpl.
    by apply generated_Duplicate. }
  assert (tid <$> copies
          = tid <$> imap (λ k t, Duplicate (base + k) (generated_track G t)) el) as ->.
  { subst copies. rewrite !fmap_imap. by apply imap_ext. }
  unfold id.
  destruct (replace_loop_processed (generated_track G) el base (mTracks e))
    as (tracks' & -> & Hc).
  - intros x Hx. subst base. unfold fresh_address.
    assert (tid x ≤ max_list (tid <$> mTracks e)); [|lia].
    apply max_list_elem_of_le. by apply list_elem_of_fmap_2.
  - done.
  - subst el. apply (NoDup_fmap_2_strong tid).
    + intros x y Hx%list_elem_of_filter Hy%list_elem_of_filter Hxy.
      apply (tid_inj (mTracks e)); tauto.
    + apply list.NoDup_filter. by apply (NoDup_fmap_1 tid).
  - intros t Ht. by apply list_elem_of_filter in Ht as [_ Ht].
  - eexists. split; [done|]. effect_simpl.
    split; [|by rewrite Hn3, Hn1, Hpr3, Hpr1].
    rewrite Hc. apply list_fmap_ext. intros i x Hx.
    apply list_elem_of_lookup_2 in Hx.
    case_decide as Hd; [done|].
    rewrite generated_other; [done|].
    destruct (GetSelected x || IsSyncLockSelected x) eqn:HP'; [|done].
    destruct Hd. apply list_elem_of_fmap_2. by apply list_elem_of_filter.
Qed.

(** X18: the whole run of a generator.  For an effect of type
    Generate with at most one input whose unit gives out the samples
    [G 0], [G 1], ..., when [Init] and the dialog succeed and the effect
    is not skipped, [DoEffect] returns true and commits: with [tracks] the
    tracks of the project after the head of [DoEffect] (the project's own,
    followed by the new track when no wave track was selected), every
    selected wave track holds what [ClearAndPaste] makes of the first
    [GeneratorLength] samples of the unit, every other sync-lock selected
    track is adjusted, and the others are as they were; the new track
    stays, no working copy is left and the run is counted. *)
Theorem DoEffect_generates {U : Type} `{EffectClient U} G S (max bs : Z) fuel
    (e : Effect U) :
  generator_unit G S →
  (0 < max)%Z → (0 < bs)%Z → (max + 2 * bs ≤ 2 ^ 64)%Z →
  (∀ u : U, GetAudioInCount u ≤ 1) → (∀ u : U, 1 ≤ GetAudioOutCount u) →
  (∀ u : U, (Init u).1 = true) → (∀ u : U, (ShowInterface u).1 = true) →
  (∀ u : U, CheckWhetherSkipEffect u = false) →
  (∀ u : U, (InitPass1 u).1 = true) → (∀ u : U, (InitPass2 u).1 = false) →
  (∀ a t, GeneratorLength (Duplicate a t) = GeneratorLength t) →
  (∀ a t g, ClearAndPaste (Duplicate a t) g = ClearAndPaste t g) →
  (∀ a t, SyncLockAdjust (Duplicate a t) = SyncLockAdjust t) →
  let tracks := mTracks (DoEffect_enter e).1 in
  NoDup (tid <$> tracks) →
  (∀ t, t ∈ tracks → selected_wave t = true →
     size_t (GetMaxBlockSize t * 2) = max ∧
     (∀ u : U, (SetBlockSize max (SetSampleRate (GetRate t) u)).1 = bs) ∧
     GeneratorLength t ≤ fuel) →
  ∃ e', DoEffect fuel e = Some (e', Returns true) ∧
        content <$> mTracks e' = (λ t, content (generated_track G t)) <$> tracks ∧
        mOutputTracks e' = None ∧ mIMap e' = [] ∧ mOMap e' = [] ∧
        nEffectsDone e' = Datatypes.S (nEffectsDone e) ∧ mProgress e' = mProgress e.
Proof.
  intros Hunit Hmax Hbs Hrange Hin Hout Hinit Hshow Hskip Hp1 Hp2 Hlen Hpaste Hadj
    tracks Hnd Htracks.
  unfold DoEffect.
  destruct (DoEffect_enter_client e) as (_ & _ & _ & Hpr & Hn).
  subst tracks. destruct (DoEffect_enter e) as [eb nt]. cbn [fst] in *.
  pose proof (Hinit (mClient eb)) as Hi.
  destruct (Init (mClient eb)) as [okInit u]. simpl in Hi. subst okInit.
  effect_simpl.
  pose proof (Hshow u) as Hs.
  destruct (ShowInterface u) as [okShow u']. simpl in Hs. subst okShow.
  effect_simpl. rewrite Hskip.
  set (ep := set_mProgress true (set_mClient u' (set_mClient u eb))).
  assert (mTracks ep = mTracks eb ∧ nEffectsDone ep = nEffectsDone eb) as (Ht & Hn0) by done.
  destruct (Process_generates_run G S max bs fuel ep Hunit Hmax Hbs Hrange Hin Hout
              Hp1 Hp2 Hlen Hpaste Hadj)
    as (e' & -> & Hc & Ho & Hn' & _).
  { by rewrite Ht. }
  { by rewrite Ht. }
  unfold DoEffect_leave, DoEffect_cleanup, ReplaceProcessedTracks.
  cbn [returned_true negb]. effect_simpl.
  eexists. split; [done|]. effect_simpl.
  rewrite Ho, Hc, Ht, Hn', Hn0, Hn, Hpr. done.
Qed.

(** The synthetic generator on an empty project: a track is created
    and holds ten samples. *)
Lemma DoEffect_generates_witness :
  ∃ e',
    DoEffect (H := ramp_generator 10) 10 (generator_effect [])
    = Some (e', Returns true) ∧
    samples <$> mTracks e' = [[0; 1; 2; 3; 4; 5; 6; 7; 8; 9]]%Z ∧
    GetSelected <$> mTracks e' = [true].
Proof.
  destruct (DoEffect_generates (H := ramp_generator 10) Z.of_nat (λ u p, u = p) 8 4 10
              (generator_effect []))
    as (e' & He & Hc & _).
  - exact (generator_unit_ramp 10).
  - lia.
  - lia.
  - lia.
  - intros u. simpl. lia.
  - intros u. simpl. lia.
  - intros u. reflexivity.
  - intros u. reflexivity.
  - intros u. reflexivity.
  - intros u. reflexivity.
  - intros u. reflexivity.
  - intros a t. reflexivity.
  - intros a t g. reflexivity.
  - intros a t. reflexivity.
  - vm_compute. repeat constructor; rewrite ?elem_of_cons, ?elem_of_nil; lia.
  - intros t Ht Hsel. vm_compute in Ht.
    apply list_elem_of_singleton in Ht as ->.
    split; [reflexivity|split; [intros u; reflexivity|vm_compute; lia]].
  - exists e'. split; [exact He|].
    assert (samples <$> mTracks e' = samples <$> (content <$> mTracks e')) as ->.
    { rewrite <- list_fmap_compose. by apply list_fmap_ext. }
    assert (GetSelected <$> mTracks e' = GetSelected <$> (content <$> mTracks e')) as ->.
    { rewrite <- list_fmap_compose. by apply list_fmap_ext. }
    rewrite Hc. split; reflexivity.
Defined.

(** ** The input that a mono group does not use *)

Section UnusedInput.
Context {U : Type} `{EffectClient U}.
Variable c : Ctx.
Hypothesis Hnum : numChannels c = 1.

Lemma unused_next_block (r : Run U) :
  rightTrack (io r) = None →
  inBuffer (buf (next_block c r)) !! 1 = inBuffer (buf r) !! 1 ∧
  inBufPos (buf (next_block c r)) !! 1 = inBufPos (buf r) !! 1.
Proof.
  intros Hr. unfold next_block, input_block, refill, delay_block.
  rewrite Hr, Hnum.
  repeat case_decide; try destruct (cleared (loc r)); run_simpl;
    rewrite ?lookup_for_below, ?list_lookup_alter_ne by done;
    split; try done; by destruct (_ !! 1).
Qed.

Lemma unused_bump_input (r : Run U) :
  inBuffer (buf (bump_input c r)) !! 1 = inBuffer (buf r) !! 1 ∧
  inBufPos (buf (bump_input c r)) !! 1 = inBufPos (buf r) !! 1.
Proof.
  unfold bump_input. rewrite Hnum. case_decide; run_simpl; [|done].
  rewrite lookup_for_below. split; [done|]. by destruct (_ !! 1).
Qed.

Lemma input_views_1 (b : Buffers) :
  input_views b !! 1 = drop (pos_of (inBufPos b) 1) <$> inBuffer b !! 1.
Proof. unfold input_views. by rewrite list_lookup_imap. Qed.

(** Every call of the loop finds the second input as the loop found
    it. *)
Lemma unused_loop fuel : ∀ (r : Run U) s,
  rightTrack (io r) = None →
  block_loop c fuel r = Some s →
  ∃ calls,
    block_calls_of (trace (step_run s)) = block_calls_of (trace r) ++ calls ∧
    ∀ ins n, (ins, n) ∈ calls → ins !! 1 = input_views (buf r) !! 1.
Proof.
  induction fuel as [|fuel IH]; intros r s Hr; simpl.
  - case_decide; [|done]. intros [= <-]. exists []. split; [by rewrite app_nil_r|].
    by intros ins n ?%elem_of_nil.
  - case_decide as Hdone.
    { intros [= <-]. exists []. split; [by rewrite app_nil_r|].
      by intros ins n ?%elem_of_nil. }
    pose proof (block_calls_iteration c r) as Hcalls.
    pose proof (tids_iteration c r) as Htids.
    destruct (unused_next_block r Hr) as (Hb1 & Hp1).
    assert (input_views (buf (next_block c r)) !! 1 = input_views (buf r) !! 1) as Hv.
    { rewrite !input_views_1. unfold pos_of. by rewrite Hb1, Hp1. }
    destruct (iteration c r) as [r'|r'|r'|r'] eqn:Hit; simpl in Hcalls, Htids.
    + intros Hloop.
      assert (rightTrack (io r') = None) as Hr'.
      { unfold sinks_tids in Htids. rewrite Hr in Htids. injection Htids as _ Ht.
        by destruct (rightTrack (io r')). }
      destruct (IH r' s Hr' Hloop) as (calls & Hc & Hall).
      apply same_input_iteration in Hit as (Hsb & Hsp & _).
      destruct (unused_bump_input (next_block c r)) as (Hb2 & Hp2).
      assert (input_views (buf r') !! 1 = input_views (buf r) !! 1) as Hv'.
      { rewrite !input_views_1. unfold pos_of. by rewrite Hsb, Hsp, Hb2, Hp2, Hb1, Hp1. }
      eexists (_ :: calls). split.
      * rewrite Hc, Hcalls, <- app_assoc. done.
      * intros ins n [[= -> ->]|Hin]%elem_of_cons; [done|].
        rewrite <- Hv'. by apply (Hall ins n).
    + intros [= <-]. eexists [_]. split; [exact Hcalls|].
      by intros ins n [= -> ->]%list_elem_of_singleton.
    + intros [= <-]. eexists [_]. split; [exact Hcalls|].
      by intros ins n [= -> ->]%list_elem_of_singleton.
    + intros [= <-]. eexists [_]. split; [exact Hcalls|].
      by intros ins n [= -> ->]%list_elem_of_singleton.
Qed.
End UnusedInput.

Section UnusedGroup.
Context {U : Type} `{EffectClient U}.

Lemma ProcessTrack_unused fuel (e : Effect U) count map leftT ls rs n b r res :
  mNumChannels e = 1 →
  ProcessTrack fuel e count map leftT None ls rs n b = Some (r, res) →
  ∃ calls,
    block_calls_of (trace r) = block_calls_of (mTrace e) ++ calls ∧
    ∀ ins m, (ins, m) ∈ calls →
      ins !! 1 = drop (pos_of (inBufPos b) 1) <$> inBuffer b !! 1.
Proof.
  intros Hnum. unfold ProcessTrack.
  destruct (ProcessInitialize n map (mClient e)) as [ok u].
  set (c := track_ctx e u count leftT ls n).
  set (r0 := initial_run c u (mTrace e) leftT None rs b).
  assert (rightTrack (io r0) = None ∧ buf r0 = b ∧ trace r0 = mTrace e) as (Hr0 & Hb0 & Ht0)
    by done.
  destruct ok; last first.
  { intros [= <- <-]. exists []. rewrite Ht0, app_nil_r. split; [done|].
    by intros ins m ?%elem_of_nil. }
  destruct (block_loop c fuel r0) as [s|] eqn:Hloop; [|done].
  intros [= Hf]. pose proof (trace_finish c s) as Htr. rewrite Hf in Htr. simpl in Htr.
  destruct (unused_loop c Hnum fuel r0 s Hr0 Hloop) as (calls & Hc & Hall).
  exists calls. rewrite Htr, Hc, Ht0. split; [done|].
  intros ins m Hin. rewrite (Hall ins m Hin), input_views_1. by rewrite Hb0.
Qed.

(** The calls of a mono group, and the second input array as the Buffer
    Manager left it. *)
Lemma process_group_unused fuel mc g i lt (st st' : PassState) res :
  process_group fuel mc g i lt st = Some (st', res) →
  mc && GetLinked lt = false →
  1 < mNumAudioIn (pEffect st) →
  let st0 := mkPass (set_mNumChannels 1 (pEffect st)) (pBuffers st) (pClear st) (pCount st) in
  ∃ calls,
    block_calls_of (mTrace (pEffect st')) = block_calls_of (mTrace (pEffect st)) ++ calls ∧
    ∀ ins m, (ins, m) ∈ calls →
      ins !! 1 = inBuffer (pBuffers (buffer_manager lt false st0)) !! 1.
Proof.
  intros Hpg Hmono Hin. cbv zeta. revert Hpg. unfold process_group.
  destruct (if g then _ else _) as [ls n]. rewrite Hmono.
  change (bool_decide (is_Some (@None Track))) with false.
  set (st0 := mkPass _ _ _ _).
  destruct (buffer_manager_trace lt false st0) as (evs & Hevs & _ & Hbc).
  destruct (buffer_manager_positions lt false st0) as (Hpos & _).
  specialize (Hpos 1 Hin).
  assert (mNumChannels (pEffect (buffer_manager lt false st0)) = 1) as Hnc.
  { unfold buffer_manager. destruct (SetBlockSize _ _) as [bs u2].
    by repeat case_bool_decide; destruct (_ && _). }
  set (st1 := buffer_manager lt false st0) in *. clearbody st1.
  destruct (ProcessTrack _ _ _ _ _ _ _ _ _ _) as [[r res']|] eqn:HPT; [|done].
  intros [= <- <-]. cbn [pEffect]. effect_simpl.
  apply ProcessTrack_unused in HPT as (calls & Hc & Hall); [|done].
  exists calls. revert Hc. effect_simpl. intros Hc. split.
  - rewrite Hc, Hevs, !block_calls_of_app, Hbc. simpl. by rewrite !app_nil_r.
  - intros ins m Hin'. rewrite (Hall ins m Hin'), Hpos.
    destruct (inBuffer (pBuffers st1) !! 1); simpl; [|done]. by rewrite drop_0.
Qed.
End UnusedGroup.

Lemma list_inserts_all {A} (k l : list A) : length k = length l → list_inserts 0 k l = k.
Proof.
  intros Hl. rewrite list_inserts_split by lia. simpl.
  rewrite drop_ge by lia. by rewrite app_nil_r.
Qed.

Section UnusedCleared.
Context {U : Type} `{EffectClient U}.

(** The second input array after the Buffer Manager, for a mono group
    of an effect with more than one input. *)
Lemma buffer_manager_unused lt (st : PassState (U := U)) :
  1 < mNumAudioIn (pEffect st) →
  let st' := buffer_manager lt false st in
  let size := Z.to_nat (mBufferSize (pEffect st')) in
  (pClear st = false →
     (mBufferSize (pEffect st) = mBufferSize (pEffect st') →
        ∃ a, inBuffer (pBuffers st) !! 1 = Some a ∧ length a = size) →
     inBuffer (pBuffers st') !! 1 = Some (replicate size 0%Z)) ∧
  (pClear st = true → mBufferSize (pEffect st) ≠ mBufferSize (pEffect st') →
     inBuffer (pBuffers st') !! 1 = Some ((λ j, uninitialised 1 j) <$> seq 0 size)).
Proof.
  intros Hin. cbv zeta. unfold buffer_manager.
  destruct (SetBlockSize _ _) as [bs u2].
  set (bsz := size_t (size_t (size_t (_ + size_t (bs - 1)) / bs) * bs)).
  rewrite (bool_decide_eq_true_2 (1 < mNumAudioIn (pEffect st))) by done.
  assert (new_inBuffer (mNumAudioIn (pEffect st)) (Z.to_nat bsz) !! 1
          = Some ((λ j, uninitialised 1 j) <$> seq 0 (Z.to_nat bsz))) as Hnew.
  { unfold new_inBuffer. rewrite list_lookup_fmap, lookup_seq_lt by done. done. }
  split.
  - intros -> Hkeep. cbn [negb andb].
    case_bool_decide as Hre; cbn [pEffect pBuffers inBuffer]; effect_simpl.
    + rewrite list_lookup_alter_eq, Hnew. simpl. f_equal. unfold zero_fill.
      apply list_inserts_all. by rewrite length_replicate, length_fmap, length_seq.
    + revert Hkeep. effect_simpl. intros Hkeep.
      destruct (Hkeep ltac:(by destruct (decide (mBufferSize (pEffect st) = bsz))))
        as (a & Ha & Hl).
      rewrite list_lookup_alter_eq, Ha. simpl. f_equal. unfold zero_fill.
      apply list_inserts_all. by rewrite length_replicate.
  - intros -> Hre. cbn [negb andb]. revert Hre.
    case_bool_decide as Hre'; cbn [pEffect pBuffers inBuffer]; effect_simpl; [done|].
    intros Hne. by destruct Hne.
Qed.
End UnusedCleared.

(** X19: silence on the input that a mono group does not use.  When
    an effect with more than one input processes a track on its own, and
    the flag [clear] is not set, the Buffer Manager clears the second input
    array, and every call of [ProcessBlock] for the group finds it silent,
    whatever the loop does to the first. *)
Theorem unused_input_cleared {U : Type} `{EffectClient U} fuel mc g i lt
    (st st' : PassState (U := U)) res :
  process_group fuel mc g i lt st = Some (st', res) →
  mc && GetLinked lt = false →
  1 < mNumAudioIn (pEffect st) →
  pClear st = false →
  let size := Z.to_nat (mBufferSize (pEffect st')) in
  (mBufferSize (pEffect st) = mBufferSize (pEffect st') →
     ∃ a, inBuffer (pBuffers st) !! 1 = Some a ∧ length a = size) →
  ∃ calls,
    block_calls_of (mTrace (pEffect st')) = block_calls_of (mTrace (pEffect st)) ++ calls ∧
    ∀ ins m, (ins, m) ∈ calls → ins !! 1 = Some (replicate size 0%Z).
Proof.
  intros Hpg Hmono Hin Hclear size Hkeep.
  destruct (process_group_unused fuel mc g i lt st st' res Hpg Hmono Hin)
    as (calls & Hc & Hall).
  destruct (process_group_sizes fuel mc g i lt st st' res Hpg) as (_ & Hsz & _).
  set (st0 := mkPass (set_mNumChannels 1 (pEffect st)) (pBuffers st) (pClear st) (pCount st))
    in *.
  destruct (buffer_manager_sizes lt false st0) as (_ & Hsz0 & _).
  destruct (buffer_manager_unused lt st0 Hin) as (Hzero & _).
  assert (mBufferSize (pEffect (buffer_manager lt false st0)) = mBufferSize (pEffect st'))
    as Heq by (by rewrite Hsz, Hsz0).
  rewrite Heq in Hzero.
  exists calls. split; [done|]. intros ins m Hin'.
  rewrite (Hall ins m Hin'). by apply Hzero.
Qed.

(** X20: the flag [clear] outlives the buffers.  When the flag is set
    (an earlier mono group has cleared the second input array) and the
    buffer size of the group differs from the one before, the arrays are
    allocated anew and the second one is not cleared: every call of
    [ProcessBlock] for the group finds uninitialised memory on the second
    input. *)
Theorem unused_input_stale {U : Type} `{EffectClient U} fuel mc g i lt
    (st st' : PassState (U := U)) res :
  process_group fuel mc g i lt st = Some (st', res) →
  mc && GetLinked lt = false →
  1 < mNumAudioIn (pEffect st) →
  pClear st = true →
  mBufferSize (pEffect st) ≠ mBufferSize (pEffect st') →
  ∃ calls,
    block_calls_of (mTrace (pEffect st')) = block_calls_of (mTrace (pEffect st)) ++ calls ∧
    ∀ ins m, (ins, m) ∈ calls →
      ins !! 1 = Some ((λ j, uninitialised 1 j)
                         <$> seq 0 (Z.to_nat (mBufferSize (pEffect st')))).
Proof.
  intros Hpg Hmono Hin Hclear Hre.
  destruct (process_group_unused fuel mc g i lt st st' res Hpg Hmono Hin)
    as (calls & Hc & Hall).
  destruct (process_group_sizes fuel mc g i lt st st' res Hpg) as (_ & Hsz & _).
  set (st0 := mkPass (set_mNumChannels 1 (pEffect st)) (pBuffers st) (pClear st) (pCount st))
    in *.
  destruct (buffer_manager_sizes lt false st0) as (_ & Hsz0 & _).
  destruct (buffer_manager_unused lt st0 Hin) as (_ & Hstale).
  assert (mBufferSize (pEffect (buffer_manager lt false st0)) = mBufferSize (pEffect st'))
    as Heq by (by rewrite Hsz, Hsz0).
  rewrite Heq in Hstale.
  exists calls. split; [done|]. intros ins m Hin'.
  rewrite (Hall ins m Hin'). by apply Hstale.
Qed.

(** The first mono group of a pass: its one call finds 8 zeros on the
    second input. *)
Lemma unused_input_cleared_witness :
  ∃ st1 res calls,
    process_group (H := delay_client stereo_delay) 100 true false 0
      (mkTrack 3 WaveTrackKind true false false MonoChannel 44100 4 [1; 2; 3]%Z)
      two_sizes_state = Some (st1, res) ∧
    block_calls_of (mTrace (pEffect st1)) = calls ∧ length calls = 1 ∧
    ∀ ins m, (ins, m) ∈ calls → ins !! 1 = Some (replicate 8 0%Z).
Proof.
  destruct (process_group (H := delay_client stereo_delay) 100 true false 0
      (mkTrack 3 WaveTrackKind true false false MonoChannel 44100 4 [1; 2; 3]%Z)
      two_sizes_state) as [[st1 res]|] eqn:E; [|vm_compute in E; discriminate E].
  assert (mBufferSize (pEffect st1) = 8%Z) as Hsz.
  { destruct (process_group_sizes _ _ _ _ _ _ _ _ E) as (_ & -> & _). reflexivity. }
  destruct (unused_input_cleared (H := delay_client stereo_delay) 100 true false 0
      (mkTrack 3 WaveTrackKind true false false MonoChannel 44100 4 [1; 2; 3]%Z)
      two_sizes_state st1 res E) as (calls & Hc & Hall).
  - reflexivity.
  - vm_compute. lia.
  - reflexivity.
  - rewrite Hsz. intros Hk. discriminate Hk.
  - rewrite Hsz in Hall. change (Z.to_nat 8) with 8 in Hall.
    change (block_calls_of (mTrace (pEffect two_sizes_state)))
      with (@nil (FloatBuffers * nat)) in Hc.
    simpl in Hc.
    exists st1, res, calls. split; [reflexivity|]. split; [exact Hc|].
    split; [|exact Hall].
    rewrite <- Hc. vm_compute in E. injection E as <- _. reflexivity.
Defined.

(** The second mono group of the pass has another buffer size: its one
    call finds on the second input the 12 samples of the allocator. *)
Lemma unused_input_stale_witness :
  ∃ st1 st2 res calls,
    process_group (H := delay_client stereo_delay) 100 true false 0
      (mkTrack 3 WaveTrackKind true false false MonoChannel 44100 4 [1; 2; 3]%Z)
      two_sizes_state = Some (st1, Returns true) ∧
    process_group (H := delay_client stereo_delay) 100 true false 1
      (mkTrack 4 WaveTrackKind true false false MonoChannel 44100 6 [4; 5; 6]%Z)
      st1 = Some (st2, res) ∧
    block_calls_of (mTrace (pEffect st2)) = block_calls_of (mTrace (pEffect st1)) ++ calls ∧
    ∀ ins m, (ins, m) ∈ calls → ins !! 1 = Some (replicate 12 (-7)%Z).
Proof.
  destruct (process_group (H := delay_client stereo_delay) 100 true false 0
      (mkTrack 3 WaveTrackKind true false false MonoChannel 44100 4 [1; 2; 3]%Z)
      two_sizes_state) as [[st1 res1]|] eqn:E1; [|vm_compute in E1; discriminate E1].
  vm_compute in E1. injection E1 as <- <-.
  match goal with |- ∃ st1 st2 res calls, Some (?s, _) = _ ∧ _ => set (st1 := s) end.
  destruct (process_group (H := delay_client stereo_delay) 100 true false 1
      (mkTrack 4 WaveTrackKind true false false MonoChannel 44100 6 [4; 5; 6]%Z)
      st1) as [[st2 res]|] eqn:E2; [|vm_compute in E2; discriminate E2].
  assert (mBufferSize (pEffect st2) = 12%Z) as Hsz.
  { destruct (process_group_sizes _ _ _ _ _ _ _ _ E2) as (_ & -> & _). reflexivity. }
  destruct (unused_input_stale (H := delay_client stereo_delay) 100 true false 1
      (mkTrack 4 WaveTrackKind true false false MonoChannel 44100 6 [4; 5; 6]%Z)
      st1 st2 res E2) as (calls & Hc & Hall).
  - reflexivity.
  - vm_compute. lia.
  - reflexivity.
  - rewrite Hsz. vm_compute. discriminate.
  - rewrite Hsz in Hall. exists st1, st2, res, calls.
    split; [reflexivity|]. split; [exact E2|]. split; [exact Hc|]. exact Hall.
Defined.
